(** * magnetron: the CPU compute backend (magnetron_cpu.c)

    A shallow embedding of the CPU backend of the magnetron tensor library:
    the BLAS specialization selector, the barrier-synchronised worker pool,
    the dynamic work-scaling heuristic, the eager execution entry points,
    the shutdown of the pool and the host storage buffer.  Part I holds the definitions, each one next to
    the name of the C function it renders; Part II holds the lemmas. *)

From Stdlib Require Import ZArith Lia Bool String QArith.
From stdpp Require Import base tactics option list gmap.

Local Open Scope Z_scope.

(* ===================================================================== *)
(** * Part I. Definitions                                                  *)
(* ===================================================================== *)

(** ** Machine integers *)

(** [uint64_t], [size_t] and [uintptr_t] arithmetic wraps modulo 2^64. *)
Definition wrap64 (z : Z) : Z := z mod 2 ^ 64.

Definition UINT32_MAX : Z := 2 ^ 32 - 1.
Definition INT64_MIN : Z := - 2 ^ 63.
Definition INT64_MAX : Z := 2 ^ 63 - 1.

(** ** Outcomes of a C call

    A call either returns ([Done], with its result and the state it leaves),
    aborts the process through [mag_panic] / a failed [mag_assert2]
    ([Panic], with the message and the state at the abort), or runs into
    behaviour the C standard leaves undefined ([Undefined]). *)
Inductive outcome (S A : Type) : Type :=
| Done (a : A) (s : S)
| Panic (msg : string) (s : S)
| Undefined.
Arguments Done {S A} a s.
Arguments Panic {S A} msg s.
Arguments Undefined {S A}.

Definition returns {S A} (o : outcome S A) : Prop :=
  match o with Done _ _ => True | _ => False end.

Definition panics {S A} (o : outcome S A) : Prop :=
  match o with Panic _ _ => True | _ => False end.

(** ** Tensors, payloads and the kernel registry *)

(** The operator node is external; the backend reads its operator tag and
    its element count only. *)
Record mag_tensor_t := Tensor {
  op : Z;
  numel : Z
}.

(** [mag_compute_payload_t]: [node] is a nullable pointer. *)
Record mag_compute_payload_t := Payload {
  node : option mag_tensor_t;
  thread_idx : Z;
  thread_num : Z
}.

(** A kernel is a code address; the registry maps an operator tag to the
    forward kernel installed for it (0 where none is). *)
Definition kernel_ptr := Z.

Record mag_kernel_registry_t := Registry {
  fwd : Z -> kernel_ptr
}.

(** What a thread does that the rest of the library can observe: the call of
    a forward kernel, with the payload it was handed. *)
Inductive thread_id := Caller | WorkerThread (i : nat).

Inductive event :=
| EvKernel (who : thread_id) (k : kernel_ptr) (pl : mag_compute_payload_t).

(** ** The thread pool *)

(** Where an OS worker thread stands in [mag_worker_thread_exec_op]. *)
Inductive worker_pc :=
| NoThread          (* worker 0: the calling thread, no OS thread *)
| AtAwait           (* in mag_worker_await_work *)
| AtExec            (* entering mag_worker_exec_and_broadcast *)
| AtSignal          (* about to take the mutex and count itself *)
| Exited.           (* left the loop after an interrupt *)

(** [mag_worker_t]; the [thread] handle is rendered as the control point of
    the thread it names. *)
Record mag_worker_t := Worker {
  w_phase : Z;
  payload : mag_compute_payload_t;
  is_async : bool;
  thread : worker_pc
}.

(** [mag_threadpool_t]; the mutex and the condition variable are the
    atomicity of the transitions below. *)
Record mag_threadpool_t := Pool {
  interrupt : bool;
  phase : Z;
  num_completed : Z;
  num_allocated_workers : Z;
  num_active_workers : Z;
  workers : list mag_worker_t;
  pool_kernels : mag_kernel_registry_t
}.

Definition set_payload (w : mag_worker_t) (pl : mag_compute_payload_t) : mag_worker_t :=
  Worker (w_phase w) pl (is_async w) (thread w).

Definition set_w_phase (w : mag_worker_t) (ph : Z) : mag_worker_t :=
  Worker ph (payload w) (is_async w) (thread w).

Definition set_thread (w : mag_worker_t) (pc : worker_pc) : mag_worker_t :=
  Worker (w_phase w) (payload w) (is_async w) pc.

Definition set_workers (p : mag_threadpool_t) (ws : list mag_worker_t) : mag_threadpool_t :=
  Pool (interrupt p) (phase p) (num_completed p) (num_allocated_workers p)
       (num_active_workers p) ws (pool_kernels p).

(** [mag_worker_await_work], the critical section under the mutex: [None]
    while the wait predicate [interrupt || pool->phase > worker->phase] is
    false (the thread stays in [mag_cv_wait]); otherwise the return value and
    the worker as the function leaves it. *)
Definition mag_worker_await_work (w : mag_worker_t) (p : mag_threadpool_t)
  : option (bool * mag_worker_t) :=
  if negb (interrupt p || (w_phase w <? phase p)) then None
  else if interrupt p then Some (false, w)
  else Some (true, set_w_phase w (phase p)).

(** [mag_worker_exec_thread_local]: run the node's kernel, then clear the
    node. *)
Definition mag_worker_exec_thread_local (who : thread_id) (kernels : mag_kernel_registry_t)
    (pl : mag_compute_payload_t) : mag_compute_payload_t * list event :=
  match node pl with
  | Some nd => (Payload None (thread_idx pl) (thread_num pl),
                [EvKernel who (fwd kernels (op nd)) pl])
  | None => (pl, [])
  end.

(** [mag_worker_exec_and_broadcast], first statement: only an active thread
    executes. *)
Definition exec_if_active (who : thread_id) (p : mag_threadpool_t)
    (pl : mag_compute_payload_t) : mag_compute_payload_t * list event :=
  if thread_idx pl <? num_active_workers p
  then mag_worker_exec_thread_local who (pool_kernels p) pl
  else (pl, []).

(** [mag_worker_exec_and_broadcast], the critical section:
    [++pool->num_completed == pool->num_allocated_workers]; the flag says
    whether the condition variable is broadcast. *)
Definition count_completed (p : mag_threadpool_t) : mag_threadpool_t * bool :=
  let c := wrap64 (num_completed p + 1) in
  (Pool (interrupt p) (phase p) c (num_allocated_workers p)
        (num_active_workers p) (workers p) (pool_kernels p),
   c =? num_allocated_workers p).

(** One worker as [mag_threadpool_create] initialises it. *)
Definition new_worker (num_workers : Z) (ti : nat) : mag_worker_t :=
  Worker 0 (Payload None (Z.of_nat ti) num_workers)
         (negb (Nat.eqb ti 0))
         (if Nat.eqb ti 0 then NoThread else AtAwait).

(** [mag_threadpool_create], as it returns: every async worker is online and
    stands in its wait loop. *)
Definition mag_threadpool_create (num_workers : Z) (kernels : mag_kernel_registry_t)
  : mag_threadpool_t :=
  Pool false 0 0 num_workers num_workers
       (map (new_worker num_workers) (seq 0 (Z.to_nat num_workers)))
       kernels.

(** [mag_threadpool_kickoff]: the loop writes the node and the active count
    into the payload of each of the [num_allocated_workers] workers. *)
Definition kickoff_payload (nd : mag_tensor_t) (k : Z) (w : mag_worker_t) : mag_worker_t :=
  set_payload w (Payload (Some nd) (thread_idx (payload w)) k).

Definition mag_threadpool_kickoff (p : mag_threadpool_t) (nd : mag_tensor_t)
    (num_active : Z) : mag_threadpool_t :=
  Pool (interrupt p)
       (wrap64 (phase p + 1))
       0
       (num_allocated_workers p)
       num_active
       (map (kickoff_payload nd num_active) (workers p))
       (pool_kernels p).

(** [mag_threadpool_barrier]: the wait loop is left only when
    [num_completed == num_allocated_workers]. *)
Definition barrier_open (p : mag_threadpool_t) : bool :=
  num_completed p =? num_allocated_workers p.

(** ** The CPU device *)

(** An ISA feature tag ([mag_x86_64_feature_t], an enumeration). *)
Definition mag_x86_64_feature_t := Z.

(** The library context, as far as the backend reads it. *)
Record mag_ctx_t := Ctx {
  cpu_features : gset Z;
  cpu_virtual_cores : Z
}.

(** Modelled from the spec: [mag_ctx_x86_64_cpu_has_feature] is declared in
    magnetron_internal.h, which is not among the sources; the spec describes
    [context.cpu_features] as a set of ISA feature tags, and the query is
    membership in it. *)
Definition mag_ctx_x86_64_cpu_has_feature (ctx : mag_ctx_t) (f : mag_x86_64_feature_t) : bool :=
  bool_decide (f ∈ cpu_features ctx).

(** [mag_cpu_device_t].  The [double] field [growth_scale] is rendered as a
    rational, its default 0.3 as 3/10. *)
Record mag_cpu_device_t := Device {
  ctx : mag_ctx_t;
  pool : option mag_threadpool_t;
  dvc_num_allocated_workers : Z;
  kernels : mag_kernel_registry_t;
  growth_scale : Q;
  numel_threshold : Z
}.

Definition set_pool (dvc : mag_cpu_device_t) (p : mag_threadpool_t) : mag_cpu_device_t :=
  Device (ctx dvc) (Some p) (dvc_num_allocated_workers dvc) (kernels dvc)
         (growth_scale dvc) (numel_threshold dvc).

(** The zeroed registry of [.kernels = {}]. *)
Definition empty_registry : mag_kernel_registry_t := Registry (fun _ => 0).

(** ** BLAS specializations and their selection *)

(** [mag_amd64_blas_specialization].  [get_feature_permutation] is rendered
    by what a call of it yields: [None] for a null array, otherwise the
    array, whose length is the count written to [out_num]. *)
Record mag_amd64_blas_specialization := Specialization {
  spec_name : string;
  get_feature_permutation : option (list mag_x86_64_feature_t);
  inject_kernels : mag_kernel_registry_t -> mag_kernel_registry_t
}.

(** Which installer ran. *)
Inductive installer :=
| Specialized (name : string)
| Generic.

(** The kernel registry under construction, with the installers that have
    been called on it and the informational log lines, oldest first. *)
Record blas_state := BlasState {
  bs_kernels : mag_kernel_registry_t;
  bs_installed : list installer;
  bs_log : list string
}.

Definition call_installer (who : installer)
    (inject : mag_kernel_registry_t -> mag_kernel_registry_t) (st : blas_state) : blas_state :=
  BlasState (inject (bs_kernels st)) (bs_installed st ++ [who]) (bs_log st).

Definition mag_log_info (line : string) (st : blas_state) : blas_state :=
  BlasState (bs_kernels st) (bs_installed st) (bs_log st ++ [line]).

(** The inner loop: [has_all_features &= mag_ctx_x86_64_cpu_has_feature(ctx, features[j])]. *)
Definition has_all_features (ctx : mag_ctx_t) (features : list mag_x86_64_feature_t) : bool :=
  fold_left (fun acc f => acc && mag_ctx_x86_64_cpu_has_feature ctx f) features true.

Section Blas.
  (** [mag_cpu_blas_specialization_fallback] and the four amd64
      specializations are defined in translation units outside this file. *)
  Variable mag_cpu_blas_specialization_fallback : mag_kernel_registry_t -> mag_kernel_registry_t.
  Variables avx512f_features avx2_features avx_features sse41_features
    : option (list mag_x86_64_feature_t).
  Variables inject_avx512f inject_avx2 inject_avx inject_sse41
    : mag_kernel_registry_t -> mag_kernel_registry_t.

(** The table, sorted from best to worst score. *)
Definition mag_amd64_blas_specializations : list mag_amd64_blas_specialization :=
  [ Specialization "amd64_avx512f" avx512f_features inject_avx512f;
    Specialization "amd64_avx2" avx2_features inject_avx2;
    Specialization "amd64_avx" avx_features inject_avx;
    Specialization "amd64_sse41" sse41_features inject_sse41 ].

(** The scan of [mag_amd64_blas_detect_optimal_specialization] over the
    entries that are left. *)
Fixpoint detect_scan (ctx : mag_ctx_t) (specs : list mag_amd64_blas_specialization)
    (st : blas_state) : bool * blas_state :=
  match specs with
  | [] =>
      (false, call_installer Generic mag_cpu_blas_specialization_fallback st)
  | spec :: rest =>
      match get_feature_permutation spec with
      | None => detect_scan ctx rest st
      | Some [] => detect_scan ctx rest st
      | Some features =>
          if has_all_features ctx features
          then (true,
                mag_log_info ("Using BLAS specialization: " ++ spec_name spec)
                  (call_installer (Specialized (spec_name spec)) (inject_kernels spec) st))
          else detect_scan ctx rest st
      end
  end.

Definition mag_amd64_blas_detect_optimal_specialization (ctx : mag_ctx_t)
    (st : blas_state) : bool * blas_state :=
  detect_scan ctx mag_amd64_blas_specializations st.

(** [mag_blas_detect_optimal_specialization]; [amd64] is the preprocessor
    test [defined(__x86_64__) || defined(_M_X64)]. *)
Definition mag_blas_detect_optimal_specialization (amd64 : bool) (ctx : mag_ctx_t)
    (st : blas_state) : bool * blas_state :=
  if amd64 then mag_amd64_blas_detect_optimal_specialization ctx st
  else (false, call_installer Generic mag_cpu_blas_specialization_fallback st).

(** [mag_cpu_init_device]: the device, and what the selector did. *)
Definition mag_cpu_init_device (amd64 : bool) (c : mag_ctx_t) (num_threads : Z)
  : mag_cpu_device_t * blas_state :=
  let '(_, st) :=
    mag_blas_detect_optimal_specialization amd64 c (BlasState empty_registry [] []) in
  let k := bs_kernels st in
  (if 1 <? num_threads
   then Device c (Some (mag_threadpool_create num_threads k)) num_threads k (3 # 10) 250000
   else Device c None 0 k (3 # 10) 250000,
   st).

End Blas.

(** An entry the scan stops at, in the words of the spec: its feature list
    is present, not empty, and every feature of it is one of the context's. *)
Definition selectable (ctx : mag_ctx_t) (spec : mag_amd64_blas_specialization) : Prop :=
  exists features,
    get_feature_permutation spec = Some features /\
    features <> [] /\
    forall f, f ∈ features -> f ∈ cpu_features ctx.


(** ** The dynamic work-scaling heuristic *)

(** A C [double] that is integral or not finite: what [ceil] can return. *)
Inductive fp_integral :=
| FpNaN
| FpNegInf
| FpPosInf
| FpInt (z : Z).

(** Division rounding up. *)
Definition cdiv (a b : Z) : Z := - ((- a) / b).

(** [ceil(g * log2((double)x))] for a 64-bit integer [x] and a scale [g],
    in exact arithmetic.  As in C (Annex F): [log2] of a negative number is
    a NaN and [log2(0)] is minus infinity, which the product and [ceil] pass
    on according to the sign of [g]; [log2(1)] is 0.  These are the points
    the statements about the threshold rest on, and there the value is the
    code's.  For [x >= 2] and [g = p/q] the value is the least integer above
    [log2(x^p) / q], the real-number value: the code computes in binary64,
    whose roundings of the conversion, of [log2] and of the product can
    give one less where [g * log2 x] lies just above an integer.  The
    theorems about the code rest on the value at 0 and 1 only, or hold for
    whatever width the heuristic returns; the examples take arguments at
    which the product is away from an integer by far more than the
    rounding.  [mag_cpu_dynamic_work_scaling_on] is the heuristic over
    whatever the platform computes. *)
Definition ceil_scaled_log2 (g : Q) (x : Z) : fp_integral :=
  if x <? 0 then FpNaN
  else if x =? 0 then
    match Qnum g ?= 0 with
    | Gt => FpNegInf
    | Lt => FpPosInf
    | Eq => FpNaN
    end
  else if 0 <=? Qnum g
  then FpInt (cdiv (Z.log2_up (x ^ Qnum g)) (Zpos (Qden g)))
  else FpInt (- (Z.log2 (x ^ (- Qnum g)) / Zpos (Qden g))).

(** The conversion [(uint32_t)d] (C11 6.3.1.4): defined only when the value
    fits the type; [None] is undefined behaviour. *)
Definition double_to_uint32 (d : fp_integral) : option Z :=
  match d with
  | FpInt z => if (0 <=? z) && (z <=? UINT32_MAX) then Some z else None
  | _ => None
  end.

(** Modelled from the spec: the macro [mag_xmin] is defined in
    magnetron_internal.h, which is not among the sources; the spec reads its
    use here, with [mag_xmax], as a clamp to [1, N], so it is the minimum of
    its arguments. *)
Definition mag_xmin (x y : Z) : Z := if x <? y then x else y.

(** Modelled from the spec: the macro [mag_xmax], of the same header, is the
    maximum of its arguments. *)
Definition mag_xmax (x y : Z) : Z := if y <? x then x else y.

Definition no_pool (dvc : mag_cpu_device_t) : bool :=
  match pool dvc with None => true | Some _ => false end.

(** [mag_cpu_dynamic_work_scaling]; [None] where the C code has no defined
    result (overflow of the [int64_t] subtraction, or a [double] that does
    not fit [uint32_t]). *)
Definition mag_cpu_dynamic_work_scaling (dvc : mag_cpu_device_t) (numel : Z) : option Z :=
  if no_pool dvc || (numel <? numel_threshold dvc) then Some 1
  else
    let numel := numel - numel_threshold dvc in
    if (INT64_MIN <=? numel) && (numel <=? INT64_MAX) then
      match double_to_uint32 (ceil_scaled_log2 (growth_scale dvc) numel) with
      | Some workers =>
          Some (mag_xmin (dvc_num_allocated_workers dvc) (mag_xmax 1 workers))
      | None => None
      end
    else None.

(** [mag_cpu_dynamic_work_scaling] with its floating-point expression left
    to the platform: [fp g x] is what the C implementation makes of
    [ceil(g * log2((double)x))], the conversion of the 64-bit [x], the
    library's [log2], the product and [ceil], each with its rounding.  The
    rest, which is integer code, is as above. *)
Definition mag_cpu_dynamic_work_scaling_on (fp : Q -> Z -> fp_integral)
    (dvc : mag_cpu_device_t) (numel : Z) : option Z :=
  if no_pool dvc || (numel <? numel_threshold dvc) then Some 1
  else
    let numel := numel - numel_threshold dvc in
    if (INT64_MIN <=? numel) && (numel <=? INT64_MAX) then
      match double_to_uint32 (fp (growth_scale dvc) numel) with
      | Some workers =>
          Some (mag_xmin (dvc_num_allocated_workers dvc) (mag_xmax 1 workers))
      | None => None
      end
    else None.

(** ** Eager execution *)

(** The steps of the calling thread that other threads can see between:
    each is one critical section or one lock-free stretch of
    [mag_cpu_exec_fwd] and the functions it calls. *)
Inductive action :=
| ActInline (pl : mag_compute_payload_t)     (* exec_thread_local on a payload of its own *)
| ActKickoff (nd : mag_tensor_t) (k : Z)     (* mag_threadpool_kickoff *)
| ActBroadcast                               (* mag_cv_broadcast *)
| ActExec (i : nat)                          (* exec_and_broadcast on workers[i], lock-free part *)
| ActSignal                                  (* exec_and_broadcast, critical section *)
| ActBarrier.                                (* mag_threadpool_barrier *)

(** [mag_worker_exec_and_broadcast] on the payload of worker [i]. *)
Definition mag_worker_exec_and_broadcast (i : nat) : list action :=
  [ActExec i; ActSignal].

(** [mag_threadpool_parallel_compute]: the payload handed to
    [mag_worker_exec_and_broadcast] is [&pool->workers->payload], worker 0's. *)
Definition mag_threadpool_parallel_compute (nd : mag_tensor_t) (num_active_workers : Z)
  : list action :=
  [ActKickoff nd num_active_workers; ActBroadcast]
    ++ mag_worker_exec_and_broadcast 0
    ++ [ActBarrier].

(** [mag_cpu_exec_fwd]: what the calling thread goes on to do; [None] where
    the work scaling has no defined result. *)
Definition mag_cpu_exec_fwd (dvc : mag_cpu_device_t) (nd : mag_tensor_t)
  : option (list action) :=
  match mag_cpu_dynamic_work_scaling dvc (numel nd) with
  | None => None
  | Some num_active_workers =>
      if no_pool dvc || (num_active_workers <=? 1)
      then Some [ActInline (Payload (Some nd) 0 1)]
      else Some (mag_threadpool_parallel_compute nd num_active_workers)
  end.

(** The device with its threads: the calling thread is in the middle of
    [caller] (empty between two calls), each worker thread stands where its
    worker's [thread] says.  The condition variable is not part of this
    state: in the steps below a thread that waits on it moves once its wait
    predicate holds, and [mag_cv_broadcast] changes nothing, which yields
    every interleaving of the program (and is what the statements about the
    states the program reaches need).  Which thread is blocked in
    [mag_cv_wait] and which broadcast releases it is added by [cv_system]
    and [cv_step], for the statements about progress. *)
Record system := Sys {
  device : mag_cpu_device_t;
  caller : list action;
  trace : list event
}.

(** Modelled from the spec: [mag_panic] is a macro of magnetron_internal.h,
    which is not among the sources; the spec has it abort the process with
    its diagnostic. *)
Definition mag_panic {S A} (msg : string) (s : S) : outcome S A := Panic msg s.

(** [mag_cpu_exec_bwd]: both arguments are discarded. *)
Definition mag_cpu_exec_bwd (dvc : mag_cpu_device_t) (root : mag_tensor_t) (s : system)
  : outcome system unit :=
  mag_panic "NYI" s.

(** One step of the calling thread: the first action of [caller]. *)
Definition caller_step (s : system) : option system :=
  match caller s with
  | [] => None
  | ActInline pl :: rest =>
      let '(_, evs) := mag_worker_exec_thread_local Caller (kernels (device s)) pl in
      Some (Sys (device s) rest (trace s ++ evs))
  | ActKickoff nd k :: rest =>
      p ← pool (device s);
      Some (Sys (set_pool (device s) (mag_threadpool_kickoff p nd k)) rest (trace s))
  | ActBroadcast :: rest =>
      Some (Sys (device s) rest (trace s))
  | ActExec i :: rest =>
      p ← pool (device s);
      w ← workers p !! i;
      let '(pl, evs) := exec_if_active Caller p (payload w) in
      Some (Sys (set_pool (device s) (set_workers p (<[i := set_payload w pl]> (workers p))))
                rest (trace s ++ evs))
  | ActSignal :: rest =>
      p ← pool (device s);
      Some (Sys (set_pool (device s) (fst (count_completed p))) rest (trace s))
  | ActBarrier :: rest =>
      p ← pool (device s);
      if barrier_open p then Some (Sys (device s) rest (trace s)) else None
  end.

(** One step of the OS thread of worker [i], the loop of
    [mag_worker_thread_exec_op]. *)
Definition worker_step (i : nat) (s : system) : option system :=
  p ← pool (device s);
  w ← workers p !! i;
  match thread w with
  | AtAwait =>
      match mag_worker_await_work w p with
      | None => None
      | Some (go, w') =>
          let w'' := set_thread w' (if go then AtExec else Exited) in
          Some (Sys (set_pool (device s) (set_workers p (<[i := w'']> (workers p))))
                    (caller s) (trace s))
      end
  | AtExec =>
      let '(pl, evs) := exec_if_active (WorkerThread i) p (payload w) in
      let w' := set_thread (set_payload w pl) AtSignal in
      Some (Sys (set_pool (device s) (set_workers p (<[i := w']> (workers p))))
                (caller s) (trace s ++ evs))
  | AtSignal =>
      let p' := fst (count_completed p) in
      let w' := set_thread w AtAwait in
      Some (Sys (set_pool (device s) (set_workers p' (<[i := w']> (workers p'))))
                (caller s) (trace s))
  | NoThread | Exited => None
  end.

(** Who moves next. *)
Inductive label :=
| CallFwd (nd : mag_tensor_t)     (* the library calls exec_fwd on the idle caller *)
| StepCaller
| StepWorker (i : nat).

Definition sys_step (l : label) (s : system) : option system :=
  match l with
  | CallFwd nd =>
      match caller s with
      | [] => acts ← mag_cpu_exec_fwd (device s) nd;
              Some (Sys (device s) acts (trace s))
      | _ :: _ => None
      end
  | StepCaller => caller_step s
  | StepWorker i => worker_step i s
  end.

(** A schedule run from a state. *)
Fixpoint run (sched : list label) (s : system) : option system :=
  match sched with
  | [] => Some s
  | l :: rest => s' ← sys_step l s; run rest s'
  end.

(** The states a device reaches from [s0]. *)
Definition reachable (s0 s : system) : Prop :=
  exists sched, run sched s0 = Some s.

(** A device fresh from initialisation with a pool of [n] workers. *)
Definition fresh_system (n : Z) (k : mag_kernel_registry_t) (c : mag_ctx_t) : system :=
  Sys (Device c (Some (mag_threadpool_create n k)) n k (3 # 10) 250000) [] [].

(** ** Host storage buffers *)

(** The host address space, a byte per address. *)
Definition memory := Z -> Byte.byte.

(** [memset(p, x, n)]. *)
Definition memset (m : memory) (p : Z) (x : Byte.byte) (n : Z) : memory :=
  fun a => if (p <=? a) && (a <? p + n) then x else m a.

Definition ranges_overlap (p q n : Z) : bool :=
  (0 <? n) && (p <? q + n) && (q <? p + n).

(** [memcpy(dst, src, n)]: undefined ([None]) when the two ranges overlap. *)
Definition memcpy (m : memory) (dst src n : Z) : option memory :=
  if ranges_overlap dst src n then None
  else Some (fun a => if (dst <=? a) && (a <? dst + n) then m (src + (a - dst)) else m a).

(** The [n] bytes at [p]. *)
Definition load (m : memory) (p n : Z) : list Byte.byte :=
  map (fun i => m (p + Z.of_nat i)) (seq 0 (Z.to_nat n)).

(** The functions a storage buffer's vtable can point to. *)
Inductive storage_fn :=
| fn_mag_cpu_buf_set
| fn_mag_cpu_buf_cpy_host_device
| fn_mag_cpu_buf_cpy_device_host.

(** [mag_storage_buffer_t]; a function pointer is [None] when null. *)
Record mag_storage_buffer_t := Storage {
  sto_base : Z;
  sto_size : Z;
  sto_alignment : Z;
  sto_host : Z;
  sto_set : option storage_fn;
  sto_cpy_host_device : option storage_fn;
  sto_cpy_device_host : option storage_fn
}.

(** Modelled from the spec: [mag_assert2] is a macro of
    magnetron_internal.h, which is not among the sources; the spec has a
    failed assertion abort the process with a diagnostic, before anything
    after it runs. *)
Definition mag_assert2 {S A} (cond : bool) (text : string) (s : S)
    (k : outcome S A) : outcome S A :=
  if cond then k else Panic text s.

(** [mag_cpu_buf_set]: the comparison and the length are computed in
    [uintptr_t] / [size_t]. *)
Definition mag_cpu_buf_set (sto : mag_storage_buffer_t) (offs : Z) (x : Byte.byte)
    (m : memory) : outcome memory unit :=
  mag_assert2
    (wrap64 (sto_base sto + offs) <=? wrap64 (sto_base sto + sto_size sto))
    "sto->base+offs <= sto->base+sto->size" m
    (Done tt (memset m (wrap64 (sto_base sto + offs)) x (wrap64 (sto_size sto - offs)))).

(** [mag_cpu_buf_cpy_host_device]. *)
Definition mag_cpu_buf_cpy_host_device (sto : mag_storage_buffer_t) (offs : Z)
    (src : Z) (n : Z) (m : memory) : outcome memory unit :=
  mag_assert2
    (wrap64 (sto_base sto + offs + n) <=? wrap64 (sto_base sto + sto_size sto))
    "sto->base+offs+n <= sto->base+sto->size" m
    (match memcpy m (wrap64 (sto_base sto + offs)) src n with
     | Some m' => Done tt m'
     | None => Undefined
     end).

(** [mag_cpu_buf_cpy_device_host]. *)
Definition mag_cpu_buf_cpy_device_host (sto : mag_storage_buffer_t) (offs : Z)
    (dst : Z) (n : Z) (m : memory) : outcome memory unit :=
  mag_assert2
    (wrap64 (sto_base sto + offs + n) <=? wrap64 (sto_base sto + sto_size sto))
    "sto->base+offs+n <= sto->base+sto->size" m
    (match memcpy m dst (wrap64 (sto_base sto + offs)) n with
     | Some m' => Done tt m'
     | None => Undefined
     end).

(** [mag_cpu_alloc_storage]; [mag_alloc_aligned] is the library's allocator
    hook, whose return value is stored unchecked. *)
Definition mag_cpu_alloc_storage (mag_alloc_aligned : Z -> Z -> Z) (host : Z) (size : Z)
    (m : memory) : outcome memory mag_storage_buffer_t :=
  mag_assert2 (negb (size =? 0)) "size" m
    (let align := 16 in
     let block := mag_alloc_aligned size align in
     Done (Storage block size align host
                   (Some fn_mag_cpu_buf_set)
                   (Some fn_mag_cpu_buf_cpy_host_device)
                   (Some fn_mag_cpu_buf_cpy_device_host)) m).

(** A descriptor of an allocated block: the block lies inside the address
    space, so no address of it wraps. *)
Definition valid_storage (sto : mag_storage_buffer_t) : Prop :=
  0 <= sto_base sto /\ 0 <= sto_size sto /\ sto_base sto + sto_size sto < 2 ^ 64.

(** ** Invariants, decision procedures and example values for Part II *)

(** A small buffer and a zeroed memory, for the examples. *)
Definition example_storage : mag_storage_buffer_t :=
  Storage 4096 1024 16 0
          (Some fn_mag_cpu_buf_set)
          (Some fn_mag_cpu_buf_cpy_host_device)
          (Some fn_mag_cpu_buf_cpy_device_host).

Definition zero_memory : memory := fun _ => Byte.x00.

(** A memory holding sixteen bytes 0x41 and sixteen bytes 0x42 from address
    100 on, zero elsewhere. *)
Definition example_memory : memory :=
  memset (memset zero_memory 100 Byte.x41 16) 116 Byte.x42 16.

(** The memory an operation leaves, when it returns. *)
Definition memory_after {A} (o : outcome memory A) : option memory :=
  match o with
  | Done _ m => Some m
  | _ => None
  end.

(** [selectable], as the scan tests it. *)
Definition selectableb (ctx : mag_ctx_t) (spec : mag_amd64_blas_specialization) : bool :=
  match get_feature_permutation spec with
  | Some (f :: fs) => has_all_features ctx (f :: fs)
  | _ => false
  end.

(** A host for the examples: the AVX-512 entry asks for features 1 and 2,
    the AVX2 entry for 2 and 3, the AVX entry for 3, the SSE4.1 entry for 4;
    the host has 2, 3 and 4. *)
Definition example_ctx : mag_ctx_t := Ctx {[2; 3; 4]} 8.

Definition tag_registry (tag : Z) (r : mag_kernel_registry_t) : mag_kernel_registry_t :=
  Registry (fun _ => tag).

Definition example_init (amd64 : bool) (num_threads : Z) : mag_cpu_device_t * blas_state :=
  mag_cpu_init_device (tag_registry 1)
    (Some [1; 2]) (Some [2; 3]) (Some [3]) (Some [4])
    (tag_registry 512) (tag_registry 256) (tag_registry 128) (tag_registry 41)
    amd64 example_ctx num_threads.

(** The finite value of the scaled logarithm, for an argument of at least 1
    and a scale that is not negative. *)
Definition scaled_log2_value (g : Q) (x : Z) : Z :=
  cdiv (Z.log2_up (x ^ Qnum g)) (Zpos (Qden g)).

(** The example device with a pool of four workers, and the one without a
    pool that a thread count of 1 gives. *)
Definition example_device : mag_cpu_device_t := fst (example_init true 4).
Definition example_device_single : mag_cpu_device_t := fst (example_init true 1).

(** Where the calling thread stands in one call of [mag_cpu_exec_fwd]:
    whether a kickoff is in flight, and how often the caller has counted
    itself in [num_completed] since that kickoff. *)
Inductive caller_at : list action -> bool -> Z -> Prop :=
| at_idle : caller_at [] false 0
| at_inline pl : caller_at [ActInline pl] false 0
| at_call nd k : caller_at (mag_threadpool_parallel_compute nd k) false 0
| at_broadcast : caller_at [ActBroadcast; ActExec 0; ActSignal; ActBarrier] true 0
| at_exec : caller_at [ActExec 0; ActSignal; ActBarrier] true 0
| at_signal : caller_at [ActSignal; ActBarrier] true 0
| at_barrier : caller_at [ActBarrier] true 1.

(** A worker thread that has counted itself for phase [ph] and waits for the
    next one. *)
Definition worker_done (ph : Z) (w : mag_worker_t) : bool :=
  match thread w with
  | AtAwait => w_phase w =? ph
  | _ => false
  end.

(** The number of workers of a list that satisfy a test. *)
Fixpoint tally (f : mag_worker_t -> bool) (ws : list mag_worker_t) : Z :=
  match ws with
  | [] => 0
  | w :: rest => (if f w then 1 else 0) + tally f rest
  end.

(** A worker thread between two calls of the pool. *)
Definition parked (ph : Z) (w : mag_worker_t) : Prop :=
  thread w = AtAwait /\ w_phase w = ph.

(** A worker thread while a kickoff is in flight: still waiting for it, or
    woken by it (which takes a pool phase above the worker's) and on its way
    through execution, counting and back to waiting. *)
Definition in_flight (ph : Z) (w : mag_worker_t) : Prop :=
  (thread w = AtAwait /\ 0 <= w_phase w /\ w_phase w <> ph) \/
  (0 < ph /\ w_phase w = ph /\
   (thread w = AtAwait \/ thread w = AtExec \/ thread w = AtSignal)).

(** The invariant of a device with a pool of [N] workers. *)
Inductive pool_inv (N : Z) (s : system) : Prop :=
| PoolInv (p : mag_threadpool_t) (w0 : mag_worker_t) (rest : list mag_worker_t)
      (flight : bool) (c : Z)
    (Hpool : pool (device s) = Some p)
    (Hworkers : workers p = w0 :: rest)
    (Hinterrupt : interrupt p = false)
    (Hallocated : num_allocated_workers p = N)
    (Hlength : Z.of_nat (length rest) = N - 1)
    (Hsize : N <= UINT32_MAX)
    (Hphase : 0 <= phase p < 2 ^ 64)
    (Hw0 : is_async w0 = false /\ w_phase w0 = 0 /\ thread w0 = NoThread)
    (Hcaller : caller_at (caller s) flight c)
    (Hrest : if flight
             then Forall (in_flight (phase p)) rest /\
                  num_completed p = c + tally (worker_done (phase p)) rest
             else Forall (parked (phase p)) rest).

(** The devices of the examples as systems at rest: the calling thread
    idle, nothing traced yet. *)
Definition example_system (num_threads : Z) : system :=
  Sys (fst (example_init true num_threads)) [] [].

(** A node large enough for two workers, and a run of one kickoff / barrier
    cycle on a pool of two up to the barrier: the caller kicks off and wakes
    the pool, worker 1 wakes, both execute and count themselves. *)
Definition example_node : mag_tensor_t := Tensor 7 1000000.

Definition example_cycle : list label :=
  [ CallFwd example_node;
    StepCaller; StepCaller;          (* kickoff, broadcast *)
    StepWorker 1;                    (* worker 1 leaves mag_worker_await_work *)
    StepCaller;                      (* worker 0's kernel, on the calling thread *)
    StepWorker 1;                    (* worker 1's kernel *)
    StepCaller;                      (* the caller counts itself *)
    StepWorker 1 ].                  (* worker 1 counts itself *)

(** ** The device façade and its initialisation *)

(** The functions the façade's pointers can point to. *)
Inductive device_fn :=
| fn_mag_cpu_exec_fwd
| fn_mag_cpu_exec_bwd
| fn_mag_cpu_alloc_storage
| fn_mag_cpu_free_storage.

(** The device kinds; this file sets only the CPU one. *)
Inductive mag_compute_device_type_t :=
| MAG_COMPUTE_DEVICE_TYPE_CPU.

(** [mag_compute_device_t]; a function pointer is [None] when null. *)
Record mag_compute_device_t := ComputeDevice {
  dev_name : string;
  impl : mag_cpu_device_t;
  dev_is_async : bool;
  dev_type : mag_compute_device_type_t;
  eager_exec_fwd : option device_fn;
  eager_exec_bwd : option device_fn;
  alloc_storage : option device_fn;
  free_storage : option device_fn
}.

(** [mag_device_descriptor_t], as far as this file reads it. *)
Record mag_device_descriptor_t := DeviceDescriptor {
  desc_type : mag_compute_device_type_t;
  thread_count : Z
}.

Section Interface.
  Variable mag_cpu_blas_specialization_fallback : mag_kernel_registry_t -> mag_kernel_registry_t.
  Variables avx512f_features avx2_features avx_features sse41_features
    : option (list mag_x86_64_feature_t).
  Variables inject_avx512f inject_avx2 inject_avx inject_sse41
    : mag_kernel_registry_t -> mag_kernel_registry_t.
  (** What [snprintf] leaves in [dvc->name], from the device kind's name, the
      CPU's name and the thread count. *)
  Variable format_device_name : mag_ctx_t -> Z -> string.

(** [mag_cpu_init_interface]. *)
Definition mag_cpu_init_interface (amd64 : bool) (c : mag_ctx_t) (num_threads : Z)
  : mag_compute_device_t * blas_state :=
  let '(cpu_dvc, st) :=
    mag_cpu_init_device mag_cpu_blas_specialization_fallback
      avx512f_features avx2_features avx_features sse41_features
      inject_avx512f inject_avx2 inject_avx inject_sse41
      amd64 c num_threads in
  (ComputeDevice (format_device_name c num_threads) cpu_dvc false
                 MAG_COMPUTE_DEVICE_TYPE_CPU
                 (Some fn_mag_cpu_exec_fwd) (Some fn_mag_cpu_exec_bwd)
                 (Some fn_mag_cpu_alloc_storage) (Some fn_mag_cpu_free_storage),
   st).

(** [mag_init_device_cpu]: a thread count of 0 in the descriptor stands for
    the number of virtual cores, taken as at least 1. *)
Definition mag_init_device_cpu (amd64 : bool) (c : mag_ctx_t) (desc : mag_device_descriptor_t)
  : mag_compute_device_t * blas_state :=
  let hw_concurrency := mag_xmax 1 (cpu_virtual_cores c) in
  let num_threads := thread_count desc in
  let num_threads := if num_threads =? 0 then hw_concurrency else num_threads in
  mag_cpu_init_interface amd64 c num_threads.

End Interface.

(** The thread count [mag_init_device_cpu] settles on. *)
Definition resolved_threads (c : mag_ctx_t) (desc : mag_device_descriptor_t) : Z :=
  if thread_count desc =? 0 then Z.max 1 (cpu_virtual_cores c) else thread_count desc.

(** A host with every feature the example table asks for. *)
Definition example_ctx_full : mag_ctx_t := Ctx {[1; 2; 3; 4]} 8.

(** The position of an entry in the table: the number of entries before it. *)
Definition rank {A} (pre : list A) : nat := length pre.

(** ** One call of the pool: which kernels run *)

(** The thread that runs worker [i]'s share: the calling thread for worker
    0, the worker's own OS thread otherwise. *)
Definition shard_thread (i : nat) : thread_id :=
  match i with
  | O => Caller
  | S _ => WorkerThread i
  end.

(** The kernel call of share [i] of node [nd] at width [k]. *)
Definition shard_event (reg : mag_kernel_registry_t) (nd : mag_tensor_t) (k : Z)
    (i : nat) : event :=
  EvKernel (shard_thread i) (fwd reg (op nd)) (Payload (Some nd) (Z.of_nat i) k).

(** A worker thread that has not yet come to its kernel in the phase [ph]:
    it still waits for the phase, or is about to execute. *)
Definition before_exec (ph : Z) (w : mag_worker_t) : bool :=
  match thread w with
  | AtExec => true
  | AtAwait => negb (w_phase w =? ph)
  | _ => false
  end.

(** The payload of worker [i] during a call on [nd] at width [k]: the node
    is there until the worker has run its kernel; a worker at or above the
    width runs none and keeps it. *)
Definition shard_payload (nd : mag_tensor_t) (k : Z) (i : nat) (before : bool)
  : mag_compute_payload_t :=
  Payload (if before then Some nd else if Z.of_nat i <? k then None else Some nd)
          (Z.of_nat i) k.

(** Where the calling thread stands between kickoff and the barrier's
    return, and whether worker 0's kernel is still to come. *)
Inductive flight_at : list action -> bool -> Prop :=
| fa_broadcast : flight_at [ActBroadcast; ActExec 0; ActSignal; ActBarrier] true
| fa_exec : flight_at [ActExec 0; ActSignal; ActBarrier] true
| fa_signal : flight_at [ActSignal; ActBarrier] false
| fa_barrier : flight_at [ActBarrier] false.

(** What does not change over the life of a device with a pool. *)
Inductive static_inv (N : Z) (reg : mag_kernel_registry_t) (s : system) : Prop :=
| StaticInv (p : mag_threadpool_t)
    (Spool : pool (device s) = Some p)
    (Sallocated : dvc_num_allocated_workers (device s) = N)
    (Skernels : kernels (device s) = reg)
    (Spool_kernels : pool_kernels p = reg)
    (Sindex : forall i w, workers p !! i = Some w -> thread_idx (payload w) = Z.of_nat i).

(** A call on [nd] at width [k] in flight, started with the trace [base]:
    [ran] lists the workers whose kernel has run, in the order of the
    calls. *)
Inductive flight_inv (reg : mag_kernel_registry_t) (base : list event)
    (nd : mag_tensor_t) (k : Z) (ph : Z) (s : system) : Prop :=
| FlightInv (p : mag_threadpool_t) (w0 : mag_worker_t) (rest : list mag_worker_t)
      (before0 : bool) (ran : list nat)
    (Fpool : pool (device s) = Some p)
    (Fworkers : workers p = w0 :: rest)
    (Factive : num_active_workers p = k)
    (Fphase : phase p = ph)
    (Fcaller : flight_at (caller s) before0)
    (Fw0 : payload w0 = shard_payload nd k 0 before0)
    (Frest : forall j w, rest !! j = Some w ->
               payload w = shard_payload nd k (S j) (before_exec (phase p) w))
    (Ftrace : trace s = base ++ map (shard_event reg nd k) ran)
    (Fnodup : NoDup ran)
    (Fran : forall i, i ∈ ran <->
              exists w, (w0 :: rest) !! i = Some w /\ node (payload w) = None).

(** A step that is not a new call. *)
Definition same_call (l : label) : Prop :=
  match l with
  | CallFwd _ => False
  | _ => True
  end.

(** One call of [mag_cpu_exec_fwd] on [nd], issued in the state [s0], as far
    as it has come in [s]. *)
Inductive call_inv (reg : mag_kernel_registry_t) (s0 : system) (nd : mag_tensor_t)
    (k : Z) (s : system) : Prop :=
| call_inline_pending
    (Hk : k <= 1)
    (Hcaller : caller s = [ActInline (Payload (Some nd) 0 1)])
    (Hdevice : device s = device s0)
    (Htrace : trace s = trace s0)
| call_inline_done
    (Hk : k <= 1)
    (Hcaller : caller s = [])
    (Hdevice : device s = device s0)
    (Htrace : trace s =
              trace s0 ++ [EvKernel Caller (fwd reg (op nd)) (Payload (Some nd) 0 1)])
| call_pending
    (Hk : 1 < k)
    (Hcaller : caller s = mag_threadpool_parallel_compute nd k)
    (Hdevice : device s = device s0)
    (Htrace : trace s = trace s0)
| call_in_flight (p0 : mag_threadpool_t)
    (Hk : 1 < k)
    (Hpool0 : pool (device s0) = Some p0)
    (Hflight : flight_inv reg (trace s0) nd k (wrap64 (phase p0 + 1)) s)
| call_done (p0 p : mag_threadpool_t)
    (Hk : 1 < k)
    (Hcaller : caller s = [])
    (Hpool0 : pool (device s0) = Some p0)
    (Hpool : pool (device s) = Some p)
    (Hphase : phase p = wrap64 (phase p0 + 1))
    (Hactive : num_active_workers p = k)
    (Hcompleted : num_completed p = num_allocated_workers p)
    (Hevents : exists ran,
                 trace s = trace s0 ++ map (shard_event reg nd k) ran /\
                 ran ≡ₚ seq 0 (Z.to_nat k)).

(** ** One call of the pool: that it returns *)

(** The steps the thread of a worker still has to take before it has
    counted itself for the phase [ph]: wake, execute, count. *)
Definition worker_todo (ph : Z) (w : mag_worker_t) : Z :=
  match thread w with
  | AtAwait => if w_phase w =? ph then 0 else 3
  | AtExec => 2
  | AtSignal => 1
  | NoThread | Exited => 0
  end.

Fixpoint pool_todo (ph : Z) (ws : list mag_worker_t) : Z :=
  match ws with
  | [] => 0
  | w :: rest => worker_todo ph w + pool_todo ph rest
  end.

(** The steps left, over all threads, in a call that takes the pool to the
    phase [ph]. *)
Definition steps_left (ph : Z) (s : system) : Z :=
  Z.of_nat (length (caller s)) +
  match pool (device s) with
  | Some p => pool_todo ph (workers p)
  | None => 0
  end.

(** During a call issued at the pool phase [ph0]: the pool's phase is still
    [ph0] while the kickoff is to come, and a worker thread's local phase is
    [ph0] until the thread wakes and the pool's from then on. *)
Definition phases_inv (ph0 : Z) (s : system) : Prop :=
  exists p,
    pool (device s) = Some p /\
    (forall nd k acts, caller s = ActKickoff nd k :: acts -> phase p = ph0) /\
    (forall j w, workers p !! S j = Some w -> w_phase w = ph0 \/ w_phase w = phase p).

(** ** The condition variable *)

(** The device with the threads blocked in [mag_cv_wait] on [pool->cv], by
    worker index: 0 is the calling thread, which waits there in
    [mag_threadpool_barrier]; [i > 0] is the thread of worker [i], which
    waits there in [mag_worker_await_work].  A thread in the set does not
    run until a broadcast, or a spurious wake-up, takes it out; it then
    tests its wait predicate again. *)
Record cv_system := CvSys {
  sys : system;
  asleep : gset nat
}.

(** Modelled from the spec: [mag_cv_wait] and [mag_cv_broadcast] are macros
    of magnetron_internal.h, which is not among the sources; the spec has a
    single mutex/condvar pair, a thread waiting on the condvar under the
    mutex while its predicate is false, and a broadcast waking the waiting
    threads.  [mag_cv_wait] puts thread [i] among the blocked ones, giving up
    the mutex as it does, so that no predicate changes between the test and
    the block; [mag_cv_broadcast] releases all of them. *)
Definition mag_cv_wait (i : nat) (blocked : gset nat) : gset nat := {[i]} ∪ blocked.

Definition mag_cv_broadcast (blocked : gset nat) : gset nat := ∅.

(** [mag_threadpool_barrier], the test of the wait loop: the calling thread
    finds the counter short and goes into [mag_cv_wait]. *)
Definition caller_waits (s : system) : bool :=
  match caller s, pool (device s) with
  | ActBarrier :: _, Some p => negb (barrier_open p)
  | _, _ => false
  end.

(** Whether the step the calling thread is about to take calls
    [mag_cv_broadcast]: the one of [mag_threadpool_parallel_compute] after
    the kickoff, and the one of [mag_worker_exec_and_broadcast], made only
    when the incremented counter equals the allocated count. *)
Definition caller_broadcasts (s : system) : bool :=
  match caller s with
  | ActBroadcast :: _ => true
  | ActSignal :: _ =>
      match pool (device s) with
      | Some p => snd (count_completed p)
      | None => false
      end
  | _ => false
  end.

Definition worker_at (i : nat) (s : system) : option (mag_threadpool_t * mag_worker_t) :=
  p ← pool (device s); w ← workers p !! i; Some (p, w).

(** [mag_worker_await_work], the test of the wait loop: the worker thread
    finds its predicate false and goes into [mag_cv_wait]. *)
Definition worker_waits (i : nat) (s : system) : bool :=
  match worker_at i s with
  | Some (p, w) =>
      match thread w with
      | AtAwait =>
          match mag_worker_await_work w p with
          | None => true
          | Some _ => false
          end
      | _ => false
      end
  | None => false
  end.

(** Whether the step the worker thread is about to take calls
    [mag_cv_broadcast]: the critical section of
    [mag_worker_exec_and_broadcast], when this worker is the last to count
    itself. *)
Definition worker_broadcasts (i : nat) (s : system) : bool :=
  match worker_at i s with
  | Some (p, w) =>
      match thread w with
      | AtSignal => snd (count_completed p)
      | _ => false
      end
  | None => false
  end.

Inductive cv_label :=
| Run (l : label)          (* the thread [l] names takes its next step *)
| Spurious (i : nat).      (* thread [i] returns from mag_cv_wait with no broadcast *)

(** One step of the device with its condition variable.  A thread that is
    blocked has no step.  A thread whose wait predicate is false blocks, and
    nothing else changes.  Any other step is the thread's step of the
    program, and when it broadcasts, every blocked thread is released. *)
Definition cv_step (l : cv_label) (cs : cv_system) : option cv_system :=
  match l with
  | Spurious i =>
      if bool_decide (i ∈ asleep cs)
      then Some (CvSys (sys cs) (asleep cs ∖ {[i]}))
      else None
  | Run (CallFwd nd) =>
      s' ← sys_step (CallFwd nd) (sys cs);
      Some (CvSys s' (asleep cs))
  | Run StepCaller =>
      if bool_decide (0%nat ∈ asleep cs) then None
      else if caller_waits (sys cs)
      then Some (CvSys (sys cs) (mag_cv_wait 0 (asleep cs)))
      else
        s' ← caller_step (sys cs);
        Some (CvSys s' (if caller_broadcasts (sys cs)
                        then mag_cv_broadcast (asleep cs) else asleep cs))
  | Run (StepWorker i) =>
      if bool_decide (i ∈ asleep cs) then None
      else if worker_waits i (sys cs)
      then Some (CvSys (sys cs) (mag_cv_wait i (asleep cs)))
      else
        s' ← worker_step i (sys cs);
        Some (CvSys s' (if worker_broadcasts i (sys cs)
                        then mag_cv_broadcast (asleep cs) else asleep cs))
  end.

Fixpoint cv_run (sched : list cv_label) (cs : cv_system) : option cv_system :=
  match sched with
  | [] => Some cs
  | l :: rest => cs' ← cv_step l cs; cv_run rest cs'
  end.

Definition cv_reachable (cs0 cs : cv_system) : Prop :=
  exists sched, cv_run sched cs0 = Some cs.

(** A device fresh from initialisation: no thread has reached a wait yet. *)
Definition fresh_cv_system (n : Z) (k : mag_kernel_registry_t) (c : mag_ctx_t) : cv_system :=
  CvSys (fresh_system n k c) ∅.

(** A step that is not a new call. *)
Definition cv_same_call (l : cv_label) : Prop :=
  match l with
  | Run l0 => same_call l0
  | Spurious _ => True
  end.

(** What holds of the blocked threads.  The calling thread is blocked only
    at the barrier, with the counter short of the allocated count.  A worker
    thread is blocked only in [mag_worker_await_work], and if the pool's
    phase is already above its own, the broadcast that follows the kickoff
    is still to come. *)
Inductive wait_inv (cs : cv_system) : Prop :=
| WaitInv (p : mag_threadpool_t)
    (Wpool : pool (device (sys cs)) = Some p)
    (Wcaller : 0%nat ∈ asleep cs ->
               caller (sys cs) = [ActBarrier] /\ barrier_open p = false)
    (Wworker : forall i w, i ∈ asleep cs -> i <> 0%nat -> workers p !! i = Some w ->
               thread w = AtAwait /\
               (w_phase w < phase p -> exists acts, caller (sys cs) = ActBroadcast :: acts)).

(** ** Shutting the pool down *)

(** [pool->num_workers_online]: a worker thread adds itself when it starts
    and takes itself off when it has left its loop, and
    [mag_threadpool_create] returns once all have started; so the counter is
    the number of worker threads still in the loop. *)
Definition online (w : mag_worker_t) : bool :=
  match thread w with
  | AtAwait | AtExec | AtSignal => true
  | NoThread | Exited => false
  end.

Definition num_workers_online (p : mag_threadpool_t) : Z := tally online (workers p).

(** [mag_threadpool_destroy], the critical section: raise the interrupt and
    advance the phase. *)
Definition raise_interrupt (p : mag_threadpool_t) : mag_threadpool_t :=
  Pool true (wrap64 (phase p + 1)) (num_completed p) (num_allocated_workers p)
       (num_active_workers p) (workers p) (pool_kernels p).

(** Where the thread that destroys the device stands in
    [mag_cpu_destroy_device]. *)
Inductive destroy_pc :=
| DestroyEnter      (* before the critical section of mag_threadpool_destroy *)
| DestroyBroadcast  (* interrupt raised, mutex released: about to broadcast *)
| DestroyWait       (* in the loop on num_workers_online *)
| DestroyDone.      (* threads joined, pool and device released *)

(** One step of that thread.  [mag_cpu_destroy_device] enters
    [mag_threadpool_destroy] only when the device has a pool.  The broadcast
    releases every blocked thread.  The loop on [num_workers_online] yields
    and looks again while a worker is online, and is left when none is,
    after which every join returns.  The pool is kept as it was when
    released. *)
Definition destroy_step (pc : destroy_pc) (cs : cv_system)
  : option (destroy_pc * cv_system) :=
  match pc with
  | DestroyEnter =>
      match pool (device (sys cs)) with
      | Some p =>
          Some (DestroyBroadcast,
                CvSys (Sys (set_pool (device (sys cs)) (raise_interrupt p))
                           (caller (sys cs)) (trace (sys cs)))
                      (asleep cs))
      | None => Some (DestroyDone, cs)
      end
  | DestroyBroadcast => Some (DestroyWait, CvSys (sys cs) (mag_cv_broadcast (asleep cs)))
  | DestroyWait =>
      p ← pool (device (sys cs));
      Some (if num_workers_online p =? 0 then DestroyDone else DestroyWait, cs)
  | DestroyDone => None
  end.

(** Who moves next during the shutdown. *)
Inductive stop_label :=
| StopCaller                (* the destroying thread *)
| StopWorker (i : nat)      (* the thread of worker [i] *)
| StopSpurious (i : nat).   (* thread [i] returns from mag_cv_wait with no broadcast *)

Definition shutdown_step (l : stop_label) (st : destroy_pc * cv_system)
  : option (destroy_pc * cv_system) :=
  match l with
  | StopCaller => destroy_step (fst st) (snd st)
  | StopWorker i => cs' ← cv_step (Run (StepWorker i)) (snd st); Some (fst st, cs')
  | StopSpurious i => cs' ← cv_step (Spurious i) (snd st); Some (fst st, cs')
  end.

Fixpoint shutdown_run (sched : list stop_label) (st : destroy_pc * cv_system)
  : option (destroy_pc * cv_system) :=
  match sched with
  | [] => Some st
  | l :: rest => st' ← shutdown_step l st; shutdown_run rest st'
  end.

(** The steps of the program left in a shutdown: those of the destroying
    thread and one per worker thread still online. *)
Definition stop_left (st : destroy_pc * cv_system) : Z :=
  match fst st with
  | DestroyEnter => 3
  | DestroyBroadcast => 2
  | DestroyWait => 1
  | DestroyDone => 0
  end +
  match pool (device (sys (snd st))) with
  | Some p => num_workers_online p
  | None => 0
  end.

(** The invariant of a shutdown begun on an idle device with the trace
    [base]. *)
Inductive stop_inv (N : Z) (base : list event) (st : destroy_pc * cv_system) : Prop :=
| StopInv (p : mag_threadpool_t) (w0 : mag_worker_t) (rest : list mag_worker_t)
    (Dpool : pool (device (sys (snd st))) = Some p)
    (Dworkers : workers p = w0 :: rest)
    (Dw0 : thread w0 = NoThread)
    (Dlength : Z.of_nat (length rest) = N - 1)
    (Dtrace : trace (sys (snd st)) = base)
    (Drest : match fst st with
             | DestroyEnter =>
                 interrupt p = false /\ Forall (parked (phase p)) rest
             | DestroyBroadcast =>
                 interrupt p = true /\
                 Forall (fun w => thread w = AtAwait \/ thread w = Exited) rest
             | DestroyWait =>
                 interrupt p = true /\
                 Forall (fun w => thread w = AtAwait \/ thread w = Exited) rest /\
                 asleep (snd st) = ∅
             | DestroyDone =>
                 interrupt p = true /\ Forall (fun w => thread w = Exited) rest
             end).

(** Schedules of the examples: one call on a pool of two in which worker 1
    first finds nothing to do and blocks, is released by the broadcast after
    the kickoff, and the caller blocks at the barrier until worker 1, the
    last to count itself, broadcasts; and the shutdown of that device. *)
Definition example_cv_cycle : list cv_label :=
  [ Run (StepWorker 1);              (* worker 1 blocks: no phase to run *)
    Run (CallFwd example_node);
    Run StepCaller;                  (* kickoff *)
    Run StepCaller;                  (* broadcast: worker 1 released *)
    Run StepCaller;                  (* worker 0's kernel *)
    Run StepCaller;                  (* the caller counts itself *)
    Run StepCaller;                  (* barrier: counter short, the caller blocks *)
    Run (StepWorker 1);              (* worker 1 leaves mag_worker_await_work *)
    Run (StepWorker 1);              (* worker 1's kernel *)
    Run (StepWorker 1) ].            (* worker 1 counts itself and broadcasts *)

Definition example_cv_system : cv_system :=
  CvSys (example_system 2) ∅.

Definition example_cv_used : cv_system :=
  default example_cv_system
          (cv_run (example_cv_cycle ++ [Run StepCaller; Run (StepWorker 1)])
                  example_cv_system).

Definition example_shutdown : list stop_label :=
  [StopCaller; StopCaller; StopWorker 1; StopCaller].

Definition example_stopped : destroy_pc * cv_system :=
  default (DestroyEnter, example_cv_used)
          (shutdown_run example_shutdown (DestroyEnter, example_cv_used)).

(* ===================================================================== *)
(** * Part II. Lemmas                                                      *)
(* ===================================================================== *)

(** ** Machine integers *)

Lemma wrap64_small z : 0 <= z < 2 ^ 64 -> wrap64 z = z.
Proof. intros H. unfold wrap64. apply Z.mod_small. exact H. Qed.

Lemma wrap64_range z : 0 <= wrap64 z < 2 ^ 64.
Proof. unfold wrap64. apply Z.mod_pos_bound. lia. Qed.

(** ** Storage buffers *)

(** Decide the bound an operation asserts, once no address in it wraps. *)
Ltac assert_bound :=
  unfold mag_assert2;
  rewrite !wrap64_small by lia;
  match goal with
  | |- context [?a <=? ?b] => destruct (Z.leb_spec a b)
  end.

Section StorageLemmas.
  Variable sto : mag_storage_buffer_t.
  Hypothesis Hvalid : valid_storage sto.

Lemma set_in_bounds offs x m :
  0 <= offs <= sto_size sto ->
  mag_cpu_buf_set sto offs x m =
    Done tt (memset m (sto_base sto + offs) x (sto_size sto - offs)).
Proof.
  intros Hoffs. destruct Hvalid as (Hb & Hs & Hend).
  unfold mag_cpu_buf_set. assert_bound; [reflexivity | lia].
Qed.

Lemma cpy_host_device_in_bounds offs src n m :
  0 <= offs -> 0 <= n -> offs + n <= sto_size sto ->
  mag_cpu_buf_cpy_host_device sto offs src n m =
    match memcpy m (sto_base sto + offs) src n with
    | Some m' => Done tt m'
    | None => Undefined
    end.
Proof.
  intros Ho Hn Hle. destruct Hvalid as (Hb & Hs & Hend).
  unfold mag_cpu_buf_cpy_host_device. assert_bound; [reflexivity | lia].
Qed.

Lemma cpy_device_host_in_bounds offs dst n m :
  0 <= offs -> 0 <= n -> offs + n <= sto_size sto ->
  mag_cpu_buf_cpy_device_host sto offs dst n m =
    match memcpy m dst (sto_base sto + offs) n with
    | Some m' => Done tt m'
    | None => Undefined
    end.
Proof.
  intros Ho Hn Hle. destruct Hvalid as (Hb & Hs & Hend).
  unfold mag_cpu_buf_cpy_device_host. assert_bound; [reflexivity | lia].
Qed.

End StorageLemmas.

Lemma memset_inside m p x n a : p <= a < p + n -> memset m p x n a = x.
Proof.
  intros H. unfold memset.
  destruct (Z.leb_spec p a), (Z.ltb_spec a (p + n)); simpl; try reflexivity; lia.
Qed.

Lemma memset_outside m p x n a : ~ (p <= a < p + n) -> memset m p x n a = m a.
Proof.
  intros H. unfold memset.
  destruct (Z.leb_spec p a), (Z.ltb_spec a (p + n)); simpl; try reflexivity; lia.
Qed.

Lemma memcpy_disjoint m dst src n :
  ranges_overlap dst src n = false ->
  memcpy m dst src n =
    Some (fun a => if (dst <=? a) && (a <? dst + n) then m (src + (a - dst)) else m a).
Proof. intros H. unfold memcpy. rewrite H. reflexivity. Qed.

Lemma ranges_overlap_false p q n :
  p + n <= q \/ q + n <= p -> ranges_overlap p q n = false.
Proof.
  intros H. unfold ranges_overlap.
  destruct (Z.ltb_spec 0 n), (Z.ltb_spec p (q + n)), (Z.ltb_spec q (p + n));
    simpl; try reflexivity; lia.
Qed.

Lemma memcpy_apart m dst src n :
  dst + n <= src \/ src + n <= dst ->
  memcpy m dst src n =
    Some (fun a => if (dst <=? a) && (a <? dst + n) then m (src + (a - dst)) else m a).
Proof. intros H. apply memcpy_disjoint, ranges_overlap_false, H. Qed.

Lemma load_ext m1 m2 p q n :
  (forall i, 0 <= i < n -> m1 (p + i) = m2 (q + i)) ->
  load m1 p n = load m2 q n.
Proof.
  intros H. unfold load. apply map_ext_in. intros i Hi.
  apply in_seq in Hi. apply H. lia.
Qed.

Lemma example_storage_valid : valid_storage example_storage.
Proof. unfold valid_storage, example_storage; simpl. lia. Defined.

(** C4.  For a buffer of size [size], an offset [k <= size] and a byte [b],
    [set(buf, k, b)] returns, the bytes at indices [k, size) are all [b]
    afterwards, the bytes at indices [0, k) are as before, and so is every
    byte outside the buffer's range [k, size): the fill covers exactly
    [size - k] bytes, whatever the caller had in mind. *)
Theorem buf_set_fills_from_offset (sto : mag_storage_buffer_t) (k : Z) (b : Byte.byte)
    (m : memory) :
  valid_storage sto ->
  0 <= k <= sto_size sto ->
  exists m',
    mag_cpu_buf_set sto k b m = Done tt m' /\
    (forall i, k <= i < sto_size sto -> m' (sto_base sto + i) = b) /\
    (forall i, 0 <= i < k -> m' (sto_base sto + i) = m (sto_base sto + i)) /\
    (forall a, ~ (sto_base sto + k <= a < sto_base sto + sto_size sto) -> m' a = m a).
Proof.
  intros Hv Hk.
  exists (memset m (sto_base sto + k) b (sto_size sto - k)).
  split; [apply set_in_bounds; assumption |].
  split; [| split].
  - intros i Hi. apply memset_inside. lia.
  - intros i Hi. apply memset_outside. lia.
  - intros a Ha. apply memset_outside. lia.
Qed.

Lemma buf_set_fills_from_offset_witness :
  exists m',
    mag_cpu_buf_set example_storage 16 Byte.xab zero_memory = Done tt m' /\
    (forall i, 16 <= i < sto_size example_storage -> m' (sto_base example_storage + i) = Byte.xab) /\
    (forall i, 0 <= i < 16 ->
       m' (sto_base example_storage + i) = zero_memory (sto_base example_storage + i)) /\
    (forall a, ~ (sto_base example_storage + 16 <= a
                  < sto_base example_storage + sto_size example_storage) ->
       m' a = zero_memory a).
Proof.
  apply (buf_set_fills_from_offset example_storage 16 Byte.xab zero_memory).
  - exact example_storage_valid.
  - simpl. lia.
Defined.

Example buf_set_scenario :
  (m ← memory_after (mag_cpu_buf_set example_storage 16 Byte.xab zero_memory);
   Some (load m (sto_base example_storage) 1024)) =
  Some (repeat Byte.x00 16 ++ repeat Byte.xab 1008).
Proof. vm_compute. reflexivity. Qed.

(** C5.  For a buffer, an offset [o] and a length [n] with [o + n <= size],
    and host arrays [src] and [dst] of [n] bytes that lie apart from the
    bytes of the buffer they are copied to and from, [copy_in(buf, o, src, n)]
    followed by [copy_out(buf, o, dst, n)] both return and leave in
    [dst[0..n)] the bytes that [src[0..n)] held. *)
Theorem copy_in_copy_out_roundtrip (sto : mag_storage_buffer_t) (o n src dst : Z)
    (m : memory) :
  valid_storage sto ->
  0 <= o -> 0 <= n -> o + n <= sto_size sto ->
  (sto_base sto + o + n <= src \/ src + n <= sto_base sto + o) ->
  (sto_base sto + o + n <= dst \/ dst + n <= sto_base sto + o) ->
  exists m1 m2,
    mag_cpu_buf_cpy_host_device sto o src n m = Done tt m1 /\
    mag_cpu_buf_cpy_device_host sto o dst n m1 = Done tt m2 /\
    load m2 dst n = load m src n.
Proof.
  intros Hv Ho Hn Hle Hsrc Hdst.
  eexists. eexists.
  split; [| split].
  - rewrite cpy_host_device_in_bounds by assumption.
    rewrite memcpy_apart by lia. reflexivity.
  - rewrite cpy_device_host_in_bounds by assumption.
    rewrite memcpy_apart by lia. reflexivity.
  - apply load_ext. intros i Hi. cbv beta.
    destruct (Z.leb_spec dst (dst + i)), (Z.ltb_spec (dst + i) (dst + n));
      simpl; try lia.
    replace (sto_base sto + o + (dst + i - dst)) with (sto_base sto + o + i) by lia.
    destruct (Z.leb_spec (sto_base sto + o) (sto_base sto + o + i)),
             (Z.ltb_spec (sto_base sto + o + i) (sto_base sto + o + n));
      simpl; try lia.
    f_equal. lia.
Qed.

Lemma copy_in_copy_out_roundtrip_witness :
  exists m1 m2,
    mag_cpu_buf_cpy_host_device example_storage 8 100 32 example_memory = Done tt m1 /\
    mag_cpu_buf_cpy_device_host example_storage 8 200 32 m1 = Done tt m2 /\
    load m2 200 32 = load example_memory 100 32.
Proof.
  apply (copy_in_copy_out_roundtrip example_storage 8 32 100 200 example_memory).
  - exact example_storage_valid.
  - lia.
  - lia.
  - simpl. lia.
  - simpl. lia.
  - simpl. lia.
Defined.

Example copy_roundtrip_bytes :
  (m1 ← memory_after (mag_cpu_buf_cpy_host_device example_storage 8 100 32 example_memory);
   m2 ← memory_after (mag_cpu_buf_cpy_device_host example_storage 8 200 32 m1);
   Some (load m1 (sto_base example_storage + 8) 32, load m2 200 32)) =
  Some (repeat Byte.x41 16 ++ repeat Byte.x42 16,
        repeat Byte.x41 16 ++ repeat Byte.x42 16).
Proof. vm_compute. reflexivity. Qed.

(** Copying within the buffer itself is outside what [memcpy] defines. *)
Example copy_in_overlapping_source :
  mag_cpu_buf_cpy_host_device example_storage 8 (sto_base example_storage + 16) 32
    example_memory = Undefined.
Proof. vm_compute. reflexivity. Qed.

Lemma assert_panic_state {S A} (cond : bool) (text : string) (s : S) (k : outcome S A) msg s' :
  ~ panics k ->
  mag_assert2 cond text s k = Panic msg s' -> s' = s.
Proof.
  unfold mag_assert2. destruct cond; intros Hk H.
  - rewrite H in Hk. simpl in Hk. tauto.
  - congruence.
Qed.

Lemma memcpy_outcome_no_panic (o : option memory) :
  ~ panics (match o with Some m' => Done tt m' | None => @Undefined memory unit end).
Proof. destruct o; simpl; tauto. Qed.

(** What does hold of the three assertions.  With the bound satisfied
    ([offset <= size] for set, [offset + n <= size] for copy-in and
    copy-out) none of the operations reaches the assertion failure; whenever
    one does abort, memory is as it was; and a violated bound does abort as
    long as the address [base + offset (+ n)] does not pass the end of the
    address space. *)
Theorem storage_ops_assert_bounds (sto : mag_storage_buffer_t) (m : memory) :
  valid_storage sto ->
  (forall offs x, 0 <= offs <= sto_size sto ->
     ~ panics (mag_cpu_buf_set sto offs x m)) /\
  (forall offs src n, 0 <= offs -> 0 <= n -> offs + n <= sto_size sto ->
     ~ panics (mag_cpu_buf_cpy_host_device sto offs src n m)) /\
  (forall offs dst n, 0 <= offs -> 0 <= n -> offs + n <= sto_size sto ->
     ~ panics (mag_cpu_buf_cpy_device_host sto offs dst n m)) /\
  (forall offs x msg m',
     mag_cpu_buf_set sto offs x m = Panic msg m' -> m' = m) /\
  (forall offs src n msg m',
     mag_cpu_buf_cpy_host_device sto offs src n m = Panic msg m' -> m' = m) /\
  (forall offs dst n msg m',
     mag_cpu_buf_cpy_device_host sto offs dst n m = Panic msg m' -> m' = m) /\
  (forall offs x, 0 <= offs -> sto_base sto + offs < 2 ^ 64 -> sto_size sto < offs ->
     panics (mag_cpu_buf_set sto offs x m)) /\
  (forall offs src n, 0 <= offs -> 0 <= n -> sto_base sto + offs + n < 2 ^ 64 ->
     sto_size sto < offs + n ->
     panics (mag_cpu_buf_cpy_host_device sto offs src n m)) /\
  (forall offs dst n, 0 <= offs -> 0 <= n -> sto_base sto + offs + n < 2 ^ 64 ->
     sto_size sto < offs + n ->
     panics (mag_cpu_buf_cpy_device_host sto offs dst n m)).
Proof.
  intros Hv. pose proof Hv as (Hb & Hs & Hend).
  repeat split.
  - intros offs x Ho. rewrite set_in_bounds by assumption. simpl. tauto.
  - intros offs src n Ho Hn Hle. rewrite cpy_host_device_in_bounds by assumption.
    apply memcpy_outcome_no_panic.
  - intros offs dst n Ho Hn Hle. rewrite cpy_device_host_in_bounds by assumption.
    apply memcpy_outcome_no_panic.
  - intros offs x msg m'. unfold mag_cpu_buf_set.
    apply assert_panic_state. simpl. tauto.
  - intros offs src n msg m'. unfold mag_cpu_buf_cpy_host_device.
    apply assert_panic_state, memcpy_outcome_no_panic.
  - intros offs dst n msg m'. unfold mag_cpu_buf_cpy_device_host.
    apply assert_panic_state, memcpy_outcome_no_panic.
  - intros offs x Ho Hnw Hgt. unfold mag_cpu_buf_set.
    assert_bound; [lia | exact I].
  - intros offs src n Ho Hn Hnw Hgt. unfold mag_cpu_buf_cpy_host_device.
    assert_bound; [lia | exact I].
  - intros offs dst n Ho Hn Hnw Hgt. unfold mag_cpu_buf_cpy_device_host.
    assert_bound; [lia | exact I].
Qed.

Lemma storage_ops_assert_bounds_witness :
  ~ panics (mag_cpu_buf_set example_storage 1024 Byte.xff zero_memory) /\
  ~ panics (mag_cpu_buf_cpy_host_device example_storage 1000 100 24 zero_memory) /\
  ~ panics (mag_cpu_buf_cpy_device_host example_storage 1000 100 24 zero_memory) /\
  panics (mag_cpu_buf_set example_storage 1025 Byte.xff zero_memory) /\
  panics (mag_cpu_buf_cpy_host_device example_storage 1000 100 25 zero_memory) /\
  panics (mag_cpu_buf_cpy_device_host example_storage 1000 100 25 zero_memory).
Proof.
  destruct (storage_ops_assert_bounds example_storage zero_memory example_storage_valid)
    as (Hset & Hin & Hout & _ & _ & _ & Pset & Pin & Pout).
  split; [apply Hset; simpl; lia |].
  split; [apply Hin; simpl; lia |].
  split; [apply Hout; simpl; lia |].
  split; [apply Pset; simpl; lia |].
  split; [apply Pin; simpl; lia |].
  apply Pout; simpl; lia.
Defined.

(** The comparison of [mag_cpu_buf_set] is between wrapped addresses: an
    offset of [2^64 - 1] passes it on any block that does not start at
    address 0, and the fill then starts one byte below the block. *)
Lemma buf_set_wrapped_offset :
  exists m',
    mag_cpu_buf_set example_storage (2 ^ 64 - 1) Byte.xff zero_memory = Done tt m' /\
    m' (sto_base example_storage - 1) = Byte.xff.
Proof. eexists. split; reflexivity. Qed.

(** C6.  The assertions do not check the bounds they are meant to: each
    compares the wrapped addresses [base + offset (+ n)] and [base + size],
    not the offset with the size.  On the block of 1024 bytes at address
    4096 the offset [2^64 - 16], far above the size, passes all three: the
    fill writes the 16 bytes below the block, a copy-in of 8 bytes writes
    below the block, and a copy-out of 8 bytes reads from below it; none
    aborts. *)
Theorem storage_assertions_miss_wrapped_offsets :
  sto_size example_storage < 2 ^ 64 - 16 /\
  (exists m',
     mag_cpu_buf_set example_storage (2 ^ 64 - 16) Byte.xff zero_memory = Done tt m' /\
     load m' (sto_base example_storage - 16) 16 = repeat Byte.xff 16) /\
  (exists m',
     mag_cpu_buf_cpy_host_device example_storage (2 ^ 64 - 16) 100 8 example_memory
       = Done tt m' /\
     load m' (sto_base example_storage - 16) 8 = repeat Byte.x41 8) /\
  (exists m',
     mag_cpu_buf_cpy_device_host example_storage (2 ^ 64 - 16) 200 8
       (memset zero_memory (sto_base example_storage - 16) Byte.x5a 8) = Done tt m' /\
     load m' 200 8 = repeat Byte.x5a 8).
Proof.
  split; [vm_compute; reflexivity |].
  repeat split; eexists; (split; [reflexivity | vm_compute; reflexivity]).
Qed.

(** C10.  [alloc_storage] needs a size that is not zero: for size 0 it
    aborts on its assertion, and for every size above 0 it returns a
    descriptor whose size is the size asked for, whose alignment is 16, and
    whose three vtable entries (set, copy-in, copy-out) are not null. *)
Theorem alloc_storage_descriptor (mag_alloc_aligned : Z -> Z -> Z) (host size : Z)
    (m : memory) :
  (size = 0 -> mag_cpu_alloc_storage mag_alloc_aligned host size m = Panic "size" m) /\
  (0 < size ->
   exists sto,
     mag_cpu_alloc_storage mag_alloc_aligned host size m = Done sto m /\
     sto_size sto = size /\
     sto_alignment sto = 16 /\
     sto_base sto = mag_alloc_aligned size 16 /\
     sto_set sto = Some fn_mag_cpu_buf_set /\
     sto_cpy_host_device sto = Some fn_mag_cpu_buf_cpy_host_device /\
     sto_cpy_device_host sto = Some fn_mag_cpu_buf_cpy_device_host).
Proof.
  split.
  - intros ->. reflexivity.
  - intros Hpos. unfold mag_cpu_alloc_storage, mag_assert2.
    destruct (Z.eqb_spec size 0) as [-> | Hne]; [lia |].
    simpl. eexists. repeat split.
Qed.

Lemma alloc_storage_descriptor_witness :
  (1024 = 0 ->
   mag_cpu_alloc_storage (fun _ _ => 4096) 0 1024 zero_memory = Panic "size" zero_memory) /\
  (0 < 1024 ->
   exists sto,
     mag_cpu_alloc_storage (fun _ _ => 4096) 0 1024 zero_memory = Done sto zero_memory /\
     sto_size sto = 1024 /\
     sto_alignment sto = 16 /\
     sto_base sto = 4096 /\
     sto_set sto = Some fn_mag_cpu_buf_set /\
     sto_cpy_host_device sto = Some fn_mag_cpu_buf_cpy_host_device /\
     sto_cpy_device_host sto = Some fn_mag_cpu_buf_cpy_device_host).
Proof.
  exact (alloc_storage_descriptor (fun _ _ => 4096) 0 1024 zero_memory).
Defined.

(** ** The specialization selector *)

Lemma has_all_features_fold ctx features acc :
  fold_left (fun acc f => acc && mag_ctx_x86_64_cpu_has_feature ctx f) features acc =
  acc && forallb (mag_ctx_x86_64_cpu_has_feature ctx) features.
Proof.
  revert acc. induction features as [| f fs IH]; intros acc; simpl.
  - now rewrite andb_true_r.
  - rewrite IH. now rewrite andb_assoc.
Qed.

Lemma has_all_features_true ctx features :
  has_all_features ctx features = true <->
  forall f, f ∈ features -> f ∈ cpu_features ctx.
Proof.
  unfold has_all_features. rewrite has_all_features_fold. simpl.
  rewrite forallb_forall. unfold mag_ctx_x86_64_cpu_has_feature.
  split.
  - intros H f Hf. apply list_elem_of_In in Hf. apply H in Hf.
    now apply bool_decide_eq_true in Hf.
  - intros H f Hf. apply bool_decide_eq_true, H, list_elem_of_In, Hf.
Qed.

Lemma selectable_reflect ctx spec :
  selectable ctx spec <-> selectableb ctx spec = true.
Proof.
  unfold selectable, selectableb. split.
  - intros (features & -> & Hne & Hall).
    destruct features as [| f fs]; [congruence |].
    apply has_all_features_true, Hall.
  - destruct (get_feature_permutation spec) as [[| f fs] |]; try discriminate.
    intros H. exists (f :: fs). split; [reflexivity |]. split; [discriminate |].
    apply has_all_features_true, H.
Qed.

Section SelectorLemmas.
  Variable fallback : mag_kernel_registry_t -> mag_kernel_registry_t.
  Variable ctx : mag_ctx_t.

Lemma detect_scan_skip spec rest st :
  ~ selectable ctx spec ->
  detect_scan fallback ctx (spec :: rest) st = detect_scan fallback ctx rest st.
Proof.
  rewrite selectable_reflect. unfold selectableb. intros H. simpl.
  destruct (get_feature_permutation spec) as [[| f fs] |]; try reflexivity.
  destruct (has_all_features ctx (f :: fs)); [tauto | reflexivity].
Qed.

Lemma detect_scan_hit spec rest st :
  selectable ctx spec ->
  detect_scan fallback ctx (spec :: rest) st =
    (true,
     mag_log_info ("Using BLAS specialization: " ++ spec_name spec)
       (call_installer (Specialized (spec_name spec)) (inject_kernels spec) st)).
Proof.
  rewrite selectable_reflect. unfold selectableb. intros H. simpl.
  destruct (get_feature_permutation spec) as [[| f fs] |]; try discriminate.
  now rewrite H.
Qed.

Lemma detect_scan_first pre spec post st :
  Forall (fun s => ~ selectable ctx s) pre ->
  selectable ctx spec ->
  detect_scan fallback ctx (pre ++ spec :: post) st =
    (true,
     mag_log_info ("Using BLAS specialization: " ++ spec_name spec)
       (call_installer (Specialized (spec_name spec)) (inject_kernels spec) st)).
Proof.
  intros Hpre Hsel. induction Hpre as [| s pre Hs _ IH]; simpl app.
  - apply detect_scan_hit, Hsel.
  - rewrite detect_scan_skip by exact Hs. exact IH.
Qed.



End SelectorLemmas.

Example example_init_selects_avx2 :
  bs_installed (snd (example_init true 4)) = [Specialized "amd64_avx2"] /\
  bs_log (snd (example_init true 4)) = ["Using BLAS specialization: amd64_avx2"%string] /\
  fwd (kernels (fst (example_init true 4))) 0 = 256.
Proof. vm_compute. repeat split. Qed.

Section SelectorClaim.
  Variable fallback : mag_kernel_registry_t -> mag_kernel_registry_t.
  Variables avx512f_features avx2_features avx_features sse41_features
    : option (list mag_x86_64_feature_t).
  Variables inject_avx512f inject_avx2 inject_avx inject_sse41
    : mag_kernel_registry_t -> mag_kernel_registry_t.

  Local Abbreviation table :=
    (mag_amd64_blas_specializations
       avx512f_features avx2_features avx_features sse41_features
       inject_avx512f inject_avx2 inject_avx inject_sse41).
  Local Abbreviation detect :=
    (mag_blas_detect_optimal_specialization fallback
       avx512f_features avx2_features avx_features sse41_features
       inject_avx512f inject_avx2 inject_avx inject_sse41).
  Local Abbreviation init :=
    (mag_cpu_init_device fallback
       avx512f_features avx2_features avx_features sse41_features
       inject_avx512f inject_avx2 inject_avx inject_sse41).




End SelectorClaim.


(** ** The work-scaling heuristic *)

Lemma cdiv_le_mono a b q : 0 < q -> a <= b -> cdiv a q <= cdiv b q.
Proof.
  intros Hq Hab. unfold cdiv.
  assert ((- b) / q <= (- a) / q) by (apply Z.div_le_mono; lia). lia.
Qed.

Lemma cdiv_nonneg a q : 0 < q -> 0 <= a -> 0 <= cdiv a q.
Proof.
  intros Hq Ha. unfold cdiv.
  assert ((- a) / q <= 0 / q) by (apply Z.div_le_mono; lia).
  rewrite Z.div_0_l in H by lia. lia.
Qed.

Lemma mag_xmax_spec x y : mag_xmax x y = Z.max x y.
Proof. unfold mag_xmax. destruct (Z.ltb_spec y x); lia. Qed.

Lemma mag_xmin_spec x y : mag_xmin x y = Z.min x y.
Proof. unfold mag_xmin. destruct (Z.ltb_spec x y); lia. Qed.

Lemma ceil_scaled_log2_finite g x :
  1 <= x -> 0 <= Qnum g -> ceil_scaled_log2 g x = FpInt (scaled_log2_value g x).
Proof.
  intros Hx Hg. unfold ceil_scaled_log2.
  destruct (Z.ltb_spec x 0); [lia |].
  destruct (Z.eqb_spec x 0); [lia |].
  destruct (Z.leb_spec 0 (Qnum g)); [reflexivity | lia].
Qed.

Lemma ceil_scaled_log2_zero g x :
  x = 0 -> double_to_uint32 (ceil_scaled_log2 g x) = None.
Proof.
  intros ->. unfold ceil_scaled_log2. simpl.
  destruct (Qnum g ?= 0); reflexivity.
Qed.

Lemma scaled_log2_value_nonneg g x :
  1 <= x -> 0 <= Qnum g -> 0 <= scaled_log2_value g x.
Proof.
  intros Hx Hg. unfold scaled_log2_value.
  apply cdiv_nonneg; [lia | apply Z.log2_up_nonneg].
Qed.

Lemma scaled_log2_value_mono g x y :
  1 <= x <= y -> 0 <= Qnum g -> scaled_log2_value g x <= scaled_log2_value g y.
Proof.
  intros Hxy Hg. unfold scaled_log2_value.
  apply cdiv_le_mono; [lia |].
  apply Z.log2_up_le_mono. apply Z.pow_le_mono_l. lia.
Qed.

Lemma work_scaling_below_threshold dvc n :
  n < numel_threshold dvc -> mag_cpu_dynamic_work_scaling dvc n = Some 1.
Proof.
  intros Hn. unfold mag_cpu_dynamic_work_scaling.
  destruct (Z.ltb_spec n (numel_threshold dvc)); [| lia].
  now rewrite orb_true_r.
Qed.

Lemma work_scaling_no_pool dvc n :
  no_pool dvc = true -> mag_cpu_dynamic_work_scaling dvc n = Some 1.
Proof. intros Hp. unfold mag_cpu_dynamic_work_scaling. now rewrite Hp. Qed.

Lemma work_scaling_at_threshold dvc :
  no_pool dvc = false ->
  mag_cpu_dynamic_work_scaling dvc (numel_threshold dvc) = None.
Proof.
  intros Hp. unfold mag_cpu_dynamic_work_scaling. rewrite Hp. simpl orb.
  rewrite Z.ltb_irrefl, Z.sub_diag. simpl.
  now rewrite ceil_scaled_log2_zero.
Qed.

Example work_scaling_values :
  mag_cpu_dynamic_work_scaling example_device 10 = Some 1 /\
  mag_cpu_dynamic_work_scaling example_device 249999 = Some 1 /\
  mag_cpu_dynamic_work_scaling example_device 250001 = Some 1 /\
  mag_cpu_dynamic_work_scaling example_device 250010 = Some 1 /\
  mag_cpu_dynamic_work_scaling example_device 250011 = Some 2 /\
  mag_cpu_dynamic_work_scaling example_device 1000000 = Some 4 /\
  mag_cpu_dynamic_work_scaling example_device INT64_MAX = Some 4 /\
  mag_cpu_dynamic_work_scaling example_device_single 1000000 = Some 1.
Proof. vm_compute. repeat split. Qed.

(** C2.  On the device with a pool of four workers and the default
    threshold, the heuristic called with [numel = 250000 = threshold] passes
    the test [numel < threshold], takes [log2] of 0 and converts minus
    infinity to [uint32_t]: there is no guard, and the C code has no defined
    result there, while one element below and one above it returns 1. *)
Theorem work_scaling_at_default_threshold :
  numel_threshold example_device = 250000 /\
  ceil_scaled_log2 (growth_scale example_device) (250000 - 250000) = FpNegInf /\
  mag_cpu_dynamic_work_scaling example_device 250000 = None /\
  mag_cpu_dynamic_work_scaling example_device 249999 = Some 1 /\
  mag_cpu_dynamic_work_scaling example_device 250001 = Some 1.
Proof. vm_compute. repeat split. Qed.

(** C3.  The heuristic is not defined for every [numel]: on any device with a
    pool it has no defined result at [numel = threshold], so neither the
    range [1, N] nor monotonicity from the threshold on holds there; and on
    the device without a pool the allocated worker count is 0, below the 1
    that is returned. *)
Theorem work_scaling_not_total :
  (forall dvc, no_pool dvc = false ->
     mag_cpu_dynamic_work_scaling dvc (numel_threshold dvc) = None) /\
  mag_cpu_dynamic_work_scaling example_device (numel_threshold example_device) = None /\
  no_pool example_device_single = true /\
  dvc_num_allocated_workers example_device_single = 0 /\
  mag_cpu_dynamic_work_scaling example_device_single 1000000 = Some 1.
Proof.
  split; [exact work_scaling_at_threshold |].
  vm_compute. repeat split.
Qed.

(** What does hold of the heuristic, whatever the platform's floating-point
    expression evaluates to.  Without a pool, or below the threshold, it
    returns 1.  On a device with [N >= 1] allocated workers every defined
    result lies in [1, N].  And the integer code around the expression keeps
    its order: if the expression is monotonic non-decreasing in its argument
    wherever it is finite, then so is the result in [numel], over all
    [numel] with a defined result, across the threshold as well. *)
Theorem work_scaling_range_and_monotone (fp : Q -> Z -> fp_integral)
    (dvc : mag_cpu_device_t) :
  (no_pool dvc = true -> forall n, mag_cpu_dynamic_work_scaling_on fp dvc n = Some 1) /\
  (forall n, n < numel_threshold dvc ->
     mag_cpu_dynamic_work_scaling_on fp dvc n = Some 1) /\
  (1 <= dvc_num_allocated_workers dvc ->
   (forall n w, mag_cpu_dynamic_work_scaling_on fp dvc n = Some w ->
      1 <= w <= dvc_num_allocated_workers dvc) /\
   ((forall x y a b, 0 <= x <= y ->
       fp (growth_scale dvc) x = FpInt a -> fp (growth_scale dvc) y = FpInt b -> a <= b) ->
    forall n1 n2 w1 w2, n1 <= n2 ->
      mag_cpu_dynamic_work_scaling_on fp dvc n1 = Some w1 ->
      mag_cpu_dynamic_work_scaling_on fp dvc n2 = Some w2 ->
      w1 <= w2)).
Proof.
  assert (Hshape : forall n w, mag_cpu_dynamic_work_scaling_on fp dvc n = Some w ->
            (w = 1 /\ (no_pool dvc = true \/ n < numel_threshold dvc)) \/
            (numel_threshold dvc <= n /\
             exists a, fp (growth_scale dvc) (n - numel_threshold dvc) = FpInt a /\
                       w = Z.min (dvc_num_allocated_workers dvc) (Z.max 1 a))).
  { intros n w. unfold mag_cpu_dynamic_work_scaling_on.
    destruct (no_pool dvc); simpl orb; cbv iota; [intros [= <-]; auto |].
    destruct (Z.ltb_spec n (numel_threshold dvc)) as [Hlt | Hge]; [intros [= <-]; auto |].
    destruct ((INT64_MIN <=? n - numel_threshold dvc) &&
              (n - numel_threshold dvc <=? INT64_MAX)); [| discriminate].
    destruct (fp (growth_scale dvc) (n - numel_threshold dvc)) as [| | | a];
      simpl; try discriminate.
    destruct ((0 <=? a) && (a <=? UINT32_MAX)); [| discriminate].
    intros [= <-]. right. split; [exact Hge |]. exists a.
    now rewrite mag_xmin_spec, mag_xmax_spec. }
  split; [| split].
  - intros Hp n. unfold mag_cpu_dynamic_work_scaling_on. now rewrite Hp.
  - intros n Hn. unfold mag_cpu_dynamic_work_scaling_on.
    destruct (Z.ltb_spec n (numel_threshold dvc)); [| lia].
    now rewrite orb_true_r.
  - intros HN. split.
    + intros n w Hw. destruct (Hshape n w Hw) as [[-> _] | (_ & a & _ & ->)]; lia.
    + intros Hmono n1 n2 w1 w2 H12 E1 E2.
      assert (H1 : 1 <= w2).
      { destruct (Hshape n2 w2 E2) as [[-> _] | (_ & a & _ & ->)]; lia. }
      destruct (Hshape n1 w1 E1) as [[-> _] | (Hge1 & a1 & Ha1 & ->)]; [exact H1 |].
      destruct (Hshape n2 w2 E2) as [[-> [Hp | Hlt]] | (Hge2 & a2 & Ha2 & ->)].
      * unfold mag_cpu_dynamic_work_scaling_on in E1. rewrite Hp in E1.
        injection E1 as E1. lia.
      * lia.
      * pose proof (Hmono (n1 - numel_threshold dvc) (n2 - numel_threshold dvc) a1 a2
                      ltac:(lia) Ha1 Ha2).
        lia.
Qed.

(** The exact-arithmetic expression is one such platform. *)
Lemma work_scaling_on_exact dvc n :
  mag_cpu_dynamic_work_scaling_on ceil_scaled_log2 dvc n = mag_cpu_dynamic_work_scaling dvc n.
Proof. reflexivity. Qed.

Lemma ceil_scaled_log2_mono g x y a b :
  0 <= Qnum g -> 0 <= x <= y ->
  ceil_scaled_log2 g x = FpInt a -> ceil_scaled_log2 g y = FpInt b -> a <= b.
Proof.
  intros Hg Hxy Ha Hb.
  destruct (Z.eq_dec x 0) as [-> | Hx].
  - unfold ceil_scaled_log2 in Ha. simpl in Ha.
    destruct (Qnum g ?= 0); discriminate.
  - rewrite ceil_scaled_log2_finite in Ha, Hb by lia.
    injection Ha as <-. injection Hb as <-.
    apply scaled_log2_value_mono; lia.
Qed.

Lemma work_scaling_range_and_monotone_witness :
  (forall n w, mag_cpu_dynamic_work_scaling_on ceil_scaled_log2 example_device n = Some w ->
     1 <= w <= dvc_num_allocated_workers example_device) /\
  (forall n1 n2 w1 w2, n1 <= n2 ->
     mag_cpu_dynamic_work_scaling_on ceil_scaled_log2 example_device n1 = Some w1 ->
     mag_cpu_dynamic_work_scaling_on ceil_scaled_log2 example_device n2 = Some w2 ->
     w1 <= w2).
Proof.
  destruct (work_scaling_range_and_monotone ceil_scaled_log2 example_device)
    as (_ & _ & H).
  destruct H as [Hrange Hmono]; [vm_compute; discriminate |].
  split; [exact Hrange |].
  apply Hmono. intros x y a b Hxy.
  apply ceil_scaled_log2_mono; [vm_compute; discriminate | exact Hxy].
Defined.

(** ** The worker pool: invariants of the kickoff / barrier protocol *)

Create HintDb pool.
#[local] Hint Constructors caller_at : pool.

Lemma tally_bounds f ws : 0 <= tally f ws <= Z.of_nat (length ws).
Proof.
  induction ws as [| w ws IH]; simpl length; simpl tally; [lia |].
  destruct (f w); lia.
Qed.

Lemma tally_none f ws : Forall (fun w => f w = false) ws -> tally f ws = 0.
Proof.
  induction 1 as [| w ws Hw _ IH]; simpl; [reflexivity |].
  rewrite Hw, IH. reflexivity.
Qed.

Lemma tally_full f ws :
  tally f ws = Z.of_nat (length ws) -> Forall (fun w => f w = true) ws.
Proof.
  induction ws as [| w ws IH]; simpl length; simpl tally; intros H.
  - constructor.
  - pose proof (tally_bounds f ws).
    destruct (f w) eqn:E; [| lia].
    constructor; [exact E | apply IH; lia].
Qed.

Lemma tally_insert f ws i w w' :
  ws !! i = Some w ->
  tally f (<[i := w']> ws) =
    tally f ws - (if f w then 1 else 0) + (if f w' then 1 else 0).
Proof.
  revert i. induction ws as [| x ws IH]; intros i Hi.
  - discriminate.
  - destruct i as [| i]; simpl in *.
    + injection Hi as ->. lia.
    + rewrite (IH i Hi). lia.
Qed.

Lemma worker_done_parked ph w : worker_done ph w = true <-> parked ph w.
Proof.
  unfold worker_done, parked. split.
  - destruct (thread w); try discriminate. intros H. apply Z.eqb_eq in H. tauto.
  - intros [-> ->]. apply Z.eqb_refl.
Qed.

Lemma parked_not_done ph ph' w : parked ph w -> ph' <> ph -> worker_done ph' w = false.
Proof.
  intros [Ht Hp] Hne. unfold worker_done. rewrite Ht, Hp.
  apply Z.eqb_neq. congruence.
Qed.

Lemma wrap64_succ_differs ph : 0 <= ph < 2 ^ 64 -> wrap64 (ph + 1) <> ph.
Proof.
  intros H. unfold wrap64.
  destruct (Z.eq_dec ph (2 ^ 64 - 1)) as [-> | Hne].
  - vm_compute. discriminate.
  - rewrite Z.mod_small by lia. lia.
Qed.

Lemma new_worker_parked N i : i <> 0%nat -> parked 0 (new_worker N i).
Proof.
  intros Hi. unfold parked, new_worker. simpl.
  destruct (Nat.eqb_spec i 0); [contradiction | split; reflexivity].
Qed.

Lemma fresh_system_inv N k c :
  1 <= N <= UINT32_MAX -> pool_inv N (fresh_system N k c).
Proof.
  intros HN. unfold fresh_system, mag_threadpool_create.
  replace (Z.to_nat N) with (S (Z.to_nat (N - 1))) by lia.
  simpl seq. simpl map.
  eapply PoolInv with (flight := false) (c := 0); simpl; try reflexivity.
  - rewrite length_map, length_seq. lia.
  - lia.
  - cbn. lia.
  - repeat split.
  - constructor.
  - cbn. apply Forall_forall. intros w Hw.
    apply list_elem_of_In, in_map_iff in Hw. destruct Hw as (i & <- & Hi).
    apply in_seq in Hi. apply new_worker_parked. lia.
Qed.

Lemma exec_fwd_caller_at dvc nd acts :
  mag_cpu_exec_fwd dvc nd = Some acts -> caller_at acts false 0.
Proof.
  unfold mag_cpu_exec_fwd.
  destruct (mag_cpu_dynamic_work_scaling dvc (numel nd)) as [k |]; [| discriminate].
  destruct (no_pool dvc || (k <=? 1)); intros [= <-]; constructor.
Qed.

Lemma call_preserves_inv N nd s s' :
  pool_inv N s -> sys_step (CallFwd nd) s = Some s' -> pool_inv N s'.
Proof.
  intros [p w0 rest flight c Hpool Hws Hint Hall Hlen Hsz Hph Hw0 Hc Hrest] Hstep.
  simpl in Hstep. destruct (caller s) eqn:Ecaller; [| discriminate].
  inversion Hc; subst.
  destruct (mag_cpu_exec_fwd (device s) nd) as [acts |] eqn:E; [| discriminate].
  injection Hstep as <-.
  eapply PoolInv with (flight := false) (c := 0); simpl; eauto.
  eapply exec_fwd_caller_at, E.
Qed.

Lemma kickoff_opens_flight p nd k rest :
  0 <= phase p < 2 ^ 64 ->
  Forall (parked (phase p)) rest ->
  Forall (in_flight (wrap64 (phase p + 1))) (map (kickoff_payload nd k) rest) /\
  tally (worker_done (wrap64 (phase p + 1))) (map (kickoff_payload nd k) rest) = 0.
Proof.
  intros Hph Hparked. pose proof (wrap64_succ_differs (phase p) Hph) as Hne.
  split.
  - apply Forall_forall. intros w Hw.
    apply list_elem_of_In, in_map_iff in Hw. destruct Hw as (w1 & <- & Hin).
    rewrite Forall_forall in Hparked.
    destruct (Hparked w1 (proj2 (list_elem_of_In _ _) Hin)) as [Ht Hp].
    left. simpl. split; [exact Ht |]. split; [lia | congruence].
  - apply tally_none, Forall_forall. intros w Hw.
    apply list_elem_of_In, in_map_iff in Hw. destruct Hw as (w1 & <- & Hin).
    rewrite Forall_forall in Hparked.
    apply (parked_not_done (phase p)); [| exact Hne].
    exact (Hparked w1 (proj2 (list_elem_of_In _ _) Hin)).
Qed.

Lemma all_done_parked ph rest :
  tally (worker_done ph) rest = Z.of_nat (length rest) -> Forall (parked ph) rest.
Proof.
  intros H. apply tally_full in H.
  eapply Forall_impl; [exact H |]. intros w Hw. apply worker_done_parked, Hw.
Qed.

Lemma caller_preserves_inv N s s' :
  pool_inv N s -> sys_step StepCaller s = Some s' -> pool_inv N s'.
Proof.
  intros [p w0 rest flight c Hpool Hws Hint Hall Hlen Hsz Hph Hw0 Hc Hrest] Hstep.
  simpl in Hstep. unfold caller_step in Hstep.
  inversion Hc; subst flight c;
    match goal with H : _ = caller s |- _ => rewrite <- H in Hstep end.
  - (* idle: no step *)
    discriminate.
  - (* the inline kernel *)
    simpl in Hstep.
    destruct (mag_worker_exec_thread_local Caller (kernels (device s)) pl) as [pl' evs].
    injection Hstep as <-.
    eapply PoolInv with (flight := false) (c := 0); simpl; eauto with pool.
  - (* kickoff *)
    simpl in Hstep. rewrite Hpool in Hstep. simpl in Hstep. injection Hstep as <-.
    destruct (kickoff_opens_flight p nd k rest Hph Hrest) as [Hfl Htally].
    eapply PoolInv with (flight := true) (c := 0)
                        (w0 := kickoff_payload nd k w0)
                        (rest := map (kickoff_payload nd k) rest);
      simpl; eauto with pool.
    + unfold mag_threadpool_kickoff. simpl. rewrite Hws. reflexivity.
    + rewrite length_map. exact Hlen.
    + apply wrap64_range.
  - (* broadcast *)
    simpl in Hstep. injection Hstep as <-.
    eapply PoolInv with (flight := true) (c := 0); simpl; eauto with pool.
  - (* worker 0's kernel *)
    simpl in Hstep. rewrite Hpool in Hstep. simpl in Hstep.
    rewrite Hws in Hstep. simpl in Hstep.
    destruct (exec_if_active Caller p (payload w0)) as [pl evs].
    injection Hstep as <-.
    eapply PoolInv with (flight := true) (c := 0)
                        (w0 := set_payload w0 pl) (rest := rest);
      simpl; eauto with pool.
  - (* the caller counts itself *)
    simpl in Hstep. rewrite Hpool in Hstep. simpl in Hstep. injection Hstep as <-.
    destruct Hrest as [Hfl Hcount].
    pose proof (tally_bounds (worker_done (phase p)) rest) as Hb.
    eapply PoolInv with (flight := true) (c := 1) (w0 := w0) (rest := rest);
      simpl; eauto with pool.
    split; [exact Hfl |].
    cbn. rewrite wrap64_small; unfold UINT32_MAX in *; lia.
  - (* the barrier opens *)
    simpl in Hstep. rewrite Hpool in Hstep. simpl in Hstep.
    destruct (barrier_open p) eqn:Hopen; [| discriminate].
    injection Hstep as <-.
    destruct Hrest as [Hfl Hcount].
    unfold barrier_open in Hopen. apply Z.eqb_eq in Hopen.
    eapply PoolInv with (flight := false) (c := 0) (w0 := w0) (rest := rest);
      simpl; eauto with pool.
    apply all_done_parked. lia.
Qed.

Lemma caller_at_count acts flight c : caller_at acts flight c -> 0 <= c <= 1.
Proof. destruct 1; lia. Qed.

Lemma worker_preserves_inv N i s s' :
  pool_inv N s -> sys_step (StepWorker i) s = Some s' -> pool_inv N s'.
Proof.
  intros [p w0 rest flight c Hpool Hws Hint Hall Hlen Hsz Hph Hw0 Hc Hrest] Hstep.
  simpl in Hstep. unfold worker_step in Hstep.
  rewrite Hpool in Hstep. simpl in Hstep. rewrite Hws in Hstep.
  destruct i as [| j]; simpl in Hstep.
  { destruct Hw0 as (_ & _ & Ht). rewrite Ht in Hstep. discriminate. }
  destruct (rest !! j) as [w |] eqn:Hj; simpl in Hstep; [| discriminate].
  destruct flight.
  - (* a kickoff is in flight *)
    destruct Hrest as [Hfl Hcount].
    pose proof (Forall_lookup_1 _ _ _ _ Hfl Hj) as Hw.
    pose proof (tally_bounds (worker_done (phase p)) rest) as Hb.
    pose proof (caller_at_count _ _ _ Hc) as Hc01.
    destruct (thread w) eqn:Ht; try discriminate.
    + (* waiting: woken by the new phase *)
      unfold mag_worker_await_work in Hstep. rewrite Hint in Hstep. simpl in Hstep.
      destruct (Z.ltb_spec (w_phase w) (phase p)) as [Hlt |]; simpl in Hstep;
        [| discriminate].
      injection Hstep as <-.
      destruct Hw as [(_ & Hnn & _) | (_ & Heq & _)]; [| lia].
      eapply PoolInv with (flight := true) (c := c) (w0 := w0)
        (rest := <[j := set_thread (set_w_phase w (phase p)) AtExec]> rest);
        simpl; eauto.
      * rewrite length_insert. exact Hlen.
      * split.
        -- apply Forall_insert; [exact Hfl |].
           right. simpl. split; [lia |]. split; [reflexivity | tauto].
        -- assert (Hbefore : worker_done (phase p) w = false).
           { unfold worker_done. rewrite Ht. apply Z.eqb_neq. lia. }
           unfold set_workers. cbn.
           rewrite (tally_insert _ _ _ _ _ Hj), Hbefore, Hcount.
           unfold worker_done. simpl. lia.
    + (* executing *)
      destruct (exec_if_active (WorkerThread (S j)) p (payload w)) as [pl evs].
      injection Hstep as <-.
      destruct Hw as [(Hcontra & _) | (Hpos & Heq & _)]; [congruence |].
      eapply PoolInv with (flight := true) (c := c) (w0 := w0)
        (rest := <[j := set_thread (set_payload w pl) AtSignal]> rest);
        simpl; eauto.
      * rewrite length_insert. exact Hlen.
      * split.
        -- apply Forall_insert; [exact Hfl |].
           right. simpl. split; [lia |]. split; [exact Heq | tauto].
        -- assert (Hbefore : worker_done (phase p) w = false).
           { unfold worker_done. rewrite Ht. reflexivity. }
           unfold set_workers. cbn.
           rewrite (tally_insert _ _ _ _ _ Hj), Hbefore, Hcount.
           unfold worker_done. simpl. lia.
    + (* counting itself *)
      injection Hstep as <-.
      destruct Hw as [(Hcontra & _) | (Hpos & Heq & _)]; [congruence |].
      eapply PoolInv with (flight := true) (c := c) (w0 := w0)
        (rest := <[j := set_thread w AtAwait]> rest);
        simpl; eauto.
      * rewrite length_insert. exact Hlen.
      * split.
        -- apply Forall_insert; [exact Hfl |].
           right. simpl. split; [lia |]. split; [exact Heq | tauto].
        -- assert (Hbefore : worker_done (phase p) w = false).
           { unfold worker_done. rewrite Ht. reflexivity. }
           assert (Hafter : worker_done (phase p) (set_thread w AtAwait) = true).
           { unfold worker_done. simpl. rewrite Heq. apply Z.eqb_refl. }
           unfold set_workers. cbn.
           rewrite (tally_insert _ _ _ _ _ Hj), Hbefore, Hafter, Hcount.
           rewrite wrap64_small; unfold UINT32_MAX in *; lia.
  - (* between two calls: every worker thread is blocked *)
    pose proof (Forall_lookup_1 _ _ _ _ Hrest Hj) as [Ht Hp].
    rewrite Ht in Hstep.
    unfold mag_worker_await_work in Hstep. rewrite Hint, Hp, Z.ltb_irrefl in Hstep.
    discriminate.
Qed.

Lemma step_preserves_inv N l s s' :
  pool_inv N s -> sys_step l s = Some s' -> pool_inv N s'.
Proof.
  destruct l.
  - apply call_preserves_inv.
  - apply caller_preserves_inv.
  - apply worker_preserves_inv.
Qed.

Lemma run_preserves_inv N sched s s' :
  pool_inv N s -> run sched s = Some s' -> pool_inv N s'.
Proof.
  revert s. induction sched as [| l sched IH]; intros s Hinv Hrun; simpl in Hrun.
  - injection Hrun as <-. exact Hinv.
  - destruct (sys_step l s) as [s1 |] eqn:E; simpl in Hrun; [| discriminate].
    eapply IH; [| exact Hrun]. eapply step_preserves_inv; eassumption.
Qed.

Lemma reachable_inv N k c s :
  1 <= N <= UINT32_MAX -> reachable (fresh_system N k c) s -> pool_inv N s.
Proof.
  intros HN [sched Hrun].
  eapply run_preserves_inv; [apply fresh_system_inv, HN | exact Hrun].
Qed.

(** Every return from the barrier, in every run of a device with a pool of
    [N >= 2] workers: the completed counter is [N], the allocated count;
    every worker thread (workers 1 to N-1) waits with its local phase equal
    to the pool's; and worker 0, the calling thread, still has local phase 0
    while the pool's phase is above 0. *)
Theorem barrier_return_state (N : Z) (k : mag_kernel_registry_t) (c : mag_ctx_t)
    (s s' : system) :
  2 <= N <= UINT32_MAX ->
  reachable (fresh_system N k c) s ->
  head (caller s) = Some ActBarrier ->
  sys_step StepCaller s = Some s' ->
  exists p w0 rest,
    pool (device s') = Some p /\
    workers p = w0 :: rest /\
    Z.of_nat (length (workers p)) = N /\
    num_allocated_workers p = N /\
    num_completed p = N /\
    Forall (fun w => thread w = AtAwait /\ w_phase w = phase p) rest /\
    w_phase w0 = 0 /\
    0 < phase p /\
    caller s' = [].
Proof.
  intros HN Hreach Hhead Hstep.
  assert (Hinv : pool_inv N s) by (eapply reachable_inv; [lia | exact Hreach]).
  destruct Hinv as [p w0 rest flight cnt Hpool Hws Hint Hall Hlen Hsz Hph Hw0 Hc Hrest].
  simpl in Hstep. unfold caller_step in Hstep.
  inversion Hc; subst flight cnt;
    match goal with H : _ = caller s |- _ => rewrite <- H in Hhead, Hstep end;
    try discriminate.
  rewrite Hpool in Hstep. simpl in Hstep.
  destruct (barrier_open p) eqn:Hopen; [| discriminate].
  injection Hstep as <-. simpl.
  unfold barrier_open in Hopen. apply Z.eqb_eq in Hopen.
  destruct Hrest as [Hfl Hcount].
  assert (Hfull : tally (worker_done (phase p)) rest = Z.of_nat (length rest)) by lia.
  pose proof (all_done_parked _ _ Hfull) as Hparked.
  exists p, w0, rest. repeat split; try assumption.
  - rewrite Hws. simpl length. lia.
  - lia.
  - tauto.
  - destruct rest as [| w1 rest1]; [simpl in Hlen; lia |].
    inversion Hfl as [| ? ? Hw1 _]; subst.
    inversion Hparked as [| ? ? [Ht Hp] _]; subst.
    destruct Hw1 as [(_ & _ & Hne) | (Hpos & _)]; [congruence | exact Hpos].
Qed.

Lemma example_system_fresh n :
  1 < n ->
  example_system n = fresh_system n (tag_registry 256 empty_registry) example_ctx.
Proof.
  intros Hn. unfold example_system, example_init, mag_cpu_init_device.
  destruct (Z.ltb_spec 1 n); [reflexivity | lia].
Qed.

(** C1.  One kickoff / barrier cycle on the device initialised with two
    threads, a pool with two allocated workers: the run reaches the barrier,
    the barrier returns, and at that point the completed counter is 2, the
    allocated count, and the pool's phase is 1; worker 1's local phase is 1,
    but the local phase of worker 0, the calling thread, is still 0. *)
Theorem barrier_return_phases :
  exists s s' p,
    run example_cycle (example_system 2) = Some s /\
    caller s = [ActBarrier] /\
    sys_step StepCaller s = Some s' /\
    caller s' = [] /\
    pool (device s') = Some p /\
    num_allocated_workers p = 2 /\
    num_completed p = 2 /\
    phase p = 1 /\
    map w_phase (workers p) = [0; 1] /\
    map is_async (workers p) = [false; true].
Proof.
  eexists. eexists. eexists.
  split; [vm_compute; reflexivity |].
  split; [reflexivity |].
  split; [vm_compute; reflexivity |].
  repeat split.
Qed.

Lemma barrier_return_state_witness :
  exists p w0 rest,
    pool (device (default (example_system 2)
                    (run (example_cycle ++ [StepCaller]) (example_system 2)))) = Some p /\
    workers p = w0 :: rest /\
    Z.of_nat (length (workers p)) = 2 /\
    num_allocated_workers p = 2 /\
    num_completed p = 2 /\
    Forall (fun w => thread w = AtAwait /\ w_phase w = phase p) rest /\
    w_phase w0 = 0 /\
    0 < phase p /\
    caller (default (example_system 2)
              (run (example_cycle ++ [StepCaller]) (example_system 2))) = [].
Proof.
  apply (barrier_return_state 2 (tag_registry 256 empty_registry) example_ctx
           (default (example_system 2) (run example_cycle (example_system 2)))).
  - vm_compute. split; discriminate.
  - exists example_cycle. vm_compute. reflexivity.
  - vm_compute. reflexivity.
  - vm_compute. reflexivity.
Defined.

(** With four allocated workers and an active width of 2, workers 2 and 3
    run no kernel but wake and count themselves all the same: the barrier
    opens at a completed count of 4. *)
Example inactive_workers_are_counted :
  (s ← run [ CallFwd (Tensor 7 250011);
             StepCaller; StepCaller; StepCaller; StepCaller;
             StepWorker 3; StepWorker 1; StepWorker 3; StepWorker 2;
             StepWorker 1; StepWorker 2; StepWorker 3; StepWorker 2;
             StepWorker 1; StepCaller ]
           (example_system 4);
   p ← pool (device s);
   Some (caller s, num_active_workers p, num_completed p, phase p,
         map w_phase (workers p), trace s)) =
  Some ([], 2, 4, 1, [0; 1; 1; 1],
        [ EvKernel Caller 256 (Payload (Some (Tensor 7 250011)) 0 2);
          EvKernel (WorkerThread 1) 256 (Payload (Some (Tensor 7 250011)) 1 2) ]).
Proof. vm_compute. reflexivity. Qed.

(** The barrier does not open before every allocated worker has counted
    itself: with worker 3 still on its way the caller cannot move. *)
Example barrier_waits_for_all :
  (s ← run [ CallFwd (Tensor 7 250011);
             StepCaller; StepCaller; StepCaller; StepCaller;
             StepWorker 1; StepWorker 1; StepWorker 1;
             StepWorker 2; StepWorker 2; StepWorker 2;
             StepWorker 3; StepWorker 3 ]
           (example_system 4);
   p ← pool (device s);
   Some (caller s, num_completed p, sys_step StepCaller s)) =
  Some ([ActBarrier], 3, None).
Proof. vm_compute. reflexivity. Qed.

Example example_cycle_trace :
  trace <$> run (example_cycle ++ [StepCaller]) (example_system 2) =
  Some [ EvKernel Caller 256 (Payload (Some example_node) 0 2);
         EvKernel (WorkerThread 1) 256 (Payload (Some example_node) 1 2) ].
Proof. vm_compute. reflexivity. Qed.

(** ** Eager execution *)

Lemma exec_fwd_inline dvc nd k :
  mag_cpu_dynamic_work_scaling dvc (numel nd) = Some k ->
  no_pool dvc = true \/ k <= 1 ->
  mag_cpu_exec_fwd dvc nd = Some [ActInline (Payload (Some nd) 0 1)].
Proof.
  intros Hk Hcase. unfold mag_cpu_exec_fwd. rewrite Hk.
  destruct (no_pool dvc); simpl; [reflexivity |].
  destruct (Z.leb_spec k 1); [reflexivity |].
  destruct Hcase; [discriminate | lia].
Qed.

Lemma exec_fwd_parallel dvc nd k :
  mag_cpu_dynamic_work_scaling dvc (numel nd) = Some k ->
  no_pool dvc = false -> 1 < k ->
  mag_cpu_exec_fwd dvc nd =
    Some [ActKickoff nd k; ActBroadcast; ActExec 0; ActSignal; ActBarrier].
Proof.
  intros Hk Hp Hgt. unfold mag_cpu_exec_fwd. rewrite Hk, Hp. simpl.
  destruct (Z.leb_spec k 1); [lia | reflexivity].
Qed.

(** C8.  [exec_fwd] first computes [k = active_workers(node.numel)].  With
    no pool, or with [k <= 1], the calling thread runs the node's kernel
    itself, with the payload [{node, 0, 1}], and has returned: nothing of the
    device changes.  Otherwise, with a pool [p], what it sets out to do is
    [mag_threadpool_parallel_compute]: it performs [kickoff(node, k)] on [p];
    then, without any worker thread having moved, it has broadcast, run
    worker 0's kernel itself with the payload [{node, 0, k}] and counted
    itself once, and stands at the barrier, which lets it return only if
    [num_completed] equals the allocated count. *)
Theorem exec_fwd_dispatch (s : system) (nd : mag_tensor_t) (k : Z) :
  caller s = [] ->
  mag_cpu_dynamic_work_scaling (device s) (numel nd) = Some k ->
  (no_pool (device s) = true \/ k <= 1 ->
     run [CallFwd nd; StepCaller] s =
       Some (Sys (device s) []
                 (trace s ++ [EvKernel Caller (fwd (kernels (device s)) (op nd))
                                       (Payload (Some nd) 0 1)]))) /\
  (forall p w0 rest,
     pool (device s) = Some p ->
     workers p = w0 :: rest ->
     thread_idx (payload w0) = 0 ->
     1 < k ->
     run [CallFwd nd] s =
       Some (Sys (device s) (mag_threadpool_parallel_compute nd k) (trace s)) /\
     run [CallFwd nd; StepCaller] s =
       Some (Sys (set_pool (device s) (mag_threadpool_kickoff p nd k))
                 ([ActBroadcast] ++ mag_worker_exec_and_broadcast 0 ++ [ActBarrier])
                 (trace s)) /\
     exists s4 p4,
       run [CallFwd nd; StepCaller; StepCaller; StepCaller; StepCaller] s = Some s4 /\
       caller s4 = [ActBarrier] /\
       trace s4 =
         trace s ++ [EvKernel Caller (fwd (pool_kernels p) (op nd))
                              (Payload (Some nd) 0 k)] /\
       pool (device s4) = Some p4 /\
       num_active_workers p4 = k /\
       phase p4 = wrap64 (phase p + 1) /\
       num_completed p4 = 1 /\
       num_allocated_workers p4 = num_allocated_workers p /\
       sys_step StepCaller s4 =
         if 1 =? num_allocated_workers p
         then Some (Sys (device s4) [] (trace s4))
         else None).
Proof.
  intros Hidle Hk. split.
  - intros Hcase. simpl. rewrite Hidle.
    rewrite (exec_fwd_inline _ _ _ Hk Hcase). reflexivity.
  - intros p w0 rest Hp Hws Hidx Hgt.
    assert (Hnp : no_pool (device s) = false) by (unfold no_pool; now rewrite Hp).
    assert (Hactive : (0 <? k) = true) by (apply Z.ltb_lt; lia).
    split; [| split].
    + simpl. rewrite Hidle. rewrite (exec_fwd_parallel _ _ _ Hk Hnp Hgt). reflexivity.
    + simpl. rewrite Hidle. rewrite (exec_fwd_parallel _ _ _ Hk Hnp Hgt). simpl.
      unfold caller_step. simpl. rewrite Hp. reflexivity.
    + eexists. eexists.
      split.
      { simpl. rewrite Hidle. rewrite (exec_fwd_parallel _ _ _ Hk Hnp Hgt). simpl.
        unfold caller_step. simpl. rewrite Hp. simpl. rewrite Hws. simpl.
        unfold exec_if_active, mag_worker_exec_thread_local. simpl.
        rewrite Hidx, Hactive. simpl. reflexivity. }
      simpl. repeat split.
Qed.

Lemma exec_fwd_dispatch_witness :
  run [CallFwd example_node; StepCaller] (example_system 2) =
    Some (Sys (set_pool (device (example_system 2))
                 (mag_threadpool_kickoff
                    (mag_threadpool_create 2 (tag_registry 256 empty_registry))
                    example_node 2))
              ([ActBroadcast] ++ mag_worker_exec_and_broadcast 0 ++ [ActBarrier])
              []).
Proof.
  destruct (exec_fwd_dispatch (example_system 2) example_node 2) as [_ Hpar].
  - reflexivity.
  - vm_compute. reflexivity.
  - destruct (Hpar (mag_threadpool_create 2 (tag_registry 256 empty_registry))
                   (new_worker 2 0) [new_worker 2 1])
      as (_ & Hkick & _).
    + reflexivity.
    + reflexivity.
    + reflexivity.
    + lia.
    + exact Hkick.
Defined.

Example exec_fwd_small_node_inline :
  run [CallFwd (Tensor 7 100); StepCaller] (example_system 4) =
  Some (Sys (device (example_system 4)) []
            [EvKernel Caller 256 (Payload (Some (Tensor 7 100)) 0 1)]).
Proof. vm_compute. reflexivity. Qed.

Example exec_fwd_no_pool_inline :
  run [CallFwd example_node; StepCaller] (example_system 1) =
  Some (Sys (device (example_system 1)) []
            [EvKernel Caller 256 (Payload (Some example_node) 0 1)]).
Proof. vm_compute. reflexivity. Qed.

(** C9.  For every device and every root node, [exec_bwd] does not return:
    it aborts with the message NYI, with the state as it found it. *)
Theorem exec_bwd_refuses (dvc : mag_cpu_device_t) (root : mag_tensor_t) (s : system) :
  mag_cpu_exec_bwd dvc root s = Panic "NYI" s /\
  panics (mag_cpu_exec_bwd dvc root s) /\
  ~ returns (mag_cpu_exec_bwd dvc root s).
Proof. repeat split. simpl. tauto. Qed.

(** ** Storage buffers: frames, compositions and edges *)

Lemma wrap64_shift z k : wrap64 (z + k * 2 ^ 64) = wrap64 z.
Proof. unfold wrap64. apply Z_mod_plus_full. Qed.

Lemma wrap64_above z : 2 ^ 64 <= z < 2 * 2 ^ 64 -> wrap64 z = z - 2 ^ 64.
Proof.
  intros H. rewrite <- (wrap64_shift z (-1)). apply wrap64_small. lia.
Qed.

Lemma wrap64_below z : - 2 ^ 64 <= z < 0 -> wrap64 z = z + 2 ^ 64.
Proof.
  intros H. rewrite <- (wrap64_shift z 1). apply wrap64_small. lia.
Qed.

Lemma load_repeat m p n b :
  (forall i, 0 <= i < n -> m (p + i) = b) -> load m p n = repeat b (Z.to_nat n).
Proof.
  intros H. unfold load.
  assert (Hgen : forall len start,
             (forall i, (start <= i < start + len)%nat -> m (p + Z.of_nat i) = b) ->
             map (fun i => m (p + Z.of_nat i)) (seq start len) = repeat b len).
  { induction len as [| len IH]; intros start Hall; simpl; [reflexivity |].
    rewrite Hall by lia. f_equal. apply IH. intros i Hi. apply Hall. lia. }
  apply Hgen. intros i Hi. apply H. lia.
Qed.

Lemma memcpy_result_inside (m : memory) dst src n a :
  dst <= a < dst + n ->
  (if (dst <=? a) && (a <? dst + n) then m (src + (a - dst)) else m a) = m (src + (a - dst)).
Proof.
  intros H. destruct (Z.leb_spec dst a), (Z.ltb_spec a (dst + n)); simpl; try reflexivity; lia.
Qed.

Lemma memcpy_result_outside (m : memory) dst src n a :
  ~ (dst <= a < dst + n) ->
  (if (dst <=? a) && (a <? dst + n) then m (src + (a - dst)) else m a) = m a.
Proof.
  intros H. destruct (Z.leb_spec dst a), (Z.ltb_spec a (dst + n)); simpl; try reflexivity; lia.
Qed.

(** Copy-in writes the [n] source bytes to [offset, offset + n) of the
    buffer and changes no other byte, of the buffer or of anything else. *)
Theorem copy_in_writes_exactly (sto : mag_storage_buffer_t) (o n src : Z) (m : memory) :
  valid_storage sto ->
  0 <= o -> 0 <= n -> o + n <= sto_size sto ->
  (sto_base sto + o + n <= src \/ src + n <= sto_base sto + o) ->
  exists m',
    mag_cpu_buf_cpy_host_device sto o src n m = Done tt m' /\
    load m' (sto_base sto + o) n = load m src n /\
    (forall a, ~ (sto_base sto + o <= a < sto_base sto + o + n) -> m' a = m a).
Proof.
  intros Hv Ho Hn Hle Hsrc.
  eexists. split; [| split].
  - rewrite cpy_host_device_in_bounds by assumption.
    rewrite memcpy_apart by lia. reflexivity.
  - apply load_ext. intros i Hi. cbv beta.
    rewrite memcpy_result_inside by lia. f_equal. lia.
  - intros a Ha. cbv beta. apply memcpy_result_outside. exact Ha.
Qed.

Lemma copy_in_writes_exactly_witness :
  exists m',
    mag_cpu_buf_cpy_host_device example_storage 8 100 32 example_memory = Done tt m' /\
    load m' (sto_base example_storage + 8) 32 = load example_memory 100 32 /\
    (forall a, ~ (sto_base example_storage + 8 <= a < sto_base example_storage + 8 + 32) ->
       m' a = example_memory a).
Proof.
  apply (copy_in_writes_exactly example_storage 8 32 100 example_memory).
  - exact example_storage_valid.
  - lia.
  - lia.
  - simpl. lia.
  - simpl. lia.
Defined.

(** Copy-out reads: it writes the [n] bytes of [offset, offset + n) to the
    destination and changes nothing else, so with a destination that lies
    apart from the block the whole buffer is as it was. *)
Theorem copy_out_leaves_buffer (sto : mag_storage_buffer_t) (o n dst : Z) (m : memory) :
  valid_storage sto ->
  0 <= o -> 0 <= n -> o + n <= sto_size sto ->
  (sto_base sto + sto_size sto <= dst \/ dst + n <= sto_base sto) ->
  exists m',
    mag_cpu_buf_cpy_device_host sto o dst n m = Done tt m' /\
    load m' dst n = load m (sto_base sto + o) n /\
    load m' (sto_base sto) (sto_size sto) = load m (sto_base sto) (sto_size sto) /\
    (forall a, ~ (dst <= a < dst + n) -> m' a = m a).
Proof.
  intros Hv Ho Hn Hle Hdst. pose proof Hv as (Hb & Hs & Hend).
  eexists. split; [| split; [| split]].
  - rewrite cpy_device_host_in_bounds by assumption.
    rewrite memcpy_apart by lia. reflexivity.
  - apply load_ext. intros i Hi. cbv beta.
    rewrite memcpy_result_inside by lia. f_equal. lia.
  - apply load_ext. intros i Hi. cbv beta.
    apply memcpy_result_outside. lia.
  - intros a Ha. cbv beta. apply memcpy_result_outside. exact Ha.
Qed.

Lemma copy_out_leaves_buffer_witness :
  exists m',
    mag_cpu_buf_cpy_device_host example_storage 8 200 32 example_memory = Done tt m' /\
    load m' 200 32 = load example_memory (sto_base example_storage + 8) 32 /\
    load m' (sto_base example_storage) (sto_size example_storage) =
      load example_memory (sto_base example_storage) (sto_size example_storage) /\
    (forall a, ~ (200 <= a < 200 + 32) -> m' a = example_memory a).
Proof.
  apply (copy_out_leaves_buffer example_storage 8 32 200 example_memory).
  - exact example_storage_valid.
  - lia.
  - lia.
  - simpl. lia.
  - simpl. lia.
Defined.

(** A fill followed by a copy-out of any range at or after the fill's offset
    delivers nothing but the fill byte. *)
Theorem set_then_copy_out (sto : mag_storage_buffer_t) (k o n dst : Z) (b : Byte.byte)
    (m : memory) :
  valid_storage sto ->
  0 <= k <= o -> 0 <= n -> o + n <= sto_size sto ->
  (sto_base sto + o + n <= dst \/ dst + n <= sto_base sto + o) ->
  exists m1 m2,
    mag_cpu_buf_set sto k b m = Done tt m1 /\
    mag_cpu_buf_cpy_device_host sto o dst n m1 = Done tt m2 /\
    load m2 dst n = repeat b (Z.to_nat n).
Proof.
  intros Hv Hk Hn Hle Hdst.
  eexists. eexists. split; [| split].
  - apply set_in_bounds; [assumption | lia].
  - rewrite cpy_device_host_in_bounds by (try assumption; lia).
    rewrite memcpy_apart by lia. reflexivity.
  - apply load_repeat. intros i Hi. cbv beta.
    rewrite memcpy_result_inside by lia.
    apply memset_inside. lia.
Qed.

Lemma set_then_copy_out_witness :
  exists m1 m2,
    mag_cpu_buf_set example_storage 16 Byte.xab example_memory = Done tt m1 /\
    mag_cpu_buf_cpy_device_host example_storage 64 200 32 m1 = Done tt m2 /\
    load m2 200 32 = repeat Byte.xab (Z.to_nat 32).
Proof.
  apply (set_then_copy_out example_storage 16 64 32 200 Byte.xab example_memory).
  - exact example_storage_valid.
  - lia.
  - lia.
  - simpl. lia.
  - simpl. lia.
Defined.

(** The empty cases: a fill from [offset = size] and a copy of [n = 0] bytes
    at any offset up to [size] return and leave every byte of memory as it
    was, whatever the host pointer is (even one into the buffer). *)
Theorem empty_operations_change_nothing (sto : mag_storage_buffer_t) (m : memory) :
  valid_storage sto ->
  (forall b, exists m',
     mag_cpu_buf_set sto (sto_size sto) b m = Done tt m' /\ forall a, m' a = m a) /\
  (forall o p, 0 <= o <= sto_size sto ->
     exists m',
       mag_cpu_buf_cpy_host_device sto o p 0 m = Done tt m' /\ forall a, m' a = m a) /\
  (forall o p, 0 <= o <= sto_size sto ->
     exists m',
       mag_cpu_buf_cpy_device_host sto o p 0 m = Done tt m' /\ forall a, m' a = m a).
Proof.
  intros Hv. pose proof Hv as (Hb & Hs & Hend).
  split; [| split].
  - intros b. eexists. split.
    + apply set_in_bounds; [assumption | lia].
    + intros a. apply memset_outside. lia.
  - intros o p Ho. eexists. split.
    + rewrite cpy_host_device_in_bounds by (try assumption; lia).
      rewrite memcpy_disjoint by reflexivity. reflexivity.
    + intros a. cbv beta. apply memcpy_result_outside. lia.
  - intros o p Ho. eexists. split.
    + rewrite cpy_device_host_in_bounds by (try assumption; lia).
      rewrite memcpy_disjoint by reflexivity. reflexivity.
    + intros a. cbv beta. apply memcpy_result_outside. lia.
Qed.

Lemma empty_operations_change_nothing_witness :
  exists m',
    mag_cpu_buf_cpy_host_device example_storage 1024
      (sto_base example_storage) 0 example_memory = Done tt m' /\
    forall a, m' a = example_memory a.
Proof.
  destruct (empty_operations_change_nothing example_storage example_memory
              example_storage_valid) as (_ & Hin & _).
  apply Hin. simpl. lia.
Defined.

(** The assertions compare wrapped addresses.  A fill whose offset is so
    large that [base + offset] passes the end of the address space is let
    through and writes from below the block up to its end; a copy whose
    offset lies beyond the buffer is let through when [base + offset + n]
    wraps, and then writes (copy-in) or reads (copy-out) at
    [base + offset], outside the block. *)
Theorem wrapped_offsets_pass_the_assertions (sto : mag_storage_buffer_t) (m : memory) :
  valid_storage sto ->
  (forall offs x,
     2 ^ 64 - sto_base sto <= offs < 2 ^ 64 ->
     exists m',
       mag_cpu_buf_set sto offs x m = Done tt m' /\
       sto_size sto < offs /\
       sto_base sto + offs - 2 ^ 64 < sto_base sto /\
       forall a, sto_base sto + offs - 2 ^ 64 <= a < sto_base sto + sto_size sto ->
                 m' a = x) /\
  (forall offs n src,
     sto_size sto < offs -> 0 < n ->
     sto_base sto + offs < 2 ^ 64 <= sto_base sto + offs + n ->
     offs + n <= 2 ^ 64 + sto_size sto ->
     (sto_base sto + offs + n <= src \/ src + n <= sto_base sto + offs) ->
     exists m',
       mag_cpu_buf_cpy_host_device sto offs src n m = Done tt m' /\
       m' (sto_base sto + offs) = m src) /\
  (forall offs n dst,
     sto_size sto < offs -> 0 < n ->
     sto_base sto + offs < 2 ^ 64 <= sto_base sto + offs + n ->
     offs + n <= 2 ^ 64 + sto_size sto ->
     (sto_base sto + offs + n <= dst \/ dst + n <= sto_base sto + offs) ->
     exists m',
       mag_cpu_buf_cpy_device_host sto offs dst n m = Done tt m' /\
       m' dst = m (sto_base sto + offs)).
Proof.
  intros Hv. pose proof Hv as (Hb & Hs & Hend).
  split; [| split].
  - intros offs x Ho. eexists. split; [| split; [| split]].
    + unfold mag_cpu_buf_set, mag_assert2.
      rewrite (wrap64_above (sto_base sto + offs)) by lia.
      rewrite (wrap64_small (sto_base sto + sto_size sto)) by lia.
      rewrite (wrap64_below (sto_size sto - offs)) by lia.
      destruct (Z.leb_spec (sto_base sto + offs - 2 ^ 64) (sto_base sto + sto_size sto));
        [reflexivity | lia].
    + lia.
    + lia.
    + intros a Ha. apply memset_inside. lia.
  - intros offs n src Ho Hn Hw Hpass Hsrc. eexists. split.
    + unfold mag_cpu_buf_cpy_host_device, mag_assert2.
      rewrite (wrap64_above (sto_base sto + offs + n)) by lia.
      rewrite (wrap64_small (sto_base sto + sto_size sto)) by lia.
      rewrite (wrap64_small (sto_base sto + offs)) by lia.
      destruct (Z.leb_spec (sto_base sto + offs + n - 2 ^ 64) (sto_base sto + sto_size sto));
        [| lia].
      rewrite memcpy_apart by lia. reflexivity.
    + cbv beta. rewrite memcpy_result_inside by lia. f_equal. lia.
  - intros offs n dst Ho Hn Hw Hpass Hdst. eexists. split.
    + unfold mag_cpu_buf_cpy_device_host, mag_assert2.
      rewrite (wrap64_above (sto_base sto + offs + n)) by lia.
      rewrite (wrap64_small (sto_base sto + sto_size sto)) by lia.
      rewrite (wrap64_small (sto_base sto + offs)) by lia.
      destruct (Z.leb_spec (sto_base sto + offs + n - 2 ^ 64) (sto_base sto + sto_size sto));
        [| lia].
      rewrite memcpy_apart by lia. reflexivity.
    + cbv beta. rewrite memcpy_result_inside by lia. f_equal. lia.
Qed.

Lemma wrapped_offsets_pass_the_assertions_witness :
  exists m',
    mag_cpu_buf_set example_storage (2 ^ 64 - 16) Byte.xff example_memory = Done tt m' /\
    sto_size example_storage < 2 ^ 64 - 16 /\
    sto_base example_storage + (2 ^ 64 - 16) - 2 ^ 64 < sto_base example_storage /\
    forall a, sto_base example_storage + (2 ^ 64 - 16) - 2 ^ 64 <= a
              < sto_base example_storage + sto_size example_storage ->
              m' a = Byte.xff.
Proof.
  destruct (wrapped_offsets_pass_the_assertions example_storage example_memory
              example_storage_valid) as (Hset & _ & _).
  apply Hset. simpl. lia.
Defined.

(** ** The selector: what it never installs, and richer hosts *)

Section SelectorSoundness.
  Variable fallback : mag_kernel_registry_t -> mag_kernel_registry_t.

Lemma detect_scan_sound ctx specs st :
  if fst (detect_scan fallback ctx specs st)
  then exists pre spec post,
         specs = pre ++ spec :: post /\
         Forall (fun s => ~ selectable ctx s) pre /\
         selectable ctx spec /\
         snd (detect_scan fallback ctx specs st) =
           mag_log_info ("Using BLAS specialization: " ++ spec_name spec)
             (call_installer (Specialized (spec_name spec)) (inject_kernels spec) st)
  else Forall (fun s => ~ selectable ctx s) specs /\
       snd (detect_scan fallback ctx specs st) = call_installer Generic fallback st.
Proof.
  induction specs as [| spec rest IH].
  - simpl. split; [constructor | reflexivity].
  - destruct (selectableb ctx spec) eqn:E.
    + apply selectable_reflect in E.
      rewrite (detect_scan_hit fallback ctx spec rest st E). simpl.
      exists [], spec, rest. repeat split; [constructor | exact E].
    + assert (Hns : ~ selectable ctx spec).
      { rewrite selectable_reflect, E. discriminate. }
      rewrite (detect_scan_skip fallback ctx spec rest st Hns).
      destruct (fst (detect_scan fallback ctx rest st)).
      * destruct IH as (pre & sp & post & -> & Hpre & Hsel & Hst).
        exists (spec :: pre), sp, post. repeat split; try assumption.
        constructor; assumption.
      * destruct IH as [Hall Hst]. split; [constructor; assumption | exact Hst].
Qed.

Lemma selectable_mono ctx ctx' spec :
  cpu_features ctx ⊆ cpu_features ctx' -> selectable ctx spec -> selectable ctx' spec.
Proof.
  intros Hsub (features & Hget & Hne & Hall).
  exists features. repeat split; try assumption.
  intros f Hf. apply Hsub, Hall, Hf.
Qed.

Lemma first_selectable ctx pre spec post :
  selectable ctx spec ->
  exists pre' spec' post',
    pre ++ spec :: post = pre' ++ spec' :: post' /\
    (length pre' <= length pre)%nat /\
    Forall (fun s => ~ selectable ctx s) pre' /\
    selectable ctx spec'.
Proof.
  intros Hsel. induction pre as [| s pre IH].
  - exists [], spec, post. repeat split; [simpl; lia | constructor | exact Hsel].
  - destruct (selectableb ctx s) eqn:E.
    + apply selectable_reflect in E.
      exists [], s, (pre ++ spec :: post). repeat split; [simpl; lia | constructor | exact E].
    + destruct IH as (pre' & spec' & post' & Heq & Hlen & Hpre & Hs').
      exists (s :: pre'), spec', post'. simpl. rewrite Heq.
      repeat split; [lia | | exact Hs'].
      constructor; [| exact Hpre].
      rewrite selectable_reflect, E. discriminate.
Qed.

End SelectorSoundness.

(** What the selector never does: on an x86-64 build it never installs an
    entry with a feature the host lacks or with no feature list, never passes
    over a selectable entry for a later one, and never falls back to the
    generic kernels while some entry of the table is selectable. *)
Theorem selector_installs_only_selectable
    (fallback : mag_kernel_registry_t -> mag_kernel_registry_t)
    (avx512f_features avx2_features avx_features sse41_features
       : option (list mag_x86_64_feature_t))
    (inject_avx512f inject_avx2 inject_avx inject_sse41
       : mag_kernel_registry_t -> mag_kernel_registry_t)
    (c : mag_ctx_t) (st : blas_state) :
  let table :=
    mag_amd64_blas_specializations
      avx512f_features avx2_features avx_features sse41_features
      inject_avx512f inject_avx2 inject_avx inject_sse41 in
  let r :=
    mag_blas_detect_optimal_specialization fallback
      avx512f_features avx2_features avx_features sse41_features
      inject_avx512f inject_avx2 inject_avx inject_sse41 true c st in
  if fst r
  then exists pre spec post,
         table = pre ++ spec :: post /\
         Forall (fun s => ~ selectable c s) pre /\
         selectable c spec /\
         snd r =
           mag_log_info ("Using BLAS specialization: " ++ spec_name spec)
             (call_installer (Specialized (spec_name spec)) (inject_kernels spec) st)
  else Forall (fun s => ~ selectable c s) table /\
       snd r = call_installer Generic fallback st.
Proof.
  cbv zeta. unfold mag_blas_detect_optimal_specialization,
    mag_amd64_blas_detect_optimal_specialization.
  apply detect_scan_sound.
Qed.

(** A host with more features is never served worse: if the selector picks
    the entry at some position of the table for one host, then for every
    host that has all of that host's features it picks an entry at that
    position or before it, and not the fallback. *)
Theorem richer_host_never_ranks_lower
    (fallback : mag_kernel_registry_t -> mag_kernel_registry_t)
    (avx512f_features avx2_features avx_features sse41_features
       : option (list mag_x86_64_feature_t))
    (inject_avx512f inject_avx2 inject_avx inject_sse41
       : mag_kernel_registry_t -> mag_kernel_registry_t)
    (c c' : mag_ctx_t) (st : blas_state)
    (pre : list mag_amd64_blas_specialization) (spec : mag_amd64_blas_specialization)
    (post : list mag_amd64_blas_specialization) :
  cpu_features c ⊆ cpu_features c' ->
  mag_amd64_blas_specializations
      avx512f_features avx2_features avx_features sse41_features
      inject_avx512f inject_avx2 inject_avx inject_sse41 = pre ++ spec :: post ->
  Forall (fun s => ~ selectable c s) pre ->
  selectable c spec ->
  exists pre' spec' post',
    pre ++ spec :: post = pre' ++ spec' :: post' /\
    (rank pre' <= rank pre)%nat /\
    mag_blas_detect_optimal_specialization fallback
      avx512f_features avx2_features avx_features sse41_features
      inject_avx512f inject_avx2 inject_avx inject_sse41 true c' st =
      (true,
       mag_log_info ("Using BLAS specialization: " ++ spec_name spec')
         (call_installer (Specialized (spec_name spec')) (inject_kernels spec') st)).
Proof.
  intros Hsub Htable _ Hsel.
  destruct (first_selectable c' pre spec post (selectable_mono c c' spec Hsub Hsel))
    as (pre' & spec' & post' & Heq & Hlen & Hpre' & Hsel').
  exists pre', spec', post'. split; [exact Heq |]. split; [exact Hlen |].
  unfold mag_blas_detect_optimal_specialization,
    mag_amd64_blas_detect_optimal_specialization.
  rewrite Htable, Heq. apply detect_scan_first; assumption.
Qed.

Lemma richer_host_never_ranks_lower_witness :
  exists pre' spec' post',
    [Specialization "amd64_avx512f" (Some [1; 2]) (tag_registry 512)]
      ++ Specialization "amd64_avx2" (Some [2; 3]) (tag_registry 256)
      :: [Specialization "amd64_avx" (Some [3]) (tag_registry 128);
          Specialization "amd64_sse41" (Some [4]) (tag_registry 41)]
      = pre' ++ spec' :: post' /\
    (rank pre' <= 1)%nat /\
    mag_blas_detect_optimal_specialization (tag_registry 1)
      (Some [1; 2]) (Some [2; 3]) (Some [3]) (Some [4])
      (tag_registry 512) (tag_registry 256) (tag_registry 128) (tag_registry 41)
      true example_ctx_full (BlasState empty_registry [] []) =
      (true,
       mag_log_info ("Using BLAS specialization: " ++ spec_name spec')
         (call_installer (Specialized (spec_name spec')) (inject_kernels spec')
            (BlasState empty_registry [] []))).
Proof.
  apply (richer_host_never_ranks_lower (tag_registry 1)
           (Some [1; 2]) (Some [2; 3]) (Some [3]) (Some [4])
           (tag_registry 512) (tag_registry 256) (tag_registry 128) (tag_registry 41)
           example_ctx example_ctx_full).
  - simpl. apply (bool_decide_unpack _). vm_compute. exact I.
  - reflexivity.
  - constructor; [| constructor].
    rewrite selectable_reflect. vm_compute. discriminate.
  - apply selectable_reflect. vm_compute. reflexivity.
Defined.

Example richer_host_selects_avx512 :
  bs_installed (snd (mag_cpu_init_device (tag_registry 1)
                       (Some [1; 2]) (Some [2; 3]) (Some [3]) (Some [4])
                       (tag_registry 512) (tag_registry 256) (tag_registry 128)
                       (tag_registry 41) true example_ctx_full 4)) =
  [Specialized "amd64_avx512f"].
Proof. vm_compute. reflexivity. Qed.

(** ** Device initialisation *)

Lemma lookup_map_seq {A} (f : nat -> A) start len i x :
  map f (seq start len) !! i = Some x -> x = f (start + i)%nat /\ (i < len)%nat.
Proof.
  revert start i. induction len as [| len IH]; intros start i H; simpl in H.
  - discriminate.
  - destruct i as [| i]; simpl in H.
    + injection H as <-. rewrite Nat.add_0_r. split; [reflexivity | lia].
    + apply IH in H. destruct H as [-> Hlt].
      replace (S start + i)%nat with (start + S i)%nat by lia. split; [reflexivity | lia].
Qed.

Lemma create_workers_lookup n k i w :
  workers (mag_threadpool_create n k) !! i = Some w -> w = new_worker n i.
Proof.
  unfold mag_threadpool_create. simpl. intros H.
  apply lookup_map_seq in H. tauto.
Qed.

Lemma create_workers_length n k :
  0 <= n -> Z.of_nat (length (workers (mag_threadpool_create n k))) = n.
Proof.
  intros Hn. unfold mag_threadpool_create. simpl.
  rewrite length_map, length_seq. lia.
Qed.

(** Initialisation through the public entry point.  A thread count of 0 in
    the descriptor resolves to the number of virtual cores, and to 1 where
    the context reports none; the façade is synchronous, of the CPU kind, and
    none of its four entry points is null.  With a resolved count of 1 no
    pool is created and the device's allocated count is 0.  With a count
    [n > 1] the device holds a pool of [n] workers in which worker [i] has
    thread index [i], thread count [n], no node and phase 0, worker 0 alone is
    not async, and the device at rest satisfies the pool's invariant. *)
Theorem init_device_cpu_threads
    (fallback : mag_kernel_registry_t -> mag_kernel_registry_t)
    (avx512f_features avx2_features avx_features sse41_features
       : option (list mag_x86_64_feature_t))
    (inject_avx512f inject_avx2 inject_avx inject_sse41
       : mag_kernel_registry_t -> mag_kernel_registry_t)
    (format_device_name : mag_ctx_t -> Z -> string)
    (amd64 : bool) (c : mag_ctx_t) (desc : mag_device_descriptor_t) :
  let dvc := fst (mag_init_device_cpu fallback
                    avx512f_features avx2_features avx_features sse41_features
                    inject_avx512f inject_avx2 inject_avx inject_sse41
                    format_device_name amd64 c desc) in
  let n := resolved_threads c desc in
  0 <= thread_count desc <= UINT32_MAX ->
  cpu_virtual_cores c <= UINT32_MAX ->
  1 <= n <= UINT32_MAX /\
  (thread_count desc = 0 -> n = Z.max 1 (cpu_virtual_cores c)) /\
  (thread_count desc <> 0 -> n = thread_count desc) /\
  dev_name dvc = format_device_name c n /\
  dev_is_async dvc = false /\
  eager_exec_fwd dvc = Some fn_mag_cpu_exec_fwd /\
  eager_exec_bwd dvc = Some fn_mag_cpu_exec_bwd /\
  alloc_storage dvc = Some fn_mag_cpu_alloc_storage /\
  free_storage dvc = Some fn_mag_cpu_free_storage /\
  numel_threshold (impl dvc) = 250000 /\
  (n = 1 -> pool (impl dvc) = None /\ dvc_num_allocated_workers (impl dvc) = 0) /\
  (1 < n ->
   dvc_num_allocated_workers (impl dvc) = n /\
   pool_inv n (Sys (impl dvc) [] []) /\
   exists p,
     pool (impl dvc) = Some p /\
     num_allocated_workers p = n /\
     num_active_workers p = n /\
     Z.of_nat (length (workers p)) = n /\
     pool_kernels p = kernels (impl dvc) /\
     forall i w, workers p !! i = Some w ->
       thread_idx (payload w) = Z.of_nat i /\
       thread_num (payload w) = n /\
       node (payload w) = None /\
       w_phase w = 0 /\
       is_async w = negb (Nat.eqb i 0)).
Proof.
  cbv zeta. intros Htc Hcores.
  unfold mag_init_device_cpu, mag_cpu_init_interface, mag_cpu_init_device, resolved_threads.
  rewrite mag_xmax_spec.
  set (n := if thread_count desc =? 0
            then Z.max 1 (cpu_virtual_cores c) else thread_count desc).
  assert (Hn : 1 <= n <= UINT32_MAX).
  { subst n. unfold UINT32_MAX in *. destruct (Z.eqb_spec (thread_count desc) 0); lia. }
  destruct (mag_blas_detect_optimal_specialization fallback
              avx512f_features avx2_features avx_features sse41_features
              inject_avx512f inject_avx2 inject_avx inject_sse41
              amd64 c (BlasState empty_registry [] [])) as [b st].
  split; [exact Hn |].
  split; [subst n; intros ->; reflexivity |].
  split; [subst n; intros Hne; destruct (Z.eqb_spec (thread_count desc) 0);
          [contradiction | reflexivity] |].
  destruct (Z.ltb_spec 1 n) as [Hgt | Hle]; simpl.
  - repeat (split; [reflexivity |]).
    split; [intros ->; lia |].
    intros _. split; [reflexivity |].
    split.
    + apply (fresh_system_inv n (bs_kernels st) c). lia.
    + eexists. split; [reflexivity |].
      split; [reflexivity |]. split; [reflexivity |].
      split; [apply create_workers_length; lia |].
      split; [reflexivity |].
      intros i w Hw. apply create_workers_lookup in Hw. subst w.
      unfold new_worker. simpl. repeat split.
  - repeat (split; [reflexivity |]).
    split; [intros _; split; reflexivity |].
    intros Hgt. lia.
Qed.

Lemma init_device_cpu_threads_witness :
  1 <= resolved_threads example_ctx (DeviceDescriptor MAG_COMPUTE_DEVICE_TYPE_CPU 0)
    <= UINT32_MAX /\
  (0 = 0 -> resolved_threads example_ctx (DeviceDescriptor MAG_COMPUTE_DEVICE_TYPE_CPU 0) =
            Z.max 1 (cpu_virtual_cores example_ctx)).
Proof.
  destruct (init_device_cpu_threads (tag_registry 1)
              (Some [1; 2]) (Some [2; 3]) (Some [3]) (Some [4])
              (tag_registry 512) (tag_registry 256) (tag_registry 128) (tag_registry 41)
              (fun _ _ => "CPU"%string) true example_ctx
              (DeviceDescriptor MAG_COMPUTE_DEVICE_TYPE_CPU 0))
    as (Hn & Hauto & _).
  - vm_compute. split; discriminate.
  - vm_compute. discriminate.
  - split; [exact Hn | exact Hauto].
Defined.

Example init_device_cpu_auto_threads :
  let dvc := fst (mag_init_device_cpu (tag_registry 1)
                    (Some [1; 2]) (Some [2; 3]) (Some [3]) (Some [4])
                    (tag_registry 512) (tag_registry 256) (tag_registry 128)
                    (tag_registry 41) (fun _ _ => "CPU"%string) true example_ctx
                    (DeviceDescriptor MAG_COMPUTE_DEVICE_TYPE_CPU 0)) in
  dvc_num_allocated_workers (impl dvc) = 8 /\
  (length <$> (workers <$> pool (impl dvc))) = Some 8%nat.
Proof. vm_compute. split; reflexivity. Qed.

(** ** One call of the pool: which kernels run *)

Lemma lookup_map {A B} (f : A -> B) (l : list A) (i : nat) :
  map f l !! i = f <$> (l !! i).
Proof.
  revert i. induction l as [| x l IH]; intros [| i]; simpl; try reflexivity. apply IH.
Qed.

Lemma exec_if_active_index who p pl :
  thread_idx (fst (exec_if_active who p pl)) = thread_idx pl.
Proof.
  unfold exec_if_active, mag_worker_exec_thread_local.
  destruct (thread_idx pl <? num_active_workers p); [| reflexivity].
  destruct (node pl); reflexivity.
Qed.

Lemma fresh_system_static N reg c : static_inv N reg (fresh_system N reg c).
Proof.
  unfold fresh_system. econstructor; simpl; try reflexivity.
  intros i w Hw. apply create_workers_lookup in Hw. subst w. reflexivity.
Qed.

(** An update of one worker that keeps its thread index keeps the indices. *)
Lemma index_insert (ws : list mag_worker_t) i w w' :
  (forall j x, ws !! j = Some x -> thread_idx (payload x) = Z.of_nat j) ->
  ws !! i = Some w ->
  thread_idx (payload w') = thread_idx (payload w) ->
  forall j x, <[i := w']> ws !! j = Some x -> thread_idx (payload x) = Z.of_nat j.
Proof.
  intros Hall Hi Hsame j x Hj.
  destruct (decide (i = j)) as [<- | Hne].
  - rewrite list_lookup_insert_eq in Hj by (eapply lookup_lt_Some; exact Hi).
    injection Hj as <-. rewrite Hsame. apply Hall, Hi.
  - rewrite list_lookup_insert_ne in Hj by exact Hne. apply Hall, Hj.
Qed.

Lemma step_preserves_static N reg l s s' :
  static_inv N reg s -> sys_step l s = Some s' -> static_inv N reg s'.
Proof.
  intros [p Hpool Hdvc Hk Hpk Hidx] Hstep.
  destruct l as [nd | | i]; simpl in Hstep.
  - destruct (caller s); [| discriminate].
    destruct (mag_cpu_exec_fwd (device s) nd); [| discriminate].
    injection Hstep as <-. econstructor; simpl; eauto.
  - unfold caller_step in Hstep.
    destruct (caller s) as [| [pl | nd k | | i | |] acts]; try discriminate.
    + destruct (mag_worker_exec_thread_local Caller (kernels (device s)) pl).
      injection Hstep as <-. econstructor; simpl; eauto.
    + rewrite Hpool in Hstep. simpl in Hstep. injection Hstep as <-.
      econstructor; simpl; eauto.
      intros j w Hw. unfold mag_threadpool_kickoff in Hw. simpl in Hw.
      rewrite lookup_map in Hw.
      destruct (workers p !! j) as [w1 |] eqn:E; [| discriminate].
      injection Hw as <-. simpl. eapply Hidx, E.
    + injection Hstep as <-. econstructor; simpl; eauto.
    + rewrite Hpool in Hstep. simpl in Hstep.
      destruct (workers p !! i) as [w |] eqn:E; simpl in Hstep; [| discriminate].
      pose proof (exec_if_active_index Caller p (payload w)) as Hsame.
      destruct (exec_if_active Caller p (payload w)) as [pl evs]. simpl in Hsame.
      injection Hstep as <-. econstructor; simpl; eauto.
      eapply index_insert; eauto.
    + rewrite Hpool in Hstep. simpl in Hstep. injection Hstep as <-.
      econstructor; simpl; eauto.
    + rewrite Hpool in Hstep. simpl in Hstep.
      destruct (barrier_open p); [| discriminate].
      injection Hstep as <-. econstructor; simpl; eauto.
  - unfold worker_step in Hstep. rewrite Hpool in Hstep. simpl in Hstep.
    destruct (workers p !! i) as [w |] eqn:E; simpl in Hstep; [| discriminate].
    destruct (thread w); try discriminate.
    + destruct (mag_worker_await_work w p) as [[go w'] |] eqn:Ea; [| discriminate].
      injection Hstep as <-. econstructor; simpl; eauto.
      eapply index_insert; eauto. simpl.
      unfold mag_worker_await_work in Ea.
      destruct (negb (interrupt p || (w_phase w <? phase p))); [discriminate |].
      destruct (interrupt p); injection Ea as _ <-; reflexivity.
    + pose proof (exec_if_active_index (WorkerThread i) p (payload w)) as Hsame.
      destruct (exec_if_active (WorkerThread i) p (payload w)) as [pl evs].
      simpl in Hsame.
      injection Hstep as <-. econstructor; simpl; eauto.
      eapply index_insert; eauto.
    + injection Hstep as <-. econstructor; simpl; eauto.
      eapply index_insert; eauto.
Qed.

Lemma run_preserves_static N reg sched s s' :
  static_inv N reg s -> run sched s = Some s' -> static_inv N reg s'.
Proof.
  revert s. induction sched as [| l sched IH]; intros s Hinv Hrun; simpl in Hrun.
  - injection Hrun as <-. exact Hinv.
  - destruct (sys_step l s) as [s1 |] eqn:E; simpl in Hrun; [| discriminate].
    eapply IH; [| exact Hrun]. eapply step_preserves_static; eassumption.
Qed.

(** Between two calls no worker thread can move. *)
Lemma parked_workers_blocked N s i c :
  pool_inv N s -> caller_at (caller s) false c -> worker_step i s = None.
Proof.
  intros [p w0 rest flight c' Hpool Hws Hint Hall Hlen Hsz Hph Hw0 Hc Hrest] Hidle.
  assert (flight = false) as ->.
  { inversion Hidle as [He | ? He | ? ? He | | | |];
      rewrite <- He in Hc; inversion Hc; reflexivity. }
  unfold worker_step. rewrite Hpool. simpl. rewrite Hws.
  destruct i as [| j]; simpl.
  - destruct Hw0 as (_ & _ & ->). reflexivity.
  - destruct (rest !! j) as [w |] eqn:Hj; [| reflexivity]. simpl.
    pose proof (Forall_lookup_1 _ _ _ _ Hrest Hj) as [Ht Hp].
    rewrite Ht. unfold mag_worker_await_work. rewrite Hint, Hp, Z.ltb_irrefl. reflexivity.
Qed.

Lemma lookup_insert_all {A} (P : nat -> A -> Prop) (l : list A) i x' :
  (forall j x, l !! j = Some x -> P j x) ->
  P i x' ->
  forall j x, <[i := x']> l !! j = Some x -> P j x.
Proof.
  intros Hall Hi j x Hj.
  destruct (decide (i = j)) as [<- | Hne].
  - destruct (decide (i < length l)%nat) as [Hlt | Hge].
    + rewrite list_lookup_insert_eq in Hj by exact Hlt. injection Hj as <-. exact Hi.
    + rewrite list_insert_ge in Hj by lia. apply Hall, Hj.
  - rewrite list_lookup_insert_ne in Hj by exact Hne. apply Hall, Hj.
Qed.

(** The workers whose node is cleared, after an update that keeps a node. *)
Lemma ran_update (ws : list mag_worker_t) i w w' (ran : list nat) :
  ws !! i = Some w ->
  node (payload w') = node (payload w) ->
  (forall x, x ∈ ran <-> exists v, ws !! x = Some v /\ node (payload v) = None) ->
  forall x, x ∈ ran <-> exists v, <[i := w']> ws !! x = Some v /\ node (payload v) = None.
Proof.
  intros Hi Hnode Hran x. rewrite Hran.
  destruct (decide (i = x)) as [<- | Hne].
  - rewrite list_lookup_insert_eq by (eapply lookup_lt_Some; exact Hi).
    split; intros (v & Hv & Hn).
    + exists w'. split; [reflexivity |]. rewrite Hnode. congruence.
    + exists w. split; [exact Hi |]. rewrite <- Hnode. congruence.
  - rewrite list_lookup_insert_ne by exact Hne. reflexivity.
Qed.

(** ... and after an update that clears one. *)
Lemma ran_extend (ws : list mag_worker_t) i w w' (ran : list nat) :
  ws !! i = Some w ->
  node (payload w) <> None ->
  node (payload w') = None ->
  NoDup ran ->
  (forall x, x ∈ ran <-> exists v, ws !! x = Some v /\ node (payload v) = None) ->
  NoDup (ran ++ [i]) /\
  forall x, x ∈ ran ++ [i] <->
            exists v, <[i := w']> ws !! x = Some v /\ node (payload v) = None.
Proof.
  intros Hi Hsome Hnone Hnd Hran.
  assert (Hfresh : i ∉ ran).
  { intros Hin. apply Hran in Hin. destruct Hin as (v & Hv & Hn). congruence. }
  split.
  - apply NoDup_app. split; [exact Hnd |]. split.
    + intros x Hx Hx'. apply list_elem_of_singleton in Hx'. subst x. contradiction.
    + apply NoDup_singleton.
  - intros x. rewrite elem_of_app, list_elem_of_singleton, Hran.
    destruct (decide (i = x)) as [<- | Hne].
    + rewrite list_lookup_insert_eq by (eapply lookup_lt_Some; exact Hi).
      split; [| tauto]. intros _. exists w'. split; [reflexivity | exact Hnone].
    + rewrite list_lookup_insert_ne by exact Hne.
      split; [intros [H | H]; [exact H | congruence] | tauto].
Qed.

Lemma trace_extend {A} (f : nat -> A) (base : list A) ran i :
  (base ++ map f ran) ++ [f i] = base ++ map f (ran ++ [i]).
Proof. rewrite map_app. simpl. now rewrite app_assoc. Qed.

(** The kernel call of an active worker that still holds the node. *)
Lemma exec_active_shard reg p nd k i :
  pool_kernels p = reg ->
  num_active_workers p = k ->
  Z.of_nat i < k ->
  exec_if_active (shard_thread i) p (shard_payload nd k i true) =
    (shard_payload nd k i false, [shard_event reg nd k i]).
Proof.
  intros Hreg Hact Hlt. unfold exec_if_active, shard_payload. simpl.
  rewrite Hact, Hreg.
  destruct (Z.ltb_spec (Z.of_nat i) k); [| lia].
  reflexivity.
Qed.

(** A worker at or above the width runs nothing and keeps its payload. *)
Lemma exec_inactive_shard who p nd k i :
  num_active_workers p = k ->
  k <= Z.of_nat i ->
  exec_if_active who p (shard_payload nd k i true) = (shard_payload nd k i false, []).
Proof.
  intros Hact Hge. unfold exec_if_active, shard_payload. simpl.
  rewrite Hact.
  destruct (Z.ltb_spec (Z.of_nat i) k); [lia |].
  reflexivity.
Qed.

Lemma kickoff_starts_flight N reg s s' nd k p0 :
  pool_inv N s ->
  static_inv N reg s ->
  caller s = mag_threadpool_parallel_compute nd k ->
  pool (device s) = Some p0 ->
  sys_step StepCaller s = Some s' ->
  flight_inv reg (trace s) nd k (wrap64 (phase p0 + 1)) s'.
Proof.
  intros [p w0 rest flight c Hpool Hws Hint Hall Hlen Hsz Hph Hw0 Hc Hrest]
         [p1 Hpool1 Hdvc Hker Hpk Hidx] Hcaller Hp0 Hstep.
  rewrite Hpool in Hpool1, Hp0. injection Hpool1 as <-. injection Hp0 as <-.
  rewrite Hcaller in Hc. inversion Hc; subst flight c.
  simpl in Hstep. unfold caller_step in Hstep. rewrite Hcaller in Hstep.
  simpl in Hstep. rewrite Hpool in Hstep. simpl in Hstep. injection Hstep as <-.
  pose proof (wrap64_succ_differs (phase p) Hph) as Hne.
  eapply FlightInv with (p := mag_threadpool_kickoff p nd k)
                        (w0 := kickoff_payload nd k w0)
                        (rest := map (kickoff_payload nd k) rest)
                        (before0 := true) (ran := []);
    unfold mag_threadpool_kickoff; simpl.
  - reflexivity.
  - rewrite Hws. reflexivity.
  - reflexivity.
  - reflexivity.
  - constructor.
  - unfold shard_payload. simpl. f_equal.
    apply (Hidx 0%nat w0). rewrite Hws. reflexivity.
  - intros j w Hw. rewrite lookup_map in Hw.
    destruct (rest !! j) as [w1 |] eqn:E; [| discriminate]. injection Hw as <-.
    pose proof (Forall_lookup_1 _ _ _ _ Hrest E) as [Ht Hp].
    unfold before_exec, shard_payload. simpl. rewrite Ht, Hp.
    destruct (Z.eqb_spec (phase p) (wrap64 (phase p + 1))) as [Heq | _]; [congruence |].
    simpl. f_equal.
    apply (Hidx (S j) w1). rewrite Hws. exact E.
  - now rewrite app_nil_r.
  - constructor.
  - intros i. split; [intros H; inversion H |].
    intros (w & Hw & Hnode). exfalso.
    destruct i as [| j]; simpl in Hw.
    + injection Hw as <-. discriminate.
    + rewrite lookup_map in Hw.
      destruct (rest !! j) as [w1 |]; [| discriminate]. injection Hw as <-. discriminate.
Qed.

Lemma shard_done_node nd k i :
  Z.of_nat i < k -> node (shard_payload nd k i false) = None.
Proof.
  intros H. unfold shard_payload. simpl.
  destruct (Z.ltb_spec (Z.of_nat i) k); [reflexivity | lia].
Qed.

Lemma shard_idle_node nd k i :
  k <= Z.of_nat i -> node (shard_payload nd k i false) = Some nd.
Proof.
  intros H. unfold shard_payload. simpl.
  destruct (Z.ltb_spec (Z.of_nat i) k); [lia | reflexivity].
Qed.

Lemma flight_at_in_flight acts b f c :
  flight_at acts b -> caller_at acts f c -> f = true.
Proof. intros [] H; inversion H; reflexivity. Qed.

(** While a call is in flight, every step but the barrier's return keeps it
    in flight, and appends to the trace exactly the kernel call of a worker
    that had not run yet. *)
Lemma flight_step N reg base nd k ph l s s' :
  0 < k ->
  pool_inv N s -> static_inv N reg s ->
  flight_inv reg base nd k ph s ->
  same_call l ->
  sys_step l s = Some s' ->
  caller s' <> [] ->
  flight_inv reg base nd k ph s'.
Proof.
  intros Hk [p_ w0_ rest_ flight c Hpool_ Hws_ Hint Hall Hlen Hsz Hph Hw0 Hc Hrest]
         [p1 Hpool1 Hdvc Hker Hpk Hidx]
         [p w0 rest before0 ran Hpool Hws Hact Hphase Hfa Hpl0 Hpl Htr Hnd Hran]
         Hsame Hstep Hnonempty.
  rewrite Hpool in Hpool_, Hpool1. injection Hpool_ as <-. injection Hpool1 as <-.
  rewrite Hws in Hws_. injection Hws_ as <- <-.
  assert (flight = true) as -> by (eapply flight_at_in_flight; eassumption).
  destruct Hrest as [Hrest Hcount].
  destruct l as [nd' | | i]; [destruct Hsame | |]; simpl in Hstep.
  - unfold caller_step in Hstep.
    inversion Hfa as [He Hb | He Hb | He Hb | He Hb]; subst before0;
      rewrite <- He in Hstep; simpl in Hstep;
      try (rewrite Hpool in Hstep; simpl in Hstep).
    + injection Hstep as <-.
      eapply FlightInv with (before0 := true) (ran := ran); simpl; eauto.
      constructor.
    + rewrite Hws in Hstep. simpl in Hstep. rewrite Hpl0 in Hstep.
      pose proof (exec_active_shard reg p nd k 0 Hpk Hact Hk) as Hex.
      change (shard_thread 0) with Caller in Hex. rewrite Hex in Hstep.
      injection Hstep as <-.
      destruct (ran_extend (w0 :: rest) 0 w0
                  (set_payload w0 (shard_payload nd k 0 false)) ran) as [Hnd' Hran'];
        try assumption; try reflexivity.
      { rewrite Hpl0. discriminate. }
      { simpl. apply shard_done_node. exact Hk. }
      eapply FlightInv with (before0 := false) (ran := ran ++ [0%nat])
                            (w0 := set_payload w0 (shard_payload nd k 0 false))
                            (rest := rest); simpl; eauto.
      * constructor.
      * rewrite Htr. apply trace_extend.
    + injection Hstep as <-.
      eapply FlightInv with (before0 := false) (ran := ran); simpl; eauto.
      constructor.
    + destruct (barrier_open p); [| discriminate].
      injection Hstep as <-. simpl in Hnonempty. contradiction.
  - unfold worker_step in Hstep. rewrite Hpool in Hstep. simpl in Hstep.
    rewrite Hws in Hstep.
    destruct i as [| j]; simpl in Hstep.
    { destruct Hw0 as (_ & _ & Ht0). rewrite Ht0 in Hstep. discriminate. }
    destruct (rest !! j) as [w |] eqn:Hj; simpl in Hstep; [| discriminate].
    pose proof (Hpl j w Hj) as Hplw.
    pose proof (Forall_lookup_1 _ _ _ _ Hrest Hj) as Hfl.
    assert (Hjws : (w0 :: rest) !! S j = Some w) by exact Hj.
    destruct (thread w) eqn:Ht; try discriminate.
    + (* the worker wakes *)
      unfold mag_worker_await_work in Hstep. rewrite Hint in Hstep. simpl in Hstep.
      destruct (Z.ltb_spec (w_phase w) (phase p)) as [Hlt | Hge];
        simpl in Hstep; [| discriminate].
      injection Hstep as <-.
      eapply FlightInv with (before0 := before0) (ran := ran) (w0 := w0)
                            (rest := <[j := set_thread (set_w_phase w (phase p)) AtExec]> rest);
        simpl; eauto.
      * apply (lookup_insert_all
                 (fun j w => payload w = shard_payload nd k (S j) (before_exec (phase p) w)));
          [exact Hpl |].
        simpl. rewrite Hplw. unfold before_exec. rewrite Ht.
        destruct (Z.eqb_spec (w_phase w) (phase p)); [lia | reflexivity].
      * apply (ran_update (w0 :: rest) (S j) w); [exact Hjws | reflexivity | exact Hran].
    + (* the worker's kernel *)
      assert (Hbefore : before_exec (phase p) w = true)
        by (unfold before_exec; now rewrite Ht).
      rewrite Hbefore in Hplw. rewrite Hplw in Hstep.
      destruct (Z.lt_ge_cases (Z.of_nat (S j)) k) as [Hlt | Hge].
      * pose proof (exec_active_shard reg p nd k (S j) Hpk Hact Hlt) as Hex.
        change (shard_thread (S j)) with (WorkerThread (S j)) in Hex.
        rewrite Hex in Hstep.
        injection Hstep as <-.
        destruct (ran_extend (w0 :: rest) (S j) w
                    (set_thread (set_payload w (shard_payload nd k (S j) false)) AtSignal)
                    ran) as [Hnd' Hran'];
          try assumption.
        { rewrite Hplw. discriminate. }
        { simpl. apply shard_done_node. exact Hlt. }
        eapply FlightInv with
          (before0 := before0) (ran := ran ++ [S j]) (w0 := w0)
          (rest := <[j := set_thread (set_payload w (shard_payload nd k (S j) false))
                                     AtSignal]> rest);
          simpl; eauto.
        -- apply (lookup_insert_all
                   (fun j w => payload w = shard_payload nd k (S j) (before_exec (phase p) w)));
             [exact Hpl | reflexivity].
        -- rewrite Htr. apply trace_extend.
      * rewrite (exec_inactive_shard (WorkerThread (S j)) p nd k (S j) Hact Hge) in Hstep.
        injection Hstep as <-.
        eapply FlightInv with
          (before0 := before0) (ran := ran) (w0 := w0)
          (rest := <[j := set_thread (set_payload w (shard_payload nd k (S j) false))
                                     AtSignal]> rest);
          simpl; eauto.
        -- apply (lookup_insert_all
                   (fun j w => payload w = shard_payload nd k (S j) (before_exec (phase p) w)));
             [exact Hpl | reflexivity].
        -- now rewrite app_nil_r.
        -- apply (ran_update (w0 :: rest) (S j) w); [exact Hjws | | exact Hran].
           change (node (shard_payload nd k (S j) false) = node (payload w)).
           rewrite Hplw. rewrite shard_idle_node by exact Hge. reflexivity.
    + (* the worker counts itself *)
      injection Hstep as <-.
      assert (Hwp : w_phase w = phase p).
      { destruct Hfl as [(Ht' & _) | (_ & Hp & _)]; [congruence | exact Hp]. }
      eapply FlightInv with (before0 := before0) (ran := ran) (w0 := w0)
                            (rest := <[j := set_thread w AtAwait]> rest);
        simpl; eauto.
      * apply (lookup_insert_all
                 (fun j w => payload w = shard_payload nd k (S j) (before_exec (phase p) w)));
          [exact Hpl |].
        simpl. rewrite Hplw. unfold before_exec. rewrite Ht. simpl.
        rewrite Hwp, Z.eqb_refl. reflexivity.
      * apply (ran_update (w0 :: rest) (S j) w); [exact Hjws | reflexivity | exact Hran].
Qed.

(** When the barrier returns, the kernels that have run are those of the
    workers below the width, each once. *)
Lemma flight_barrier_return N reg base nd k ph l s s' :
  0 < k <= N ->
  pool_inv N s ->
  flight_inv reg base nd k ph s ->
  same_call l ->
  sys_step l s = Some s' ->
  caller s' = [] ->
  exists p ran,
    pool (device s') = Some p /\ phase p = ph /\ num_active_workers p = k /\
    num_completed p = num_allocated_workers p /\
    trace s' = base ++ map (shard_event reg nd k) ran /\
    ran ≡ₚ seq 0 (Z.to_nat k).
Proof.
  intros Hk [p_ w0_ rest_ flight c Hpool_ Hws_ Hint Hall Hlen Hsz Hph Hw0 Hc Hrest]
         [p w0 rest before0 ran Hpool Hws Hact Hphase Hfa Hpl0 Hpl Htr Hnd Hran]
         Hsame Hstep Hempty.
  rewrite Hpool in Hpool_. injection Hpool_ as <-.
  rewrite Hws in Hws_. injection Hws_ as <- <-.
  assert (flight = true) as -> by (eapply flight_at_in_flight; eassumption).
  destruct Hrest as [Hrest Hcount].
  destruct l as [nd' | | i]; [destruct Hsame | |]; simpl in Hstep.
  - unfold caller_step in Hstep.
    inversion Hfa as [He Hb | He Hb | He Hb | He Hb]; subst before0;
      rewrite <- He in Hstep, Hc; simpl in Hstep;
      try (rewrite Hpool in Hstep; simpl in Hstep).
    + injection Hstep as <-. discriminate.
    + rewrite Hws in Hstep. simpl in Hstep.
      destruct (exec_if_active Caller p (payload w0)). injection Hstep as <-. discriminate.
    + injection Hstep as <-. discriminate.
    + destruct (barrier_open p) eqn:Hopen; [| discriminate].
      injection Hstep as <-. simpl.
      unfold barrier_open in Hopen. apply Z.eqb_eq in Hopen.
      inversion Hc; subst c.
      assert (Hparked : Forall (parked (phase p)) rest) by (apply all_done_parked; lia).
      exists p, ran. repeat split; try assumption.
      apply NoDup_Permutation; [exact Hnd | apply NoDup_seq |].
      intros x. rewrite Hran, elem_of_seq. split.
      * intros (w & Hw & Hnode). destruct x as [| j]; [lia |].
        simpl in Hw. rewrite (Hpl j w Hw) in Hnode.
        pose proof (Forall_lookup_1 _ _ _ _ Hparked Hw) as [Ht Hp].
        unfold before_exec in Hnode. rewrite Ht, Hp, Z.eqb_refl in Hnode.
        destruct (Z.lt_ge_cases (Z.of_nat (S j)) k) as [Hlt | Hge]; [lia |].
        rewrite shard_idle_node in Hnode by exact Hge. discriminate.
      * intros Hx. destruct x as [| j].
        -- exists w0. split; [reflexivity |]. rewrite Hpl0. apply shard_done_node. lia.
        -- destruct (lookup_lt_is_Some_2 rest j) as [w Hw]; [lia |].
           exists w. split; [exact Hw |]. rewrite (Hpl j w Hw).
           pose proof (Forall_lookup_1 _ _ _ _ Hparked Hw) as [Ht Hp].
           unfold before_exec. rewrite Ht, Hp, Z.eqb_refl.
           apply shard_done_node. lia.
  - exfalso. unfold worker_step in Hstep. rewrite Hpool in Hstep. simpl in Hstep.
    destruct (workers p !! i) as [w |]; simpl in Hstep; [| discriminate].
    assert (Hkeep : caller s' = caller s).
    { destruct (thread w); try discriminate.
      - destruct (mag_worker_await_work w p) as [[go w'] |]; [| discriminate].
        injection Hstep as <-. reflexivity.
      - destruct (exec_if_active (WorkerThread i) p (payload w)).
        injection Hstep as <-. reflexivity.
      - injection Hstep as <-. reflexivity. }
    rewrite Hkeep in Hempty. rewrite Hempty in Hfa. inversion Hfa.
Qed.

(** The width the heuristic returns lies between 1 and the device's worker
    count, whatever the growth scale and the threshold. *)
Lemma work_scaling_width dvc n k :
  1 <= dvc_num_allocated_workers dvc ->
  mag_cpu_dynamic_work_scaling dvc n = Some k ->
  1 <= k <= dvc_num_allocated_workers dvc.
Proof.
  intros HN. unfold mag_cpu_dynamic_work_scaling.
  destruct (no_pool dvc || (n <? numel_threshold dvc)).
  - intros [= <-]. lia.
  - destruct ((INT64_MIN <=? n - numel_threshold dvc) &&
              (n - numel_threshold dvc <=? INT64_MAX)); [| discriminate].
    destruct (double_to_uint32 _) as [w |]; [| discriminate].
    intros [= <-]. rewrite mag_xmin_spec, mag_xmax_spec. lia.
Qed.

(** What a call does to an idle device. *)
Lemma call_starts N reg s0 nd k s :
  pool_inv N s0 -> static_inv N reg s0 ->
  mag_cpu_dynamic_work_scaling (device s0) (numel nd) = Some k ->
  sys_step (CallFwd nd) s0 = Some s ->
  caller s0 = [] /\ call_inv reg s0 nd k s.
Proof.
  intros [p w0 rest flight c Hpool Hws Hint Hall Hlen Hsz Hph Hw0 Hc Hrest]
         [p1 Hpool1 Hdvc Hker Hpk Hidx] Hscale Hstep.
  simpl in Hstep. destruct (caller s0) eqn:Hidle; [| discriminate].
  split; [reflexivity |].
  unfold mag_cpu_exec_fwd in Hstep. rewrite Hscale in Hstep.
  unfold no_pool in Hstep. rewrite Hpool in Hstep. simpl in Hstep.
  destruct (Z.leb_spec k 1) as [Hle | Hgt]; simpl in Hstep; injection Hstep as <-.
  - apply call_inline_pending; auto.
  - apply call_pending; auto.
Qed.

(** A call in progress stays one under every step that is not a new call. *)
Lemma call_step N reg s0 nd k l s s' :
  k <= N ->
  pool_inv N s -> static_inv N reg s ->
  call_inv reg s0 nd k s ->
  same_call l ->
  sys_step l s = Some s' ->
  call_inv reg s0 nd k s'.
Proof.
  intros HkN Hinv Hstatic Hcall Hsame Hstep.
  assert (Hblocked : forall c, caller_at (caller s) false c ->
            exists s1, l = StepCaller /\ caller_step s = Some s1).
  { intros c Hc. destruct l as [nd' | | i]; [destruct Hsame | |].
    - eexists. split; [reflexivity | exact Hstep].
    - simpl in Hstep. rewrite (parked_workers_blocked N s i c Hinv Hc) in Hstep.
      discriminate. }
  destruct Hcall as [Hk Hcaller Hdev Htr | Hk Hcaller Hdev Htr | Hk Hcaller Hdev Htr
                    | p0 Hk Hpool0 Hflight | p0 p Hk Hcaller Hpool0 Hpool Hph Hact Hcomp Hev].
  - destruct (Hblocked 0) as (s1 & -> & Hs1); [rewrite Hcaller; constructor |].
    simpl in Hstep. unfold caller_step in Hstep. rewrite Hcaller in Hstep.
    simpl in Hstep. injection Hstep as <-.
    destruct Hstatic as [p1 Hpool1 Hdvc Hker Hpk Hidx].
    apply call_inline_done; simpl; auto. rewrite Htr, Hker. reflexivity.
  - destruct (Hblocked 0) as (s1 & -> & Hs1); [rewrite Hcaller; constructor |].
    unfold caller_step in Hs1. rewrite Hcaller in Hs1. discriminate.
  - destruct (Hblocked 0) as (s1 & -> & Hs1); [rewrite Hcaller; constructor |].
    destruct Hstatic as [p1 Hpool1 Hdvc Hker Hpk Hidx].
    eapply call_in_flight with (p0 := p1); [exact Hk | now rewrite <- Hdev |].
    rewrite <- Htr.
    eapply kickoff_starts_flight; eauto. econstructor; eauto.
  - destruct (caller s') as [| a acts] eqn:Hc'.
    + destruct (flight_barrier_return N reg (trace s0) nd k (wrap64 (phase p0 + 1)) l s s')
        as (p & ran & Hp & Hph & Hact & Hcomp & Htr & Hperm); auto; [lia |].
      eapply call_done; eauto.
    + eapply call_in_flight; [exact Hk | exact Hpool0 |].
      eapply flight_step; eauto; [lia | congruence].
  - destruct (Hblocked 0) as (s1 & -> & Hs1); [rewrite Hcaller; constructor |].
    unfold caller_step in Hs1. rewrite Hcaller in Hs1. discriminate.
Qed.

Lemma run_cons l sched s : run (l :: sched) s = sys_step l s ≫= run sched.
Proof. reflexivity. Qed.

Lemma call_run N reg s0 nd k sched s s' :
  k <= N ->
  pool_inv N s -> static_inv N reg s ->
  call_inv reg s0 nd k s ->
  Forall same_call sched ->
  run sched s = Some s' ->
  call_inv reg s0 nd k s'.
Proof.
  intros HkN. revert s.
  induction sched as [| l sched IH]; intros s Hinv Hstatic Hcall Hsame Hrun;
    simpl in Hrun.
  - injection Hrun as <-. exact Hcall.
  - destruct (sys_step l s) as [s1 |] eqn:E; simpl in Hrun; [| discriminate].
    inversion Hsame as [| ? ? Hl Hrest]; subst.
    eapply IH; [| | | exact Hrest | exact Hrun].
    + eapply step_preserves_inv; eassumption.
    + eapply step_preserves_static; eassumption.
    + eapply call_step; eassumption.
Qed.

(** A call of [mag_cpu_exec_fwd] that has returned, on any interleaving of
    the caller and the worker threads: with [k] the width the work scaling
    chose, the kernels run since the call are exactly the shares [0 .. k-1]
    of the node, each once, every one on the node's operator's kernel with
    the payload [(node, i, k)]; share 0 ran on the calling thread and share
    [i > 0] on the thread of worker [i]; no other kernel ran.  A width of 1
    leaves the device untouched; a larger one advances the pool's phase by
    one and leaves the completed counter at the worker count. *)
Theorem exec_fwd_runs_each_share_once (N : Z) (reg : mag_kernel_registry_t)
    (c : mag_ctx_t) (s0 s1 : system) (nd : mag_tensor_t) (k : Z) (sched : list label) :
  1 <= N <= UINT32_MAX ->
  reachable (fresh_system N reg c) s0 ->
  mag_cpu_dynamic_work_scaling (device s0) (numel nd) = Some k ->
  Forall same_call sched ->
  run (CallFwd nd :: sched) s0 = Some s1 ->
  caller s1 = [] ->
  1 <= k <= N /\
  (exists ran,
     trace s1 = trace s0 ++ map (shard_event reg nd k) ran /\
     ran ≡ₚ seq 0 (Z.to_nat k)) /\
  (if k <=? 1 then device s1 = device s0
   else exists p0 p,
     pool (device s0) = Some p0 /\ pool (device s1) = Some p /\
     phase p = wrap64 (phase p0 + 1) /\
     num_active_workers p = k /\
     num_completed p = N).
Proof.
  intros HN [sched0 Hreach] Hscale Hsame Hrun Hreturned.
  assert (Hinv : pool_inv N s0).
  { eapply run_preserves_inv; [apply fresh_system_inv, HN | exact Hreach]. }
  assert (Hstatic : static_inv N reg s0).
  { eapply run_preserves_static; [apply fresh_system_static | exact Hreach]. }
  assert (Hk : 1 <= k <= N).
  { destruct Hstatic as [p1 Hpool1 Hdvc Hker Hpk Hidx].
    rewrite <- Hdvc. eapply work_scaling_width; [| exact Hscale]. lia. }
  split; [exact Hk |].
  rewrite run_cons in Hrun.
  destruct (sys_step (CallFwd nd) s0) as [s |] eqn:Hcall; [| discriminate].
  change (run sched s = Some s1) in Hrun.
  destruct (call_starts N reg s0 nd k s Hinv Hstatic Hscale Hcall) as [Hidle Hstart].
  assert (Hend : call_inv reg s0 nd k s1).
  { eapply (call_run N reg s0 nd k sched s); eauto; [lia | |].
    - eapply step_preserves_inv; eassumption.
    - eapply step_preserves_static; eassumption. }
  assert (Hinv1 : pool_inv N s1).
  { eapply run_preserves_inv; [| exact Hrun]. eapply step_preserves_inv; eassumption. }
  destruct Hend as [Hk1 Hcaller Hdev Htr | Hk1 Hcaller Hdev Htr | Hk1 Hcaller Hdev Htr
                    | p0 Hk1 Hpool0 Hflight | p0 p Hk1 Hcaller Hpool0 Hpool Hph Hact Hcomp Hev].
  - rewrite Hcaller in Hreturned. discriminate.
  - assert (k = 1) as -> by lia. split.
    + exists [0%nat]. split; [exact Htr | reflexivity].
    + exact Hdev.
  - rewrite Hcaller in Hreturned. discriminate.
  - destruct Hflight as [p w0 rest before0 ran Hpool Hws Hact Hphase Hfa _ _ _ _ _].
    rewrite Hreturned in Hfa. inversion Hfa.
  - split; [exact Hev |].
    destruct (Z.leb_spec k 1); [lia |].
    exists p0, p. repeat split; try assumption.
    destruct Hinv1 as [p_ w0_ rest_ flight c_ Hpool_ _ _ Hall _ _ _ _ _ _].
    rewrite Hpool in Hpool_. injection Hpool_ as <-. congruence.
Qed.

Lemma exec_fwd_runs_each_share_once_witness :
  1 <= 2 <= 2 /\
  (exists ran,
     trace (default (example_system 2)
              (run (example_cycle ++ [StepCaller]) (example_system 2))) =
       trace (example_system 2) ++
       map (shard_event (tag_registry 256 empty_registry) example_node 2) ran /\
     ran ≡ₚ seq 0 (Z.to_nat 2)) /\
  (if 2 <=? 1
   then device (default (example_system 2)
                  (run (example_cycle ++ [StepCaller]) (example_system 2))) =
        device (example_system 2)
   else exists p0 p,
     pool (device (example_system 2)) = Some p0 /\
     pool (device (default (example_system 2)
                     (run (example_cycle ++ [StepCaller]) (example_system 2)))) = Some p /\
     phase p = wrap64 (phase p0 + 1) /\
     num_active_workers p = 2 /\
     num_completed p = 2).
Proof.
  apply (exec_fwd_runs_each_share_once 2 (tag_registry 256 empty_registry) example_ctx
           (example_system 2) _ example_node 2
           (tl example_cycle ++ [StepCaller])).
  - vm_compute. split; discriminate.
  - exists []. vm_compute. reflexivity.
  - vm_compute. reflexivity.
  - repeat constructor.
  - vm_compute. reflexivity.
  - vm_compute. reflexivity.
Defined.

(** ** One call of the pool: that it returns *)

Lemma pool_todo_insert ph ws i w w' :
  ws !! i = Some w ->
  pool_todo ph (<[i := w']> ws) = pool_todo ph ws - worker_todo ph w + worker_todo ph w'.
Proof.
  revert i. induction ws as [| x ws IH]; intros [| i] Hi; simpl in *; try discriminate.
  - injection Hi as ->. lia.
  - rewrite (IH i Hi). lia.
Qed.

Lemma pool_todo_kickoff ph nd k ws :
  pool_todo ph (map (kickoff_payload nd k) ws) = pool_todo ph ws.
Proof. induction ws as [| w ws IH]; simpl; [reflexivity | now rewrite IH]. Qed.

Lemma worker_todo_bounds ph w : 0 <= worker_todo ph w <= 3.
Proof.
  unfold worker_todo. destruct (thread w); try lia.
  destruct (w_phase w =? ph); lia.
Qed.

Lemma pool_todo_bounds ph ws : 0 <= pool_todo ph ws <= 3 * Z.of_nat (length ws).
Proof.
  induction ws as [| w ws IH]; simpl length; simpl pool_todo; [lia |].
  pose proof (worker_todo_bounds ph w). lia.
Qed.

(** Every step of a call takes one from the steps left. *)
Lemma todo_step N ph l s s' :
  pool_inv N s ->
  (forall c p, caller_at (caller s) true c -> pool (device s) = Some p -> phase p = ph) ->
  same_call l ->
  sys_step l s = Some s' ->
  steps_left ph s' = steps_left ph s - 1.
Proof.
  intros [p w0 rest flight c Hpool Hws Hint Hall Hlen Hsz Hph Hw0 Hc Hrest]
         Hflight Hsame Hstep.
  unfold steps_left. rewrite Hpool.
  destruct l as [nd' | | i]; [destruct Hsame | |]; simpl in Hstep.
  - unfold caller_step in Hstep.
    destruct (caller s) as [| [pl | nd k | | i | |] acts] eqn:Hcs; try discriminate;
      simpl in Hstep; try (rewrite Hpool in Hstep; simpl in Hstep).
    + destruct (mag_worker_exec_thread_local Caller (kernels (device s)) pl).
      injection Hstep as <-. simpl. rewrite Hpool. lia.
    + injection Hstep as <-. simpl. rewrite pool_todo_kickoff. lia.
    + injection Hstep as <-. simpl. rewrite Hpool. lia.
    + inversion Hc; subst. rewrite Hws in Hstep. simpl in Hstep.
      destruct (exec_if_active Caller p (payload w0)).
      injection Hstep as <-. simpl. rewrite Hws. simpl.
      unfold worker_todo. simpl. lia.
    + injection Hstep as <-. simpl. lia.
    + destruct (barrier_open p); [| discriminate].
      injection Hstep as <-. simpl. rewrite Hpool. lia.
  - assert (flight = true) as ->.
    { destruct flight; [reflexivity |].
      rewrite (parked_workers_blocked N s i c) in Hstep;
        [discriminate | econstructor; eauto | exact Hc]. }
    destruct Hrest as [Hrest _].
    unfold worker_step in Hstep. rewrite Hpool in Hstep. simpl in Hstep.
    destruct (workers p !! i) as [w |] eqn:Hi; simpl in Hstep; [| discriminate].
    assert (Hfl : thread w = NoThread \/ in_flight (phase p) w).
    { rewrite Hws in Hi. destruct i as [| j]; simpl in Hi.
      - injection Hi as <-. left. apply Hw0.
      - right. exact (Forall_lookup_1 _ _ _ _ Hrest Hi). }
    destruct Hfl as [Ht0 | Hfl]; [rewrite Ht0 in Hstep; discriminate |].
    pose proof (Hflight c p Hc Hpool) as Hphase.
    destruct (thread w) eqn:Ht; try discriminate.
    + unfold mag_worker_await_work in Hstep. rewrite Hint in Hstep. simpl in Hstep.
      destruct (Z.ltb_spec (w_phase w) (phase p)) as [Hlt | Hge];
        simpl in Hstep; [| discriminate].
      injection Hstep as <-. simpl.
      rewrite (pool_todo_insert ph (workers p) i w _ Hi).
      unfold worker_todo. rewrite Ht. simpl.
      destruct (Z.eqb_spec (w_phase w) ph); lia.
    + destruct (exec_if_active (WorkerThread i) p (payload w)).
      injection Hstep as <-. simpl.
      rewrite (pool_todo_insert ph (workers p) i w _ Hi).
      unfold worker_todo. rewrite Ht. simpl. lia.
    + injection Hstep as <-. simpl.
      rewrite (pool_todo_insert ph (workers p) i w _ Hi).
      unfold worker_todo. rewrite Ht. simpl.
      destruct Hfl as [(Ht' & _) | (_ & Hp & _)]; [congruence |].
      destruct (Z.eqb_spec (w_phase w) ph); lia.
Qed.

Lemma phases_start N s0 p0 nd s :
  pool_inv N s0 ->
  pool (device s0) = Some p0 ->
  sys_step (CallFwd nd) s0 = Some s ->
  phases_inv (phase p0) s.
Proof.
  intros [p w0 rest flight c Hpool Hws Hint Hall Hlen Hsz Hph Hw0 Hc Hrest] Hp0 Hstep.
  rewrite Hpool in Hp0. injection Hp0 as <-.
  simpl in Hstep. destruct (caller s0) eqn:Hidle; [| discriminate].
  destruct (mag_cpu_exec_fwd (device s0) nd); [| discriminate].
  injection Hstep as <-. inversion Hc; subst flight c.
  exists p. simpl. split; [exact Hpool |]. split; [reflexivity |].
  intros j w Hw. rewrite Hws in Hw. simpl in Hw.
  left. exact (proj2 (Forall_lookup_1 _ _ _ _ Hrest Hw)).
Qed.

Lemma phases_step N ph0 l s s' :
  pool_inv N s -> phases_inv ph0 s -> same_call l -> sys_step l s = Some s' ->
  phases_inv ph0 s'.
Proof.
  intros [p w0 rest flight c Hpool Hws Hint Hall Hlen Hsz Hph Hw0 Hc Hrest]
         (p1 & Hpool1 & Hkick & Hlocal) Hsame Hstep.
  rewrite Hpool in Hpool1. injection Hpool1 as <-.
  destruct l as [nd' | | i]; [destruct Hsame | |]; simpl in Hstep.
  - unfold caller_step in Hstep.
    inversion Hc as [He | pl He | nd k He | He | He | He | He]; subst flight c;
      rewrite <- He in Hstep; simpl in Hstep;
      try (rewrite Hpool in Hstep; simpl in Hstep); try discriminate.
    + destruct (mag_worker_exec_thread_local Caller (kernels (device s)) pl).
      injection Hstep as <-. exists p. simpl. repeat split; auto. discriminate.
    + injection Hstep as <-. eexists. simpl. split; [reflexivity |].
      split; [discriminate |].
      intros j w Hw. unfold mag_threadpool_kickoff in Hw. simpl in Hw.
      rewrite lookup_map in Hw.
      destruct (workers p !! S j) as [w1 |] eqn:E; [| discriminate].
      injection Hw as <-. simpl. left.
      destruct (Hlocal j w1 E) as [H | H]; [exact H |].
      rewrite H. eapply Hkick. symmetry. exact He.
    + injection Hstep as <-. exists p. simpl. repeat split; auto. discriminate.
    + rewrite Hws in Hstep. simpl in Hstep.
      destruct (exec_if_active Caller p (payload w0)).
      injection Hstep as <-. eexists. simpl. split; [reflexivity |].
      split; [discriminate |].
      intros j w Hw. simpl in Hw. apply (Hlocal j w). rewrite Hws. exact Hw.
    + injection Hstep as <-. eexists. simpl. split; [reflexivity |].
      split; [discriminate |]. exact Hlocal.
    + destruct (barrier_open p); [| discriminate].
      injection Hstep as <-. exists p. simpl. repeat split; auto. discriminate.
  - unfold worker_step in Hstep. rewrite Hpool in Hstep. simpl in Hstep.
    destruct (workers p !! i) as [w |] eqn:Hi; simpl in Hstep; [| discriminate].
    assert (Hw : i <> 0%nat -> w_phase w = ph0 \/ w_phase w = phase p).
    { destruct i as [| j]; [congruence |]. intros _. exact (Hlocal j w Hi). }
    assert (Hkeep : forall w', (i <> 0%nat -> w_phase w' = ph0 \/ w_phase w' = phase p) ->
              forall j x, <[i := w']> (workers p) !! S j = Some x ->
                          w_phase x = ph0 \/ w_phase x = phase p).
    { intros w' Hw' j x Hx. destruct (decide (i = S j)) as [-> | Hne].
      - rewrite list_lookup_insert_eq in Hx by (eapply lookup_lt_Some; exact Hi).
        injection Hx as <-. apply Hw'. discriminate.
      - rewrite list_lookup_insert_ne in Hx by exact Hne. exact (Hlocal j x Hx). }
    destruct (thread w) eqn:Ht; try discriminate.
    + destruct (mag_worker_await_work w p) as [[go w'] |] eqn:Ea; [| discriminate].
      injection Hstep as <-. eexists. simpl. split; [reflexivity |].
      split; [exact Hkick |]. apply Hkeep. intros Hi0. simpl.
      unfold mag_worker_await_work in Ea.
      destruct (negb (interrupt p || (w_phase w <? phase p))); [discriminate |].
      destruct (interrupt p); injection Ea as _ <-; simpl; auto.
    + destruct (exec_if_active (WorkerThread i) p (payload w)).
      injection Hstep as <-. eexists. simpl. split; [reflexivity |].
      split; [exact Hkick |]. apply Hkeep. exact Hw.
    + injection Hstep as <-. eexists. simpl. split; [reflexivity |].
      split; [exact Hkick |]. apply Hkeep. exact Hw.
Qed.

(** While a call is in flight the pool's phase is the one its kickoff set. *)
Lemma call_inv_phase reg s0 p0 nd k s c p :
  call_inv reg s0 nd k s ->
  pool (device s0) = Some p0 ->
  caller_at (caller s) true c ->
  pool (device s) = Some p ->
  phase p = wrap64 (phase p0 + 1).
Proof.
  intros Hcall Hp0 Hc Hp.
  destruct Hcall as [Hk Hcaller Hdev Htr | Hk Hcaller Hdev Htr | Hk Hcaller Hdev Htr
                    | p0' Hk Hpool0 Hflight | p0' p' Hk Hcaller Hpool0 Hpool Hph Hact Hcomp Hev];
    try (rewrite Hcaller in Hc; inversion Hc; fail).
  destruct Hflight as [p' w0 rest before0 ran Hpool Hws Hact Hphase _ _ _ _ _ _].
  congruence.
Qed.

Lemma tally_short f ws :
  tally f ws < Z.of_nat (length ws) -> exists j w, ws !! j = Some w /\ f w = false.
Proof.
  induction ws as [| x ws IH]; simpl tally; simpl length; [lia |].
  intros H. destruct (f x) eqn:Hx.
  - destruct IH as (j & w & Hj & Hw); [lia |]. exists (S j), w. auto.
  - exists 0%nat, x. auto.
Qed.

(** ** The condition variable *)

(** A step of the device with its condition variable is a step of the
    program by the same thread, or leaves the program state as it is (a
    thread blocks, or is woken for nothing). *)
Lemma cv_step_sys l cs cs' :
  cv_step l cs = Some cs' ->
  sys cs' = sys cs \/ exists l0, l = Run l0 /\ sys_step l0 (sys cs) = Some (sys cs').
Proof.
  intros Hstep. destruct l as [[nd | | i] | i]; unfold cv_step in Hstep.
  - destruct (sys_step (CallFwd nd) (sys cs)) as [s' |] eqn:E; [| discriminate].
    injection Hstep as <-. right. eauto.
  - destruct (bool_decide (0%nat ∈ asleep cs)); [discriminate |].
    destruct (caller_waits (sys cs)).
    + injection Hstep as <-. left. reflexivity.
    + destruct (caller_step (sys cs)) as [s' |] eqn:E; [| discriminate].
      injection Hstep as <-. right. exists StepCaller. eauto.
  - destruct (bool_decide (i ∈ asleep cs)); [discriminate |].
    destruct (worker_waits i (sys cs)).
    + injection Hstep as <-. left. reflexivity.
    + destruct (worker_step i (sys cs)) as [s' |] eqn:E; [| discriminate].
      injection Hstep as <-. right. exists (StepWorker i). eauto.
  - destruct (bool_decide (i ∈ asleep cs)); [| discriminate].
    injection Hstep as <-. left. reflexivity.
Qed.

Lemma cv_step_inv N reg l cs cs' :
  pool_inv N (sys cs) -> static_inv N reg (sys cs) ->
  cv_step l cs = Some cs' ->
  pool_inv N (sys cs') /\ static_inv N reg (sys cs').
Proof.
  intros Hinv Hstatic Hstep.
  destruct (cv_step_sys l cs cs' Hstep) as [-> | (l0 & -> & Hsys)]; [auto |].
  split.
  - eapply step_preserves_inv; eassumption.
  - eapply step_preserves_static; eassumption.
Qed.

(** The blocked threads stay as [wait_inv] says under every step. *)
Lemma wait_step N l cs cs' :
  pool_inv N (sys cs) -> wait_inv cs -> cv_step l cs = Some cs' -> wait_inv cs'.
Proof.
  intros [p w0 rest flight c Hpool Hws Hint Hall Hlen Hsz Hph Hw0 Hc Hrest]
         [p1 Wpool Wcaller Wworker] Hstep.
  rewrite Hpool in Wpool. injection Wpool as <-.
  assert (Hquiet : (forall acts, caller (sys cs) <> ActBroadcast :: acts) ->
            forall i w, i ∈ asleep cs -> i <> 0%nat -> workers p !! i = Some w ->
                        thread w = AtAwait /\ ~ w_phase w < phase p).
  { intros Hnb i w Hi Hi0 Hw. destruct (Wworker i w Hi Hi0 Hw) as [Ht Hlt].
    split; [exact Ht |]. intros H. destruct (Hlt H) as [acts Hacts].
    exact (Hnb acts Hacts). }
  destruct l as [[nd | | i] | i]; unfold cv_step, mag_cv_wait, mag_cv_broadcast in Hstep.
  - (* a new call *)
    simpl in Hstep. destruct (caller (sys cs)) eqn:Hidle; [| discriminate].
    destruct (mag_cpu_exec_fwd (device (sys cs)) nd) as [acts |]; [| discriminate].
    injection Hstep as <-. apply WaitInv with (p := p); simpl.
    + exact Hpool.
    + intros H0. destruct (Wcaller H0) as [Hb _]. discriminate.
    + intros i w Hi Hi0 Hw.
      destruct (Hquiet ltac:(intros; discriminate) i w Hi Hi0 Hw) as [Ht Hnlt].
      split; [exact Ht | intros; contradiction].
  - (* the calling thread *)
    destruct (bool_decide (0%nat ∈ asleep cs)) eqn:H0; [discriminate |].
    apply bool_decide_eq_false in H0.
    destruct (caller_waits (sys cs)) eqn:Hwaits.
    + injection Hstep as <-. unfold caller_waits in Hwaits. rewrite Hpool in Hwaits.
      inversion Hc as [He | pl He | nd k He | He | He | He | He]; subst flight c;
        rewrite <- He in Hwaits; try discriminate.
      apply negb_true_iff in Hwaits.
      apply WaitInv with (p := p); simpl.
      * exact Hpool.
      * intros _. split; [symmetry; exact He | exact Hwaits].
      * intros i w Hi Hi0 Hw. apply (Wworker i w); [| exact Hi0 | exact Hw].
        apply elem_of_union in Hi. destruct Hi as [Hi | Hi]; [| exact Hi].
        apply elem_of_singleton in Hi. contradiction.
    + destruct (caller_step (sys cs)) as [s' |] eqn:Hs; [| discriminate].
      injection Hstep as <-. unfold caller_step in Hs. unfold caller_broadcasts.
      inversion Hc as [He | pl He | nd k He | He | He | He | He]; subst flight c;
        rewrite <- He in Hs; try rewrite <- He; simpl in Hs;
        try (rewrite Hpool in Hs; simpl in Hs); try discriminate.
      * destruct (mag_worker_exec_thread_local Caller (kernels (device (sys cs))) pl).
        injection Hs as <-. apply WaitInv with (p := p); simpl.
        -- exact Hpool.
        -- intros H. contradiction.
        -- intros i w Hi Hi0 Hw.
           destruct (Hquiet ltac:(intros; rewrite <- He; discriminate) i w Hi Hi0 Hw)
             as [Ht Hnlt].
           split; [exact Ht | intros; contradiction].
      * injection Hs as <-.
        apply WaitInv with (p := mag_threadpool_kickoff p nd k); simpl.
        -- reflexivity.
        -- intros H. contradiction.
        -- intros i w Hi Hi0 Hw. rewrite lookup_map in Hw.
           destruct (workers p !! i) as [w1 |] eqn:E; [| discriminate].
           injection Hw as <-.
           destruct (Wworker i w1 Hi Hi0 E) as [Ht _].
           split; [exact Ht | intros _; eauto].
      * injection Hs as <-. apply WaitInv with (p := p); simpl.
        -- exact Hpool.
        -- intros H. apply elem_of_empty in H. contradiction.
        -- intros i w Hi. apply elem_of_empty in Hi. contradiction.
      * rewrite Hws in Hs. simpl in Hs.
        destruct (exec_if_active Caller p (payload w0)) as [pl evs].
        injection Hs as <-.
        eapply WaitInv; simpl.
        -- reflexivity.
        -- intros H. contradiction.
        -- intros i w Hi Hi0 Hw. destruct i as [| j]; [congruence |].
           simpl in Hw.
           destruct (Hquiet ltac:(intros; rewrite <- He; discriminate) (S j) w Hi Hi0)
             as [Ht Hnlt].
           { rewrite Hws. exact Hw. }
           split; [exact Ht | intros; contradiction].
      * rewrite Hpool. injection Hs as <-.
        destruct (snd (count_completed p)) eqn:Hflag.
        -- eapply WaitInv; simpl;
             [reflexivity
             | intros H; apply elem_of_empty in H; contradiction
             | intros i w Hi; apply elem_of_empty in Hi; contradiction].
        -- eapply WaitInv; simpl.
           ++ reflexivity.
           ++ intros H. contradiction.
           ++ intros i w Hi Hi0 Hw.
              destruct (Hquiet ltac:(intros; rewrite <- He; discriminate) i w Hi Hi0 Hw)
                as [Ht Hnlt].
              split; [exact Ht | intros; contradiction].
      * destruct (barrier_open p); [| discriminate].
        injection Hs as <-. apply WaitInv with (p := p); simpl.
        -- exact Hpool.
        -- intros H. contradiction.
        -- intros i w Hi Hi0 Hw.
           destruct (Hquiet ltac:(intros; rewrite <- He; discriminate) i w Hi Hi0 Hw)
             as [Ht Hnlt].
           split; [exact Ht | intros; contradiction].
  - (* a worker thread *)
    destruct (bool_decide (i ∈ asleep cs)) eqn:Hi; [discriminate |].
    apply bool_decide_eq_false in Hi.
    destruct (worker_waits i (sys cs)) eqn:Hwaits.
    + injection Hstep as <-.
      unfold worker_waits, worker_at in Hwaits. rewrite Hpool in Hwaits. simpl in Hwaits.
      destruct (workers p !! i) as [w |] eqn:Hw; simpl in Hwaits; [| discriminate].
      destruct (thread w) eqn:Ht; try discriminate.
      unfold mag_worker_await_work in Hwaits.
      destruct (negb (interrupt p || (w_phase w <? phase p))) eqn:Hpred.
      2:{ destruct (interrupt p); discriminate. }
      apply negb_true_iff, orb_false_iff in Hpred. destruct Hpred as [_ Hlt].
      apply Z.ltb_ge in Hlt.
      apply WaitInv with (p := p); simpl.
      * exact Hpool.
      * intros H0. apply elem_of_union in H0. destruct H0 as [H0 | H0].
        -- apply elem_of_singleton in H0. subst i. rewrite Hws in Hw.
           injection Hw as <-. destruct Hw0 as (_ & _ & Ht0). congruence.
        -- apply Wcaller, H0.
      * intros j x Hj Hj0 Hx. apply elem_of_union in Hj. destruct Hj as [Hj | Hj].
        -- apply elem_of_singleton in Hj. subst j. rewrite Hw in Hx. injection Hx as <-.
           split; [exact Ht | intros; lia].
        -- apply (Wworker j x Hj Hj0 Hx).
    + destruct (worker_step i (sys cs)) as [s' |] eqn:Hs; [| discriminate].
      injection Hstep as <-.
      unfold worker_step in Hs. unfold worker_broadcasts, worker_at.
      rewrite Hpool in Hs |- *. simpl in Hs |- *.
      destruct (workers p !! i) as [w |] eqn:Hw; simpl in Hs |- *; [| discriminate].
      assert (Hother : forall w' ws j x, j ∈ asleep cs ->
                ws = <[i := w']> (workers p) -> ws !! j = Some x ->
                workers p !! j = Some x).
      { intros w' ws j x Hj -> Hx.
        rewrite list_lookup_insert_ne in Hx by (intros ->; contradiction). exact Hx. }
      destruct (thread w) eqn:Ht; try discriminate.
      * destruct (mag_worker_await_work w p) as [[go w'] |]; [| discriminate].
        injection Hs as <-. eapply WaitInv; simpl.
        -- reflexivity.
        -- exact Wcaller.
        -- intros j x Hj Hj0 Hx. apply (Wworker j x Hj Hj0).
           exact (Hother _ _ j x Hj eq_refl Hx).
      * destruct (exec_if_active (WorkerThread i) p (payload w)) as [pl evs].
        injection Hs as <-. eapply WaitInv; simpl.
        -- reflexivity.
        -- exact Wcaller.
        -- intros j x Hj Hj0 Hx. apply (Wworker j x Hj Hj0).
           exact (Hother _ _ j x Hj eq_refl Hx).
      * injection Hs as <-.
        destruct (wrap64 (num_completed p + 1) =? num_allocated_workers p) eqn:Hflag.
        -- eapply WaitInv; simpl;
             [reflexivity
             | intros H; apply elem_of_empty in H; contradiction
             | intros j x Hj; apply elem_of_empty in Hj; contradiction].
        -- eapply WaitInv; simpl.
           ++ reflexivity.
           ++ intros H0. destruct (Wcaller H0) as [Hb _]. split; [exact Hb |].
              exact Hflag.
           ++ intros j x Hj Hj0 Hx. apply (Wworker j x Hj Hj0).
           exact (Hother _ _ j x Hj eq_refl Hx).
  - (* a wake-up for nothing *)
    destruct (bool_decide (i ∈ asleep cs)); [| discriminate].
    injection Hstep as <-. apply WaitInv with (p := p); simpl.
    + exact Hpool.
    + intros H0. apply Wcaller. apply elem_of_difference in H0. apply H0.
    + intros j x Hj. apply Wworker. apply elem_of_difference in Hj. apply Hj.
Qed.

Lemma fresh_cv_wait N reg c : 1 <= N <= UINT32_MAX -> wait_inv (fresh_cv_system N reg c).
Proof.
  intros HN. eapply WaitInv; simpl.
  - reflexivity.
  - intros H. apply elem_of_empty in H. contradiction.
  - intros i w H. apply elem_of_empty in H. contradiction.
Qed.

Lemma cv_run_inv N reg sched cs cs' :
  pool_inv N (sys cs) -> static_inv N reg (sys cs) -> wait_inv cs ->
  cv_run sched cs = Some cs' ->
  pool_inv N (sys cs') /\ static_inv N reg (sys cs') /\ wait_inv cs'.
Proof.
  revert cs. induction sched as [| l sched IH]; intros cs Hinv Hstatic Hwait Hrun;
    simpl in Hrun.
  - injection Hrun as <-. auto.
  - destruct (cv_step l cs) as [cs1 |] eqn:E; simpl in Hrun; [| discriminate].
    destruct (cv_step_inv N reg l cs cs1 Hinv Hstatic E) as [Hinv1 Hstatic1].
    apply (IH cs1); try assumption.
    exact (wait_step N l cs cs1 Hinv Hwait E).
Qed.

Lemma cv_reachable_inv N reg c cs :
  1 <= N <= UINT32_MAX ->
  cv_reachable (fresh_cv_system N reg c) cs ->
  pool_inv N (sys cs) /\ static_inv N reg (sys cs) /\ wait_inv cs.
Proof.
  intros HN [sched Hrun].
  eapply cv_run_inv; [| | | exact Hrun].
  - apply fresh_system_inv, HN.
  - apply fresh_system_static.
  - apply fresh_cv_wait, HN.
Qed.

Lemma cv_run_cons l sched cs : cv_run (l :: sched) cs = cv_step l cs ≫= cv_run sched.
Proof. reflexivity. Qed.

(** The invariants of a call under a step of the device with its condition
    variable, and what the step does to the steps left. *)
Lemma cv_call_step N reg s0 p0 nd k l cs cs' :
  k <= N ->
  pool (device s0) = Some p0 ->
  pool_inv N (sys cs) -> static_inv N reg (sys cs) ->
  call_inv reg s0 nd k (sys cs) ->
  phases_inv (phase p0) (sys cs) ->
  cv_same_call l ->
  cv_step l cs = Some cs' ->
  call_inv reg s0 nd k (sys cs') /\
  phases_inv (phase p0) (sys cs') /\
  (sys cs' = sys cs \/
   steps_left (wrap64 (phase p0 + 1)) (sys cs') =
     steps_left (wrap64 (phase p0 + 1)) (sys cs) - 1).
Proof.
  intros HkN Hp0 Hinv Hstatic Hcall Hphases Hsame Hstep.
  destruct (cv_step_sys l cs cs' Hstep) as [-> | (l0 & -> & Hsys)]; [auto |].
  simpl in Hsame. split; [| split].
  - eapply call_step; eassumption.
  - eapply phases_step; eassumption.
  - right. eapply todo_step; try eassumption.
    intros c1 p. eapply call_inv_phase; eassumption.
Qed.

(** A call that has not returned can go on: the calling thread has a step
    of the program, or it is at the barrier with the counter short and some
    worker thread, which has not counted itself yet, has one. *)
Lemma call_progress N reg s0 p0 nd k s :
  pool_inv N s ->
  call_inv reg s0 nd k s ->
  phases_inv (phase p0) s ->
  pool (device s0) = Some p0 ->
  0 <= phase p0 -> phase p0 + 1 < 2 ^ 64 ->
  caller s <> [] ->
  (caller_waits s = false /\ exists s', caller_step s = Some s') \/
  (caller_waits s = true /\
   exists j p w s',
     pool (device s) = Some p /\ workers p !! S j = Some w /\
     worker_waits (S j) s = false /\ worker_step (S j) s = Some s' /\
     (thread w = AtAwait -> w_phase w < phase p)).
Proof.
  intros [p w0 rest flight c Hpool Hws Hint Hall Hlen Hsz Hph Hw0 Hc Hrest]
         Hcall (p1 & Hpool1 & Hkick & Hlocal) Hp0 Hph0 Hnowrap Hbusy.
  rewrite Hpool in Hpool1. injection Hpool1 as <-.
  assert (Hphase : flight = true -> phase p = phase p0 + 1).
  { intros ->. rewrite (call_inv_phase reg s0 p0 nd k s c p Hcall Hp0 Hc Hpool).
    apply wrap64_small. lia. }
  unfold caller_waits, caller_step.
  inversion Hc as [He | pl He | nd1 k1 He | He | He | He | He]; subst flight c;
    try rewrite <- He; simpl; try rewrite Hpool; simpl.
  - congruence.
  - left. split; [reflexivity |].
    destruct (mag_worker_exec_thread_local Caller (kernels (device s)) pl). eauto.
  - left. split; [reflexivity |]. eauto.
  - left. split; [reflexivity |]. eauto.
  - left. split; [reflexivity |]. rewrite Hws. simpl.
    destruct (exec_if_active Caller p (payload w0)). eauto.
  - left. split; [reflexivity |]. eauto.
  - destruct Hrest as [Hrest Hcount]. specialize (Hphase eq_refl).
    destruct (barrier_open p) eqn:Hopen; simpl.
    + left. split; [reflexivity |]. eauto.
    + right. split; [reflexivity |].
      unfold barrier_open in Hopen. apply Z.eqb_neq in Hopen.
      pose proof (tally_bounds (worker_done (phase p)) rest) as Hb.
      destruct (tally_short (worker_done (phase p)) rest) as (j & w & Hj & Hw); [lia |].
      assert (Hjw : workers p !! S j = Some w) by (rewrite Hws; exact Hj).
      pose proof (Forall_lookup_1 _ _ _ _ Hrest Hj) as Hfl.
      pose proof (Hlocal j w Hjw) as Hloc.
      assert (Hlt : thread w = AtAwait -> w_phase w < phase p).
      { intros Ht. unfold worker_done in Hw. rewrite Ht in Hw.
        apply Z.eqb_neq in Hw. lia. }
      exists j, p, w.
      unfold worker_waits, worker_at, worker_step.
      rewrite Hpool. simpl. rewrite Hjw. simpl.
      destruct (thread w) eqn:Ht.
      * destruct Hfl as [(Ht' & _) | (_ & _ & [Ht' | [Ht' | Ht']])]; congruence.
      * specialize (Hlt eq_refl).
        unfold mag_worker_await_work. rewrite Hint. simpl.
        destruct (Z.ltb_spec (w_phase w) (phase p)) as [_ | Hge]; [| lia].
        simpl. eauto 6.
      * destruct (exec_if_active (WorkerThread (S j)) p (payload w)). eauto 6.
      * eauto 6.
      * destruct Hfl as [(Ht' & _) | (_ & _ & [Ht' | [Ht' | Ht']])]; congruence.
Qed.

(** ... and the thread that has the step is not blocked. *)
Lemma cv_call_progress N reg s0 p0 nd k cs :
  pool_inv N (sys cs) ->
  call_inv reg s0 nd k (sys cs) ->
  phases_inv (phase p0) (sys cs) ->
  wait_inv cs ->
  pool (device s0) = Some p0 ->
  0 <= phase p0 -> phase p0 + 1 < 2 ^ 64 ->
  caller (sys cs) <> [] ->
  exists l0 cs',
    same_call l0 /\ cv_step (Run l0) cs = Some cs' /\
    sys_step l0 (sys cs) = Some (sys cs').
Proof.
  intros Hinv Hcall Hphases [p Wpool Wcaller Wworker] Hp0 Hph0 Hnowrap Hbusy.
  destruct (call_progress N reg s0 p0 nd k (sys cs) Hinv Hcall Hphases Hp0 Hph0 Hnowrap Hbusy)
    as [(Hwaits & s' & Hs) | (Hwaits & j & p1 & w & s' & Hp1 & Hw & Hww & Hs & Hlt)].
  - exists StepCaller. unfold cv_step. rewrite Hwaits, Hs. simpl.
    destruct (bool_decide (0%nat ∈ asleep cs)) eqn:H0.
    + apply bool_decide_eq_true in H0. destruct (Wcaller H0) as [Hb Hclosed].
      unfold caller_waits in Hwaits. rewrite Hb, Wpool, Hclosed in Hwaits. discriminate.
    + eexists. split; [exact I |]. split; [reflexivity | exact Hs].
  - rewrite Wpool in Hp1. injection Hp1 as <-.
    exists (StepWorker (S j)). unfold cv_step. rewrite Hww, Hs. simpl.
    destruct (bool_decide (S j ∈ asleep cs)) eqn:Hj.
    + apply bool_decide_eq_true in Hj.
      destruct (Wworker (S j) w Hj ltac:(discriminate) Hw) as [Ht Hb].
      destruct (Hb (Hlt Ht)) as [acts Hacts].
      unfold caller_waits in Hwaits. rewrite Hacts in Hwaits. discriminate.
    + eexists. split; [exact I |]. split; [reflexivity | exact Hs].
Qed.

Lemma steps_left_nonneg ph s : 0 <= steps_left ph s.
Proof.
  unfold steps_left. destruct (pool (device s)) as [p |]; [| lia].
  pose proof (pool_todo_bounds ph (workers p)). lia.
Qed.

Lemma cv_call_run N reg s0 p0 nd k sched cs cs' :
  k <= N ->
  pool (device s0) = Some p0 ->
  pool_inv N (sys cs) -> static_inv N reg (sys cs) -> wait_inv cs ->
  call_inv reg s0 nd k (sys cs) ->
  phases_inv (phase p0) (sys cs) ->
  Forall cv_same_call sched ->
  cv_run sched cs = Some cs' ->
  pool_inv N (sys cs') /\ static_inv N reg (sys cs') /\ wait_inv cs' /\
  call_inv reg s0 nd k (sys cs') /\ phases_inv (phase p0) (sys cs') /\
  steps_left (wrap64 (phase p0 + 1)) (sys cs') <=
    steps_left (wrap64 (phase p0 + 1)) (sys cs).
Proof.
  intros HkN Hp0. revert cs.
  induction sched as [| l sched IH];
    intros cs Hinv Hstatic Hwait Hcall Hphases Hsame Hrun; simpl in Hrun.
  - injection Hrun as <-. repeat split; try assumption. lia.
  - destruct (cv_step l cs) as [cs1 |] eqn:E; simpl in Hrun; [| discriminate].
    inversion Hsame as [| ? ? Hl Hrest]; subst.
    destruct (cv_step_inv N reg l cs cs1 Hinv Hstatic E) as [Hinv1 Hstatic1].
    pose proof (wait_step N l cs cs1 Hinv Hwait E) as Hwait1.
    destruct (cv_call_step N reg s0 p0 nd k l cs cs1 HkN Hp0 Hinv Hstatic Hcall Hphases Hl E)
      as (Hcall1 & Hphases1 & Hdec).
    destruct (IH cs1 Hinv1 Hstatic1 Hwait1 Hcall1 Hphases1 Hrest Hrun)
      as (Ha & Hb & Hc & Hd & He & Hle).
    repeat split; try assumption.
    destruct Hdec as [Heq | Hdec]; [rewrite Heq in Hle; exact Hle | lia].
Qed.

(** A call of [mag_cpu_exec_fwd] returns, with every wait on the condition
    variable and every broadcast in the picture.  From any reachable idle
    state of a device with a pool of [N] workers whose 64-bit phase counter
    is not at its last value, and on any interleaving within the call: the
    steps of the program left in the call are at most [3 N + 2]; every step
    either uses one of them up or leaves the program state as it is (a
    thread blocks in [mag_cv_wait], or is woken for nothing); and as long as
    the call has not returned, some thread that is not blocked has a step
    that uses one up. *)
Theorem exec_fwd_returns (N : Z) (reg : mag_kernel_registry_t) (c : mag_ctx_t)
    (cs0 cs : cv_system) (p0 : mag_threadpool_t) (nd : mag_tensor_t)
    (sched : list cv_label) :
  1 <= N <= UINT32_MAX ->
  cv_reachable (fresh_cv_system N reg c) cs0 ->
  pool (device (sys cs0)) = Some p0 ->
  phase p0 + 1 < 2 ^ 64 ->
  Forall cv_same_call sched ->
  cv_run (Run (CallFwd nd) :: sched) cs0 = Some cs ->
  0 <= steps_left (wrap64 (phase p0 + 1)) (sys cs) <= 3 * N + 2 /\
  (forall l cs', cv_same_call l -> cv_step l cs = Some cs' ->
     sys cs' = sys cs \/
     steps_left (wrap64 (phase p0 + 1)) (sys cs') =
       steps_left (wrap64 (phase p0 + 1)) (sys cs) - 1) /\
  (caller (sys cs) <> [] ->
   exists l cs',
     cv_same_call l /\ cv_step l cs = Some cs' /\
     steps_left (wrap64 (phase p0 + 1)) (sys cs') =
       steps_left (wrap64 (phase p0 + 1)) (sys cs) - 1).
Proof.
  intros HN Hreach Hp0 Hnowrap Hsame Hrun.
  destruct (cv_reachable_inv N reg c cs0 HN Hreach) as (Hinv & Hstatic & Hwait).
  rewrite cv_run_cons in Hrun.
  destruct (cv_step (Run (CallFwd nd)) cs0) as [cs1 |] eqn:Hcv; [| discriminate].
  change (cv_run sched cs1 = Some cs) in Hrun.
  assert (Hcall : sys_step (CallFwd nd) (sys cs0) = Some (sys cs1)).
  { unfold cv_step in Hcv.
    destruct (sys_step (CallFwd nd) (sys cs0)) as [s1 |]; [| discriminate].
    injection Hcv as <-. reflexivity. }
  assert (Hscale : exists k,
             mag_cpu_dynamic_work_scaling (device (sys cs0)) (numel nd) = Some k).
  { simpl in Hcall. destruct (caller (sys cs0)); [| discriminate].
    unfold mag_cpu_exec_fwd in Hcall.
    destruct (mag_cpu_dynamic_work_scaling (device (sys cs0)) (numel nd)) as [k |];
      [eauto | discriminate]. }
  destruct Hscale as [k Hscale].
  assert (Hk : 1 <= k <= N).
  { destruct Hstatic as [p1 Hpool1 Hdvc Hker Hpk Hidx].
    rewrite <- Hdvc. eapply work_scaling_width; [| exact Hscale]. lia. }
  destruct (call_starts N reg (sys cs0) nd k (sys cs1) Hinv Hstatic Hscale Hcall)
    as [Hidle Hstart].
  pose proof (phases_start N (sys cs0) p0 nd (sys cs1) Hinv Hp0 Hcall) as Hphases.
  destruct (cv_step_inv N reg _ cs0 cs1 Hinv Hstatic Hcv) as [Hinv1 Hstatic1].
  pose proof (wait_step N _ cs0 cs1 Hinv Hwait Hcv) as Hwait1.
  assert (Hleft1 : steps_left (wrap64 (phase p0 + 1)) (sys cs1) <= 3 * N + 2).
  { destruct Hinv1 as [p w0 rest flight c1 Hpool Hws _ _ Hlen _ _ Hw0 Hc _].
    unfold steps_left. rewrite Hpool, Hws. simpl pool_todo.
    pose proof (pool_todo_bounds (wrap64 (phase p0 + 1)) rest) as Hb.
    assert (worker_todo (wrap64 (phase p0 + 1)) w0 = 0) as ->.
    { unfold worker_todo. destruct Hw0 as (_ & _ & ->). reflexivity. }
    assert (Z.of_nat (length (caller (sys cs1))) <= 5); [| lia].
    inversion Hc; simpl; lia. }
  assert (Hphase0 : 0 <= phase p0).
  { destruct Hinv as [p w0 rest flight c1 Hpool _ _ _ _ _ Hph _ _ _].
    rewrite Hpool in Hp0. injection Hp0 as <-. lia. }
  destruct (cv_call_run N reg (sys cs0) p0 nd k sched cs1 cs
              ltac:(lia) Hp0 Hinv1 Hstatic1 Hwait1 Hstart Hphases Hsame Hrun)
    as (Hinv2 & Hstatic2 & Hwait2 & Hcall2 & Hphases2 & Hle).
  split; [| split].
  - pose proof (steps_left_nonneg (wrap64 (phase p0 + 1)) (sys cs)). lia.
  - intros l cs' Hl Hstep.
    apply (cv_call_step N reg (sys cs0) p0 nd k l cs cs'); try assumption. lia.
  - intros Hbusy.
    destruct (cv_call_progress N reg (sys cs0) p0 nd k cs
                Hinv2 Hcall2 Hphases2 Hwait2 Hp0 Hphase0 Hnowrap Hbusy)
      as (l0 & cs' & Hl0 & Hstep & Hsys).
    exists (Run l0), cs'. split; [exact Hl0 |]. split; [exact Hstep |].
    eapply todo_step; try eassumption.
    intros c1 p. eapply call_inv_phase; eassumption.
Qed.

Lemma exec_fwd_returns_witness :
  0 <= steps_left (wrap64 (0 + 1))
         (sys (default example_cv_system (cv_run example_cv_cycle example_cv_system)))
    <= 3 * 2 + 2 /\
  (forall l cs',
     cv_same_call l ->
     cv_step l (default example_cv_system (cv_run example_cv_cycle example_cv_system))
       = Some cs' ->
     sys cs' = sys (default example_cv_system (cv_run example_cv_cycle example_cv_system)) \/
     steps_left (wrap64 (0 + 1)) (sys cs') =
       steps_left (wrap64 (0 + 1))
         (sys (default example_cv_system (cv_run example_cv_cycle example_cv_system))) - 1) /\
  (caller (sys (default example_cv_system (cv_run example_cv_cycle example_cv_system)))
     <> [] ->
   exists l cs',
     cv_same_call l /\
     cv_step l (default example_cv_system (cv_run example_cv_cycle example_cv_system))
       = Some cs' /\
     steps_left (wrap64 (0 + 1)) (sys cs') =
       steps_left (wrap64 (0 + 1))
         (sys (default example_cv_system (cv_run example_cv_cycle example_cv_system))) - 1).
Proof.
  apply (exec_fwd_returns 2 (tag_registry 256 empty_registry) example_ctx
           (default example_cv_system (cv_run [Run (StepWorker 1)] example_cv_system))
           (default example_cv_system (cv_run example_cv_cycle example_cv_system))
           (mag_threadpool_create 2 (tag_registry 256 empty_registry))
           example_node (skipn 2 example_cv_cycle)).
  - vm_compute. split; discriminate.
  - exists [Run (StepWorker 1)]. vm_compute. reflexivity.
  - vm_compute. reflexivity.
  - vm_compute. reflexivity.
  - repeat constructor.
  - vm_compute. reflexivity.
Defined.

(** In the example the caller is blocked at the barrier when worker 1, the
    last to count itself, broadcasts; without that broadcast it would stay
    blocked. *)
Example example_cv_cycle_barrier :
  (asleep <$> cv_run (firstn 9 example_cv_cycle) example_cv_system) = Some {[0%nat]} /\
  (asleep <$> cv_run example_cv_cycle example_cv_system) = Some ∅ /\
  cv_step (Run StepCaller)
    (default example_cv_system (cv_run (firstn 9 example_cv_cycle) example_cv_system)) = None.
Proof. vm_compute. repeat split; reflexivity. Qed.

(** ** Shutting the pool down *)

Lemma tally_some f ws :
  0 < tally f ws -> exists j w, ws !! j = Some w /\ f w = true.
Proof.
  induction ws as [| x ws IH]; simpl tally; [lia |].
  intros H. destruct (f x) eqn:Hx.
  - exists 0%nat, x. auto.
  - destruct IH as (j & w & Hj & Hw); [lia |]. exists (S j), w. auto.
Qed.

Lemma tally_zero f ws : tally f ws = 0 -> Forall (fun w => f w = false) ws.
Proof.
  induction ws as [| x ws IH]; simpl tally; intros H; constructor.
  - pose proof (tally_bounds f ws). destruct (f x); [lia | reflexivity].
  - apply IH. pose proof (tally_bounds f ws). destruct (f x); lia.
Qed.

Lemma online_rest p w0 rest :
  workers p = w0 :: rest -> thread w0 = NoThread ->
  num_workers_online p = tally online rest.
Proof.
  intros Hws Hw0. unfold num_workers_online. rewrite Hws. simpl.
  unfold online at 1. rewrite Hw0. lia.
Qed.

(** The steps of a worker thread that stands in [mag_worker_await_work]. *)
Lemma cv_worker_exit cs i p w :
  pool (device (sys cs)) = Some p -> workers p !! i = Some w ->
  thread w = AtAwait -> interrupt p = true -> i ∉ asleep cs ->
  cv_step (Run (StepWorker i)) cs =
    Some (CvSys (Sys (set_pool (device (sys cs))
                        (set_workers p (<[i := set_thread w Exited]> (workers p))))
                     (caller (sys cs)) (trace (sys cs)))
                (asleep cs)).
Proof.
  intros Hpool Hw Ht Hint Hi. unfold cv_step.
  rewrite (bool_decide_eq_false_2 _ Hi).
  unfold worker_waits, worker_broadcasts, worker_at, worker_step.
  rewrite Hpool. simpl. rewrite Hw. simpl. rewrite Ht.
  unfold mag_worker_await_work. rewrite Hint. reflexivity.
Qed.

Lemma cv_worker_block cs i p w :
  pool (device (sys cs)) = Some p -> workers p !! i = Some w ->
  thread w = AtAwait -> interrupt p = false -> w_phase w = phase p -> i ∉ asleep cs ->
  cv_step (Run (StepWorker i)) cs = Some (CvSys (sys cs) (mag_cv_wait i (asleep cs))).
Proof.
  intros Hpool Hw Ht Hint Hp Hi. unfold cv_step.
  rewrite (bool_decide_eq_false_2 _ Hi).
  unfold worker_waits, worker_at.
  rewrite Hpool. simpl. rewrite Hw. simpl. rewrite Ht.
  unfold mag_worker_await_work. rewrite Hint, Hp, Z.ltb_irrefl. reflexivity.
Qed.

Lemma cv_worker_gone cs i p :
  pool (device (sys cs)) = Some p ->
  (forall w, workers p !! i = Some w -> thread w = NoThread \/ thread w = Exited) ->
  cv_step (Run (StepWorker i)) cs = None.
Proof.
  intros Hpool Hgone. unfold cv_step.
  destruct (bool_decide (i ∈ asleep cs)); [reflexivity |].
  unfold worker_waits, worker_at, worker_step.
  rewrite Hpool. simpl.
  destruct (workers p !! i) as [w |] eqn:Hw; simpl; [| reflexivity].
  destruct (Hgone w eq_refl) as [-> | ->]; reflexivity.
Qed.

(** Every step of a shutdown keeps the invariant, and either uses up one of
    the steps left or leaves the program state as it is (a worker thread
    blocks or is woken for nothing, the destroying thread yields). *)
Lemma stop_step N base l st st' :
  stop_inv N base st ->
  shutdown_step l st = Some st' ->
  stop_inv N base st' /\
  ((fst st' = fst st /\ sys (snd st') = sys (snd st)) \/
   stop_left st' = stop_left st - 1).
Proof.
  destruct st as [pc cs], st' as [pc' cs'].
  intros [p w0 rest Hpool Hws Hw0 Hlen Htr Hrest] Hstep.
  simpl in Hpool, Htr, Hrest.
  pose proof (online_rest p w0 rest Hws Hw0) as Hon.
  unfold stop_left. simpl fst. simpl snd. rewrite Hpool.
  destruct l as [| i | i]; unfold shutdown_step in Hstep;
    simpl fst in Hstep; simpl snd in Hstep.
  - (* the destroying thread *)
    destruct pc; simpl in Hstep; try discriminate;
      try (rewrite Hpool in Hstep; simpl in Hstep).
    + injection Hstep as <- <-. simpl. split; [| right; unfold num_workers_online; simpl; lia].
      destruct Hrest as [Hint Hparked].
      eapply StopInv with (w0 := w0) (rest := rest); simpl; eauto.
      split; [reflexivity |].
      eapply Forall_impl; [exact Hparked |]. intros w [Ht _]. left. exact Ht.
    + injection Hstep as <- <-. simpl. rewrite Hpool. split; [| right; lia].
      destruct Hrest as [Hint Hrest].
      eapply StopInv with (w0 := w0) (rest := rest); simpl; eauto.
    + destruct Hrest as (Hint & Hrest & Hawake).
      destruct (Z.eqb_spec (num_workers_online p) 0) as [Hzero | Hne];
        injection Hstep as <- <-; rewrite Hpool.
      * split; [| right; lia].
        eapply StopInv with (w0 := w0) (rest := rest); simpl; eauto.
        split; [exact Hint |].
        rewrite Hon in Hzero. apply tally_zero in Hzero.
        rewrite Forall_forall in Hrest, Hzero. apply Forall_forall. intros w Hw.
        specialize (Hzero w Hw). destruct (Hrest w Hw) as [Ht | Ht]; [| exact Ht].
        unfold online in Hzero. rewrite Ht in Hzero. discriminate.
      * split; [| left; split; reflexivity].
        eapply StopInv with (w0 := w0) (rest := rest); simpl; eauto.
  - (* a worker thread *)
    destruct (decide (i ∈ asleep cs)) as [Hi | Hi].
    { unfold cv_step in Hstep. rewrite (bool_decide_eq_true_2 _ Hi) in Hstep. discriminate. }
    destruct i as [| j].
    { rewrite (cv_worker_gone cs 0 p Hpool) in Hstep; [discriminate |].
      intros w Hw. rewrite Hws in Hw. injection Hw as <-. left. exact Hw0. }
    destruct (rest !! j) as [w |] eqn:Hj.
    2:{ rewrite (cv_worker_gone cs (S j) p Hpool) in Hstep; [discriminate |].
        intros w Hw. rewrite Hws in Hw. simpl in Hw. congruence. }
    assert (Hjw : workers p !! S j = Some w) by (rewrite Hws; exact Hj).
    destruct pc.
    + destruct Hrest as [Hint Hparked].
      pose proof (Forall_lookup_1 _ _ _ _ Hparked Hj) as [Ht Hp].
      rewrite (cv_worker_block cs (S j) p w Hpool Hjw Ht Hint Hp Hi) in Hstep.
      injection Hstep as <- <-. simpl. rewrite Hpool. split; [| left; split; reflexivity].
      eapply StopInv with (w0 := w0) (rest := rest); simpl; eauto.
    + destruct Hrest as [Hint Hrest].
      destruct (Forall_lookup_1 _ _ _ _ Hrest Hj) as [Ht | Ht].
      2:{ rewrite (cv_worker_gone cs (S j) p Hpool) in Hstep; [discriminate |].
          intros w' Hw'. rewrite Hjw in Hw'. injection Hw' as <-. right. exact Ht. }
      rewrite (cv_worker_exit cs (S j) p w Hpool Hjw Ht Hint Hi) in Hstep.
      injection Hstep as <- <-. simpl. split.
      * eapply StopInv with (w0 := w0) (rest := <[j := set_thread w Exited]> rest);
          simpl; eauto.
        -- rewrite Hws. reflexivity.
        -- rewrite length_insert. exact Hlen.
        -- split; [exact Hint |].
           apply Forall_insert; [exact Hrest | right; reflexivity].
      * right. unfold num_workers_online. simpl. rewrite Hws. simpl.
        rewrite (tally_insert online rest j w _ Hj).
        assert (online w = true) as -> by (unfold online; now rewrite Ht).
        assert (online (set_thread w Exited) = false) as -> by reflexivity.
        lia.
    + destruct Hrest as (Hint & Hrest & Hawake).
      destruct (Forall_lookup_1 _ _ _ _ Hrest Hj) as [Ht | Ht].
      2:{ rewrite (cv_worker_gone cs (S j) p Hpool) in Hstep; [discriminate |].
          intros w' Hw'. rewrite Hjw in Hw'. injection Hw' as <-. right. exact Ht. }
      rewrite (cv_worker_exit cs (S j) p w Hpool Hjw Ht Hint Hi) in Hstep.
      injection Hstep as <- <-. simpl. split.
      * eapply StopInv with (w0 := w0) (rest := <[j := set_thread w Exited]> rest);
          simpl; eauto.
        -- rewrite Hws. reflexivity.
        -- rewrite length_insert. exact Hlen.
        -- split; [exact Hint |]. split; [| exact Hawake].
           apply Forall_insert; [exact Hrest | right; reflexivity].
      * right. unfold num_workers_online. simpl. rewrite Hws. simpl.
        rewrite (tally_insert online rest j w _ Hj).
        assert (online w = true) as -> by (unfold online; now rewrite Ht).
        assert (online (set_thread w Exited) = false) as -> by reflexivity.
        lia.
    + destruct Hrest as [Hint Hrest].
      rewrite (cv_worker_gone cs (S j) p Hpool) in Hstep; [discriminate |].
      intros w' Hw'. rewrite Hjw in Hw'. injection Hw' as <-. right.
      exact (Forall_lookup_1 _ _ _ _ Hrest Hj).
  - (* a wake-up for nothing *)
    unfold cv_step in Hstep.
    destruct (bool_decide (i ∈ asleep cs)) eqn:Hi; [| discriminate].
    apply bool_decide_eq_true in Hi.
    injection Hstep as <- <-. simpl. rewrite Hpool. split; [| left; split; reflexivity].
    eapply StopInv with (w0 := w0) (rest := rest); simpl; eauto.
    destruct pc; try exact Hrest.
    destruct Hrest as (_ & _ & Hawake). rewrite Hawake in Hi.
    apply elem_of_empty in Hi. contradiction.
Qed.

(** Until the shutdown is over, some thread that is not blocked has a step
    of the program. *)
Lemma stop_progress N base st :
  stop_inv N base st -> fst st <> DestroyDone ->
  exists l st', shutdown_step l st = Some st' /\ stop_left st' = stop_left st - 1.
Proof.
  destruct st as [pc cs].
  intros [p w0 rest Hpool Hws Hw0 Hlen Htr Hrest] Hbusy.
  simpl in Hpool, Htr, Hrest, Hbusy.
  pose proof (online_rest p w0 rest Hws Hw0) as Hon.
  unfold stop_left. simpl fst. simpl snd. rewrite Hpool.
  destruct pc; [| | | congruence].
  - exists StopCaller. simpl. rewrite Hpool. eexists. split; [reflexivity |].
    simpl. unfold num_workers_online. simpl. lia.
  - exists StopCaller. simpl. eexists. split; [reflexivity |].
    simpl. rewrite Hpool. lia.
  - destruct Hrest as (Hint & Hrest & Hawake).
    destruct (Z.eqb_spec (num_workers_online p) 0) as [Hzero | Hne].
    + exists StopCaller. simpl. rewrite Hpool. simpl.
      destruct (Z.eqb_spec (num_workers_online p) 0); [| contradiction].
      eexists. split; [reflexivity |]. simpl. rewrite Hpool. lia.
    + pose proof (tally_bounds online rest) as Hb.
      destruct (tally_some online rest) as (j & w & Hj & Honl); [lia |].
      assert (Hjw : workers p !! S j = Some w) by (rewrite Hws; exact Hj).
      assert (Hnot : S j ∉ asleep cs).
      { rewrite Hawake. apply not_elem_of_empty. }
      destruct (Forall_lookup_1 _ _ _ _ Hrest Hj) as [Ht | Ht].
      * exists (StopWorker (S j)). unfold shutdown_step. simpl fst. simpl snd.
        rewrite (cv_worker_exit cs (S j) p w Hpool Hjw Ht Hint Hnot). simpl.
        eexists. split; [reflexivity |]. simpl.
        unfold num_workers_online. simpl. rewrite Hws. simpl.
        rewrite (tally_insert online rest j w _ Hj).
        rewrite Honl.
        assert (online (set_thread w Exited) = false) as -> by reflexivity.
        assert (online w0 = false) as -> by (unfold online; now rewrite Hw0).
        lia.
      * unfold online in Honl. rewrite Ht in Honl. discriminate.
Qed.

(** Destroying the pool of an idle device, on any interleaving of the
    destroying thread and the worker threads, with every wait on the
    condition variable and the broadcast of [mag_threadpool_destroy] in the
    picture: no kernel runs; the steps of the program left are at most
    [N + 2]; every step either uses one of them up or leaves the program
    state as it is; until the shutdown is over some thread that is not
    blocked has a step that uses one up; and when
    [mag_threadpool_destroy] gets past its loop on [num_workers_online] the
    interrupt is raised and every worker thread has left its loop. *)
Theorem destroy_stops_every_worker (N : Z) (reg : mag_kernel_registry_t) (c : mag_ctx_t)
    (cs0 cs : cv_system) (pc : destroy_pc) (sched : list stop_label) :
  1 <= N <= UINT32_MAX ->
  cv_reachable (fresh_cv_system N reg c) cs0 ->
  caller (sys cs0) = [] ->
  shutdown_run sched (DestroyEnter, cs0) = Some (pc, cs) ->
  trace (sys cs) = trace (sys cs0) /\
  0 <= stop_left (pc, cs) <= N + 2 /\
  (forall l st', shutdown_step l (pc, cs) = Some st' ->
     (fst st' = pc /\ sys (snd st') = sys cs) \/
     stop_left st' = stop_left (pc, cs) - 1) /\
  (pc <> DestroyDone ->
   exists l st', shutdown_step l (pc, cs) = Some st' /\
                 stop_left st' = stop_left (pc, cs) - 1) /\
  (pc = DestroyDone ->
   exists p w0 rest,
     pool (device (sys cs)) = Some p /\ workers p = w0 :: rest /\
     interrupt p = true /\ num_workers_online p = 0 /\
     Forall (fun w => thread w = Exited) rest).
Proof.
  intros HN Hreach Hidle Hrun.
  destruct (cv_reachable_inv N reg c cs0 HN Hreach) as (Hinv & _ & _).
  assert (Hstart : stop_inv N (trace (sys cs0)) (DestroyEnter, cs0)).
  { destruct Hinv as [p w0 rest flight c1 Hpool Hws Hint Hall Hlen Hsz Hph Hw0 Hc Hrest].
    rewrite Hidle in Hc. inversion Hc; subst flight c1.
    eapply StopInv with (w0 := w0) (rest := rest); simpl; eauto. apply Hw0. }
  assert (Hleft : stop_left (DestroyEnter, cs0) <= N + 2).
  { destruct Hstart as [p w0 rest Hpool Hws Hw0 Hlen _ _]. simpl in Hpool.
    unfold stop_left. simpl. rewrite Hpool, (online_rest p w0 rest Hws Hw0).
    pose proof (tally_bounds online rest). lia. }
  assert (Hnonneg : forall st, 0 <= stop_left st).
  { intros [pc1 cs1]. unfold stop_left. simpl.
    destruct (pool (device (sys cs1))) as [p1 |].
    - pose proof (tally_bounds online (workers p1)).
      unfold num_workers_online. destruct pc1; lia.
    - destruct pc1; lia. }
  enough (Hgen : stop_inv N (trace (sys cs0)) (pc, cs) /\
                 stop_left (pc, cs) <= stop_left (DestroyEnter, cs0)).
  { destruct Hgen as [Hend Hle].
    split; [| split; [| split; [| split]]].
    - destruct Hend as [p w0 rest _ _ _ _ Htr _]. exact Htr.
    - pose proof (Hnonneg (pc, cs)). lia.
    - intros l st' Hstep.
      exact (proj2 (stop_step N (trace (sys cs0)) l (pc, cs) st' Hend Hstep)).
    - intros Hbusy. eapply stop_progress; [exact Hend | exact Hbusy].
    - intros ->. destruct Hend as [p w0 rest Hpool Hws Hw0 _ _ [Hint Hrest]].
      exists p, w0, rest. repeat split; try assumption.
      rewrite (online_rest p w0 rest Hws Hw0).
      rewrite tally_none; [reflexivity |].
      eapply Forall_impl; [exact Hrest |]. intros w Ht. unfold online. now rewrite Ht. }
  clear Hleft Hinv Hreach Hidle.
  revert Hrun Hstart. generalize (DestroyEnter, cs0).
  induction sched as [| l sched IH]; intros st Hrun Hinv; simpl in Hrun.
  - injection Hrun as ->. split; [exact Hinv | lia].
  - destruct (shutdown_step l st) as [st1 |] eqn:Hstep; simpl in Hrun; [| discriminate].
    destruct (stop_step N (trace (sys cs0)) l st st1 Hinv Hstep) as [Hinv1 Hdec].
    destruct (IH st1 Hrun Hinv1) as [Hend Hle].
    split; [exact Hend |].
    destruct Hdec as [[Hpc Hsys] | Hdec]; [| lia].
    enough (stop_left st1 = stop_left st) by lia.
    unfold stop_left. now rewrite Hpc, Hsys.
Qed.

Lemma destroy_stops_every_worker_witness :
  trace (sys (snd example_stopped)) = trace (sys example_cv_used) /\
  0 <= stop_left (fst example_stopped, snd example_stopped) <= 2 + 2 /\
  (forall l st',
     shutdown_step l (fst example_stopped, snd example_stopped) = Some st' ->
     (fst st' = fst example_stopped /\ sys (snd st') = sys (snd example_stopped)) \/
     stop_left st' = stop_left (fst example_stopped, snd example_stopped) - 1) /\
  (fst example_stopped <> DestroyDone ->
   exists l st',
     shutdown_step l (fst example_stopped, snd example_stopped) = Some st' /\
     stop_left st' = stop_left (fst example_stopped, snd example_stopped) - 1) /\
  (fst example_stopped = DestroyDone ->
   exists p w0 rest,
     pool (device (sys (snd example_stopped))) = Some p /\ workers p = w0 :: rest /\
     interrupt p = true /\ num_workers_online p = 0 /\
     Forall (fun w => thread w = Exited) rest).
Proof.
  apply (destroy_stops_every_worker 2 (tag_registry 256 empty_registry) example_ctx
           example_cv_used (snd example_stopped) (fst example_stopped) example_shutdown).
  - vm_compute. split; discriminate.
  - exists (example_cv_cycle ++ [Run StepCaller; Run (StepWorker 1)]).
    vm_compute. reflexivity.
  - vm_compute. reflexivity.
  - vm_compute. reflexivity.
Defined.

(** The shutdown of the example: worker 1 is blocked when the interrupt is
    raised and has no step until the broadcast releases it; the shutdown
    ends with its thread gone and the trace as the call left it. *)
Example example_shutdown_ends :
  asleep example_cv_used = {[1%nat]} /\
  shutdown_step (StopWorker 1)
    (default (DestroyEnter, example_cv_used)
       (shutdown_run [StopCaller] (DestroyEnter, example_cv_used))) = None /\
  fst example_stopped = DestroyDone /\
  length (trace (sys (snd example_stopped))) = 2%nat /\
  (thread <$> (pool (device (sys (snd example_stopped))) ≫= fun p => workers p !! 1%nat))
    = Some Exited.
Proof. vm_compute. repeat split; reflexivity. Qed.
